(** * d3-gallery: the time chart and the Gantt chart components

    A shallow embedding of
      src/app/time-chart/time-chart.component.ts
      src/app/gantt-chart/gantt-chart.component.ts
    Component fields become record fields of a [State]; methods become
    functions on states.  JavaScript objects that are shared and mutated
    (the Gantt records) live in an explicit heap.  The d3 and uuid calls
    are library calls; each is modelled next to its use, following the
    library's documented behaviour. *)

From Stdlib Require Import ZArith QArith Qminmax List String Bool Lia Lqa.
From stdpp Require Import base option list strings gmap.

Set Warnings "-register-all".
Local Open Scope Q_scope.

(** ** JavaScript values *)

Module JS.

(** A JavaScript number.  A finite double is represented by its exact
    rational value; the three special values are kept apart.  Only
    comparisons of such values matter below. *)
Inductive number := NaN | NegInf | Fin (q : Q) | PosInf.

(** [a < b] *)
Definition lt (a b : number) : bool :=
  match a, b with
  | NaN, _ | _, NaN => false
  | NegInf, NegInf => false
  | NegInf, _ => true
  | _, NegInf => false
  | PosInf, _ => false
  | Fin _, PosInf => true
  | Fin p, Fin q => negb (Qle_bool q p)
  end.

(** [a > b] *)
Definition gt (a b : number) : bool := lt b a.

(** [a >= b] *)
Definition ge (a b : number) : bool :=
  match a, b with
  | NaN, _ | _, NaN => false
  | _, _ => negb (lt a b)
  end.

(** [a <= b] *)
Definition le (a b : number) : bool := ge b a.

Definition isNaN (a : number) : bool :=
  match a with NaN => true | _ => false end.

(** A [Date] object: its time value, milliseconds since the epoch, or NaN
    for an Invalid Date. *)
Record Date := mkDate { getTime : number }.

(** What the relational operators and d3's scans see of a value:
    whether it is null or undefined, and the number it coerces to. *)
Class Value (A : Type) := { nullish : A -> bool; valueOf : A -> number }.

#[global] Instance number_Value : Value number :=
  {| nullish := fun _ => false; valueOf := fun x => x |}.

#[global] Instance Date_Value : Value Date :=
  {| nullish := fun _ => false; valueOf := getTime |}.

(** A number that is a finite double, as its exact rational value. *)
Definition finite (x : number) : option Q :=
  match x with Fin q => Some q | _ => None end.

End JS.

Import JS.

(** ** d3-array: extent, min, max *)

Module d3_array.

(** One iteration of the loop of [d3.extent]:
      if (value != null) {
        if (min === undefined) { if (value >= value) min = max = value; }
        else { if (min > value) min = value; if (max < value) max = value; } } *)
Definition extent_step {A} `{Value A} (acc : option A * option A) (value : A)
  : option A * option A :=
  if nullish value then acc else
  match acc with
  | (None, mx) =>
      if ge (valueOf value) (valueOf value) then (Some value, Some value) else (None, mx)
  | (Some mn, mx) =>
      (Some (if gt (valueOf mn) (valueOf value) then value else mn),
       match mx with
       | Some m => Some (if lt (valueOf m) (valueOf value) then value else m)
       | None => None
       end)
  end.

(** [d3.extent(values)]: the pair [min, max]; [None] is [undefined]. *)
Definition extent {A} `{Value A} (values : list A) : option A * option A :=
  fold_left extent_step values (None, None).

(** One iteration of [d3.min]:
      if (value != null && (min > value || (min === undefined && value >= value)))
        min = value; *)
Definition min_step {A} `{Value A} (acc : option A) (value : A) : option A :=
  if negb (nullish value) &&
     match acc with
     | Some m => gt (valueOf m) (valueOf value)
     | None => ge (valueOf value) (valueOf value)
     end
  then Some value else acc.

Definition min {A} `{Value A} (values : list A) : option A :=
  fold_left min_step values None.

(** One iteration of [d3.max], the mirror image of [d3.min]. *)
Definition max_step {A} `{Value A} (acc : option A) (value : A) : option A :=
  if negb (nullish value) &&
     match acc with
     | Some m => lt (valueOf m) (valueOf value)
     | None => ge (valueOf value) (valueOf value)
     end
  then Some value else acc.

Definition max {A} `{Value A} (values : list A) : option A :=
  fold_left max_step values None.

End d3_array.

(** ** d3-scale, d3-axis, d3-zoom: the configuration objects *)

Module d3.

(** A continuous scale: its domain and its pixel range.  [nice] records
    that [.nice()] was called, which rounds the domain outward to round
    values. *)
Record Scale (D : Type) := mkScale {
  domain : option D * option D;
  range : Q * Q;
  nice : bool
}.
Arguments mkScale {D}.
Arguments domain {D}.
Arguments range {D}.
Arguments nice {D}.

Definition set_range {D} (s : Scale D) (r : Q * Q) : Scale D :=
  mkScale (domain s) r (nice s).

Inductive Orient := Top | Right | Bottom | Left.

(** The arguments given to [axis.ticks]: a target count, a formatter
    built by [d3.utcFormat(specifier)]. *)
Inductive TickArgument := Count (n : Z) | utcFormat (specifier : string).

(** An axis generator over a scale of type [S]. *)
Record Axis (S : Type) := mkAxis {
  orient : Orient;
  scale : S;
  tickArguments : list TickArgument;
  tickSizeInner : Q;
  tickSizeOuter : Q;
  tickFormat : bool
}.
Arguments mkAxis {S}.
Arguments orient {S}.
Arguments scale {S}.
Arguments tickArguments {S}.
Arguments tickSizeInner {S}.
Arguments tickSizeOuter {S}.
Arguments tickFormat {S}.

(** [d3.axisLeft(scale)] and its siblings: no tick arguments, both tick
    sizes 6, no tick format. *)
Definition axis {S} (o : Orient) (s : S) : Axis S := mkAxis o s [] 6 6 false.
Definition axisTop {S} := @axis S Top.
Definition axisBottom {S} := @axis S Bottom.
Definition axisLeft {S} := @axis S Left.

(** [axis.tickSize(x)] sets the inner and the outer tick size. *)
Definition tickSize {S} (x : Q) (a : Axis S) : Axis S :=
  mkAxis (orient a) (scale a) (tickArguments a) x x (tickFormat a).

(** [axis.tickSizeOuter(x)] sets the outer tick size only. *)
Definition set_tickSizeOuter {S} (x : Q) (a : Axis S) : Axis S :=
  mkAxis (orient a) (scale a) (tickArguments a) (tickSizeInner a) x (tickFormat a).

(** [axis.ticks(args...)] stores the arguments for the scale's tick
    generator and tick format. *)
Definition ticks {S} (args : list TickArgument) (a : Axis S) : Axis S :=
  mkAxis (orient a) (scale a) args (tickSizeInner a) (tickSizeOuter a) (tickFormat a).

(** [axis.tickFormat(f)] installs a formatter of the component. *)
Definition set_tickFormat {S} (a : Axis S) : Axis S :=
  mkAxis (orient a) (scale a) (tickArguments a) (tickSizeInner a) (tickSizeOuter a) true.

(** The zoom transform of an event: [applyY(y) = y * k + this.y]. *)
Record Transform := mkTransform { k : Q; x : Q; y : Q }.

Definition applyY (t : Transform) (y0 : Q) : Q := y0 * k t + y t.

Definition Extent : Type := (Q * Q) * (Q * Q).

(** A zoom behaviour as configured by the component. *)
Record Zoom := mkZoom {
  scaleExtent : Q * Q;
  extent : Extent;
  translateExtent : Extent;
  on_zoom : bool
}.

(** The scale factor d3-zoom gives a transform when a gesture asks for
    [k1]: [Math.max(scaleExtent[0], Math.min(scaleExtent[1], k1))]. *)
Definition zoom_scale (z : Zoom) (t : Transform) (k1 : Q) : Transform :=
  mkTransform (Qmax (fst (scaleExtent z)) (Qmin (snd (scaleExtent z)) k1)) (x t) (y t).

End d3.

(** ** The time chart component *)

Module TimeChart.

Record Serie := mkSerie { date : Date; price : number }.

Record Padding := mkPadding { top : Q; right : Q; bottom : Q; left : Q }.

(** What a render leaves in the named layers: the axis drawn in each axis
    group, the translation of the x-axis group, and the paths of the
    lines layer, each with the points and the scales it was drawn from. *)
Record Path := mkPath {
  d_points : list Serie;
  d_x : d3.Scale Date;
  d_y : d3.Scale number
}.

Record Dom := mkDom {
  xAxisLayer : option (d3.Axis (d3.Scale Date) * Q);
  yAxisLayer : option (d3.Axis (d3.Scale number));
  linesLayer : list Path;
  svgZoom : option d3.Zoom
}.

(** The component's fields.  Fields assigned by [compute] hold [None]
    ([undefined]) until then. *)
Record State := mkState {
  width : Q;
  height : Q;
  padding : Padding;
  series : list Serie;
  xScale : option (d3.Scale Date);
  yScale : option (d3.Scale number);
  xExtent : option (option Date * option Date);
  yExtent : option (option number * option number);
  xAxis : option (d3.Axis (d3.Scale Date));
  yAxis : option (d3.Axis (d3.Scale number));
  zoom : option d3.Zoom;
  dom : Dom
}.

(** The component as constructed: 800 x 600, padding 15/20/20/55, no
    data, nothing computed, empty layers. *)
Definition init : State :=
  mkState 800 600 (mkPadding 15 20 20 55) [] None None None None None None None
          (mkDom None None [] None).

Definition viewBoxWidth (st : State) : Q := width st.
Definition viewBoxHeight (st : State) : Q := height st.

Definition canvasWidth (st : State) : Q :=
  viewBoxWidth st - (left (padding st) + right (padding st)).

Definition canvasHeight (st : State) : Q :=
  viewBoxHeight st - (top (padding st) + bottom (padding st)).

Definition computeExtent (st : State) : State :=
  mkState (width st) (height st) (padding st) (series st) (xScale st) (yScale st)
    (Some (d3_array.extent (map date (series st))))
    (Some (d3_array.extent (map price (series st))))
    (xAxis st) (yAxis st) (zoom st) (dom st).

(** [this.xExtent] read while undefined would make d3 throw; [None] is
    that exception. *)
Definition computeScale (st : State) : option State :=
  xe ← xExtent st;
  ye ← yExtent st;
  Some (mkState (width st) (height st) (padding st) (series st)
    (Some (d3.mkScale xe (0, canvasWidth st) true))
    (Some (d3.mkScale ye (canvasHeight st, 0) false))
    (xExtent st) (yExtent st) (xAxis st) (yAxis st) (zoom st) (dom st)).

Definition computeAxis (st : State) : option State :=
  xs ← xScale st;
  ys ← yScale st;
  Some (mkState (width st) (height st) (padding st) (series st)
    (xScale st) (yScale st) (xExtent st) (yExtent st)
    (Some (d3.ticks [d3.Count 12; d3.utcFormat "%Y/%m"]
            (d3.set_tickSizeOuter (- canvasHeight st) (d3.axisBottom xs))))
    (Some (d3.tickSize (- canvasWidth st) (d3.axisLeft ys)))
    (zoom st) (dom st)).

Definition computeZoom (st : State) : State :=
  let extent := ((0, 0), (canvasWidth st, canvasHeight st)) in
  let z := d3.mkZoom (1, 4) extent extent true in
  mkState (width st) (height st) (padding st) (series st)
    (xScale st) (yScale st) (xExtent st) (yExtent st) (xAxis st) (yAxis st)
    (Some z)
    (mkDom (xAxisLayer (dom st)) (yAxisLayer (dom st)) (linesLayer (dom st)) (Some z)).

Definition compute (st : State) : option State :=
  st1 ← computeScale (computeExtent st);
  st2 ← computeAxis st1;
  Some (computeZoom st2).

Definition renderAxis (st : State) : option State :=
  xa ← xAxis st;
  ya ← yAxis st;
  Some (mkState (width st) (height st) (padding st) (series st)
    (xScale st) (yScale st) (xExtent st) (yExtent st) (xAxis st) (yAxis st) (zoom st)
    (mkDom (Some (xa, canvasHeight st)) (Some ya) (linesLayer (dom st)) (svgZoom (dom st)))).

(** The join of the one-element data [[this.series]] with the paths of
    the lines layer, by index: the first path is updated, or one is
    appended when there is none; [enter.merge(lines)] then sets [d]. *)
Definition renderLine (st : State) : option State :=
  xs ← xScale st;
  ys ← yScale st;
  let p := mkPath (series st) xs ys in
  Some (mkState (width st) (height st) (padding st) (series st)
    (xScale st) (yScale st) (xExtent st) (yExtent st) (xAxis st) (yAxis st) (zoom st)
    (mkDom (xAxisLayer (dom st)) (yAxisLayer (dom st))
           (p :: tail (linesLayer (dom st))) (svgZoom (dom st)))).

Definition render (st : State) : option State :=
  st1 ← renderAxis st; renderLine st1.

Definition go (st : State) : option State :=
  st1 ← compute st; render st1.

(** [ngOnInit]'s subscription: [this.series = resp; this.go()]. *)
Definition set_series (resp : list Serie) (st : State) : State :=
  mkState (width st) (height st) (padding st) resp
    (xScale st) (yScale st) (xExtent st) (yExtent st) (xAxis st) (yAxis st)
    (zoom st) (dom st).

Definition ngOnInit (resp : list Serie) (st : State) : option State :=
  go (set_series resp st).

Definition set_yScale_range (st : State) (r : Q * Q) : option State :=
  ys ← yScale st;
  Some (mkState (width st) (height st) (padding st) (series st)
    (xScale st) (Some (d3.set_range ys r)) (xExtent st) (yExtent st)
    (xAxis st) (yAxis st) (zoom st) (dom st)).

(** The zoom event handler. *)
Definition zoomed (transform : d3.Transform) (st : State) : option State :=
  st1 ← set_yScale_range st
          (d3.applyY transform (canvasHeight st), d3.applyY transform 0);
  st2 ← computeAxis st1;
  render st2.

(** [yScale(v)] for the price scale: a continuous scale from a domain of
    two numbers onto its range, not clamped and not made nice.  With
    [t = (v - d0) / (d1 - d0)] the value is [r0 * (1 - t) + r1 * t]; a
    domain of one number sends every value to the middle of the range.
    [None] stands for every result that is not a finite number, as NaN
    and an undefined end of the domain give. *)
Definition price_scale (s : d3.Scale number) (v : number) : option Q :=
  match d3.domain s with
  | (Some a, Some b) =>
      d0 ← finite a;
      d1 ← finite b;
      x ← finite v;
      let (r0, r1) := d3.range s in
      let t := if Qeq_bool d0 d1 then 1 # 2 else (x - d0) / (d1 - d0) in
      Some (r0 * (1 - t) + r1 * t)
  | _ => None
  end.

(** The y coordinates of the vertices of a path: the accessor
    [d => this.yScale(d.price)] of [renderLine] on each point. *)
Definition line_y (p : Path) : list (option Q) :=
  map (fun d => price_scale (d_y p) (price d)) (d_points p).

End TimeChart.

(** ** The Gantt chart component *)

Module Gantt.

(** A reference to a record object in the JavaScript heap. *)
Definition loc := nat.

(** The [key] of a record: absent, a string written by the caller, or an
    identifier drawn by [uuidv4()].  uuid's contract is uniqueness: the
    n-th identifier drawn differs from every other one drawn and from
    every string a caller writes. *)
Inductive Key := KUndefined | KString (s : string) | KUuid (n : nat).

(** A [start] or [end] field: [null] (the synthetic root) or a Date. *)
Inductive DateField := DNull | DDate (d : Date).

(** [new Date(v)]: a Date with the time value of [v]; [new Date(null)]
    is the epoch. *)
Definition newDate (v : DateField) : DateField :=
  match v with
  | DNull => DDate (mkDate (Fin 0))
  | DDate d => DDate d
  end.

(** A [data] or [_data] field: absent, [null], or an array of records. *)
Inductive Slot := Undefined | Null | Array (xs : list loc).

(** The test of [if (node.data.data)]: every array, the empty one too,
    is truthy. *)
Definition truthy (s : Slot) : bool :=
  match s with Array _ => true | _ => false end.

Definition elements (s : Slot) : list loc :=
  match s with Array xs => xs | _ => [] end.

Module SerieGantt.
Record t := mk {
  name : string;
  start : DateField;
  end_ : DateField;
  key : Key;
  data : Slot;
  _data : Slot
}.
End SerieGantt.

(** A node of [d3.hierarchy]: [parent] is the record of the parent node,
    [children] is empty where d3 leaves the field undefined. *)
Module SerieGanttNode.
Inductive t := mk (depth height : nat) (data : loc) (parent : option loc) (children : list t).
Definition depth (n : t) : nat := let (d, _, _, _, _) := n in d.
Definition height (n : t) : nat := let (_, h, _, _, _) := n in h.
Definition data (n : t) : loc := let (_, _, l, _, _) := n in l.
Definition parent (n : t) : option loc := let (_, _, _, p, _) := n in p.
Definition children (n : t) : list t := let (_, _, _, _, c) := n in c.
End SerieGanttNode.

Abbreviation Node := SerieGanttNode.t.
Abbreviation Heap := (list SerieGantt.t).

(** The mutable world of the component: the heap of records and the
    number of identifiers [uuidv4()] has drawn so far. *)
Record Store := mkStore { heap : Heap; uuid : nat }.

Record Padding := mkPadding { top : Q; right : Q; bottom : Q; left : Q }.

(** The band scale of the rows: its domain of keys and its range. *)
Record Band := mkBand { band_domain : list Key; band_range : Q * Q }.

(** A bar: the identity of the element, the node bound to it
    ([__data__]), the attributes set when it is created, and the
    position and size it is sent to. *)
Record Geometry := mkGeometry {
  of_start : DateField;
  of_end : DateField;
  of_key : Key;
  on_x : option (d3.Scale DateField);
  on_y : option Band
}.

Record Rect := mkRect {
  eid : nat;
  datum : Node;
  class : string;
  fill : Key;
  on_click : bool;
  geometry : Geometry
}.

Record Dom := mkDom {
  xAxisLayer : option (d3.Axis (d3.Scale DateField));
  yAxisLayer : option (d3.Axis Band);
  ganttLayer : list Rect;
  created : nat
}.

Record State := mkState {
  store : Store;
  rootKEY : Key;
  serieSource : option loc;
  width : Q;
  height : Q;
  padding : Padding;
  seriesNodes : list Node;
  seriesNodeMap : list (Key * Node);
  xScale : option (d3.Scale DateField);
  yScale : option Band;
  xExtent : option (option DateField * option DateField);
  xAxis : option (d3.Axis (d3.Scale DateField));
  yAxis : option (d3.Axis Band);
  color : option Band;
  dom : Dom
}.

(** *** Reading and writing records *)

#[global] Instance Key_eq_dec : EqDecision Key.
Proof. solve_decision. Defined.

#[global] Instance Key_countable : Countable Key.
Proof.
  refine (inj_countable'
    (fun k => match k with
              | KUndefined => inl tt
              | KString s => inr (inl s)
              | KUuid n => inr (inr n)
              end)
    (fun c => match c with
              | inl _ => KUndefined
              | inr (inl s) => KString s
              | inr (inr n) => KUuid n
              end) _).
  intros []; reflexivity.
Defined.

#[global] Instance DateField_Value : Value DateField :=
  {| nullish := fun f => match f with DNull => true | DDate _ => false end;
     valueOf := fun f => match f with DNull => Fin 0 | DDate d => getTime d end |}.

(** The record a reference points to.  A reference always points to an
    object; outside the heap the empty object stands in. *)
Definition empty_record : SerieGantt.t :=
  SerieGantt.mk "" DNull DNull KUndefined Undefined Undefined.

Definition deref (h : Heap) (l : loc) : SerieGantt.t :=
  default empty_record (h !! l).

Definition set_key (k : Key) (r : SerieGantt.t) : SerieGantt.t :=
  SerieGantt.mk (SerieGantt.name r) (SerieGantt.start r) (SerieGantt.end_ r) k
                (SerieGantt.data r) (SerieGantt._data r).

Definition set_start (v : DateField) (r : SerieGantt.t) : SerieGantt.t :=
  SerieGantt.mk (SerieGantt.name r) v (SerieGantt.end_ r) (SerieGantt.key r)
                (SerieGantt.data r) (SerieGantt._data r).

Definition set_end (v : DateField) (r : SerieGantt.t) : SerieGantt.t :=
  SerieGantt.mk (SerieGantt.name r) (SerieGantt.start r) v (SerieGantt.key r)
                (SerieGantt.data r) (SerieGantt._data r).

Definition set_data (s : Slot) (r : SerieGantt.t) : SerieGantt.t :=
  SerieGantt.mk (SerieGantt.name r) (SerieGantt.start r) (SerieGantt.end_ r)
                (SerieGantt.key r) s (SerieGantt._data r).

Definition set__data (s : Slot) (r : SerieGantt.t) : SerieGantt.t :=
  SerieGantt.mk (SerieGantt.name r) (SerieGantt.start r) (SerieGantt.end_ r)
                (SerieGantt.key r) (SerieGantt.data r) s.

(** [o.f = v] for the object at [l]. *)
Definition update (l : loc) (f : SerieGantt.t -> SerieGantt.t) (h : Heap) : Heap :=
  match h !! l with
  | Some r => <[l := f r]> h
  | None => h
  end.

(** *** d3-hierarchy *)

(** [node.height]: 0 for a leaf, else one more than the greatest height
    of a child. *)
Definition height_over (kids : list Node) : nat :=
  match kids with
  | [] => 0%nat
  | _ => S (foldr Nat.max 0%nat (map SerieGanttNode.height kids))
  end.

(** [d3.hierarchy(series, serie => serie.data)] from the record at [l]:
    one node per record met, children in the order of the array, depth
    one more than the parent's.  [fuel] bounds the nesting the traversal
    follows; it runs out only on data deeper than that, and cyclic data
    (on which d3 never returns) exhausts every fuel. *)
Fixpoint hierarchy_from (fuel : nat) (h : Heap) (parent : option loc) (depth : nat)
    (l : loc) : option Node :=
  match fuel with
  | O => None
  | S fuel' =>
      r ← h !! l;
      kids ← mapM (hierarchy_from fuel' h (Some l) (S depth)) (elements (SerieGantt.data r));
      Some (SerieGanttNode.mk depth (height_over kids) l parent kids)
  end.

Definition hierarchy (fuel : nat) (h : Heap) (series : loc) : option Node :=
  hierarchy_from fuel h None 0%nat series.

(** [node.eachBefore(callback)] with the callback of [preProcess], which
    appends the node to [_seriesNodes]: the nodes in pre-order. *)
Fixpoint eachBefore (node : Node) : list Node :=
  node :: flat_map eachBefore (SerieGanttNode.children node).

(** *** Flattening *)

(** [uuidv4()]. *)
Definition uuidv4 (s : Store) : Key * Store :=
  (KUuid (uuid s), mkStore (heap s) (S (uuid s))).

Definition key_of (h : Heap) (node : Node) : Key :=
  SerieGantt.key (deref h (SerieGanttNode.data node)).

(** The callback of [.map] in [preProcess]. *)
Definition assign (s : Store) (node : Node) : Store :=
  let (k, s1) := uuidv4 s in
  let l := SerieGanttNode.data node in
  let h1 := update l (set_key k) (heap s1) in
  let h2 := update l (fun r => set_start (newDate (SerieGantt.start r)) r) h1 in
  let h3 := update l (fun r => set_end (newDate (SerieGantt.end_ r)) r) h2 in
  mkStore h3 (uuid s1).

Definition preProcess_store (fuel : nat) (rootKEY : Key) (s : Store) (series : loc)
  : option (list Node * Store) :=
  root ← hierarchy fuel (heap s) series;
  let _seriesNodes := eachBefore root in
  let kept := List.filter (fun node => negb (bool_decide (key_of (heap s) node = rootKEY)))
                          _seriesNodes in
  Some (kept, fold_left assign kept s).

Definition set_store (s : Store) (st : State) : State :=
  mkState s (rootKEY st) (serieSource st) (width st) (height st) (padding st)
    (seriesNodes st) (seriesNodeMap st) (xScale st) (yScale st) (xExtent st)
    (xAxis st) (yAxis st) (color st) (dom st).

Definition preProcess (fuel : nat) (series : loc) (st : State) : option (list Node * State) :=
  '(nodes, s) ← preProcess_store fuel (rootKEY st) (store st) series;
  Some (nodes, set_store s st).

(** [nodes.reduce((acc, curr) => ({ ...acc, [curr.data.key]: curr }), {})]:
    a later node replaces an earlier one under the same key. *)
Definition put (k : Key) (node : Node) (m : list (Key * Node)) : list (Key * Node) :=
  (k, node) :: List.filter (fun e => negb (bool_decide (fst e = k))) m.

Definition nodeMap (h : Heap) (nodes : list Node) : list (Key * Node) :=
  fold_left (fun acc curr => put (key_of h curr) curr acc) nodes [].

Definition set_nodes (nodes : list Node) (st : State) : State :=
  mkState (store st) (rootKEY st) (serieSource st) (width st) (height st) (padding st)
    nodes (nodeMap (heap (store st)) nodes) (xScale st) (yScale st) (xExtent st)
    (xAxis st) (yAxis st) (color st) (dom st).

(** *** Layout *)

Definition viewBoxWidth (st : State) : Q := width st.

Definition viewBoxHeight (st : State) : Q :=
  inject_Z (Z.of_nat (length (seriesNodes st))) * 40.

Definition canvasWidth (st : State) : Q :=
  viewBoxWidth st - (left (padding st) + right (padding st)).

Definition canvasHeight (st : State) : Q :=
  viewBoxHeight st - (top (padding st) + bottom (padding st)).

Definition start_of (h : Heap) (node : Node) : DateField :=
  SerieGantt.start (deref h (SerieGanttNode.data node)).

Definition end_of (h : Heap) (node : Node) : DateField :=
  SerieGantt.end_ (deref h (SerieGanttNode.data node)).

Definition name_of (h : Heap) (node : Node) : string :=
  SerieGantt.name (deref h (SerieGanttNode.data node)).

Definition set_layout (xe : option (option DateField * option DateField))
    (xs : option (d3.Scale DateField)) (ys : option Band)
    (xa : option (d3.Axis (d3.Scale DateField))) (ya : option (d3.Axis Band))
    (c : option Band) (st : State) : State :=
  mkState (store st) (rootKEY st) (serieSource st) (width st) (height st) (padding st)
    (seriesNodes st) (seriesNodeMap st) xs ys xe xa ya c (dom st).

Definition computeExtent (st : State) : State :=
  let h := heap (store st) in
  set_layout
    (Some (d3_array.min (map (start_of h) (seriesNodes st)),
           d3_array.max (map (end_of h) (seriesNodes st))))
    (xScale st) (yScale st) (xAxis st) (yAxis st) (color st) st.

(** The domain of a band scale keeps the first occurrence of each key. *)
Fixpoint distinct (seen : list Key) (keys : list Key) : list Key :=
  match keys with
  | [] => []
  | k :: rest =>
      if bool_decide (k ∈ seen) then distinct seen rest
      else k :: distinct (k :: seen) rest
  end.

Definition scaleBand (keys : list Key) (r : Q * Q) : Band := mkBand (distinct [] keys) r.

Definition computeScale (st : State) : option State :=
  xe ← xExtent st;
  let h := heap (store st) in
  Some (set_layout (xExtent st)
    (Some (d3.mkScale xe (0, canvasWidth st) false))
    (Some (scaleBand (map (key_of h) (seriesNodes st)) (0, canvasHeight st)))
    (xAxis st) (yAxis st) (color st) st).

Definition computeAxis (st : State) : option State :=
  xs ← xScale st;
  ys ← yScale st;
  Some (set_layout (xExtent st) (xScale st) (yScale st)
    (Some (d3.tickSize (- canvasHeight st) (d3.set_tickSizeOuter 0 (d3.axisTop xs))))
    (Some (d3.set_tickFormat (d3.tickSize (- canvasWidth st) (d3.axisLeft ys))))
    (color st) st).

Definition computeColor (st : State) : State :=
  let h := heap (store st) in
  set_layout (xExtent st) (xScale st) (yScale st) (xAxis st) (yAxis st)
    (Some (scaleBand (map (key_of h) (seriesNodes st)) (0, 1))) st.

Definition compute (st : State) : option State :=
  st1 ← computeScale (computeExtent st);
  st2 ← computeAxis st1;
  Some (computeColor st2).

(** *** d3-selection: the keyed data join and the bars *)

(** [selection.data(data, key)], the first loop of d3's [bindKey]: the
    key of each element of the group is computed from its bound datum;
    the first element under a key goes into [nodeByKeyValue], a later one
    under the same key into [exit]. *)
Fixpoint bind_group (key : Node -> Key) (nodeByKeyValue : gmap Key Rect)
    (group : list Rect) : gmap Key Rect * list (option Rect) :=
  match group with
  | [] => (nodeByKeyValue, [])
  | node :: rest =>
      let keyValue := key (datum node) in
      match nodeByKeyValue !! keyValue with
      | Some _ =>
          let (m, exit) := bind_group key nodeByKeyValue rest in (m, Some node :: exit)
      | None =>
          let (m, exit) := bind_group key (<[keyValue := node]> nodeByKeyValue) rest in
          (m, None :: exit)
      end
  end.

(** [node.__data__ = data[i]]. *)
Definition rebind (node : Rect) (d : Node) : Rect :=
  mkRect (eid node) d (class node) (fill node) (on_click node) (geometry node).

(** The second loop: a datum whose key has an element left in
    [nodeByKeyValue] takes it (update, [inl]) and removes the key; any
    other datum enters ([inr]). *)
Fixpoint bind_data (key : Node -> Key) (nodeByKeyValue : gmap Key Rect)
    (data : list Node) : gmap Key Rect * list (Rect + Node) :=
  match data with
  | [] => (nodeByKeyValue, [])
  | d :: rest =>
      match nodeByKeyValue !! key d with
      | Some node =>
          let (m, slots) := bind_data key (delete (key d) nodeByKeyValue) rest in
          (m, inl (rebind node d) :: slots)
      | None =>
          let (m, slots) := bind_data key nodeByKeyValue rest in
          (m, inr d :: slots)
      end
  end.

(** The third loop: an element still in [nodeByKeyValue] exits. *)
Definition bind_exit (key : Node -> Key) (nodeByKeyValue : gmap Key Rect)
    (group : list Rect) (exit : list (option Rect)) : list (option Rect) :=
  zip_with (fun node e =>
    match e with
    | Some _ => e
    | None =>
        match nodeByKeyValue !! key (datum node) with
        | Some node' => if bool_decide (eid node' = eid node) then Some node else None
        | None => None
        end
    end) group exit.

(** The children of the layer: attributes of an element change in place,
    a new element is inserted before [next] or appended, an element is
    removed. *)
Definition replace (r : Rect) (children : list Rect) : list Rect :=
  map (fun c => if bool_decide (eid c = eid r) then r else c) children.

Fixpoint insertBefore (child : Rect) (next : option nat) (children : list Rect) : list Rect :=
  match children with
  | [] => [child]
  | c :: rest =>
      if bool_decide (next = Some (eid c)) then child :: c :: rest
      else c :: insertBefore child next rest
  end.

Definition remove (r : Rect) (children : list Rect) : list Rect :=
  List.filter (fun c => negb (bool_decide (eid c = eid r))) children.

(** The four positional attribute functions of [renderGantt]. *)
Definition target (st : State) (node : Node) : Geometry :=
  let h := heap (store st) in
  mkGeometry (start_of h node) (end_of h node) (key_of h node) (xScale st) (yScale st).

Definition toTarget (st : State) (r : Rect) : Rect :=
  mkRect (eid r) (datum r) (class r) (fill r) (on_click r) (target st (datum r)).

(** UPDATE: the element of every update slot is sent to its target. *)
Definition update_all (st : State) (slots : list (Rect + Node)) (children : list Rect)
  : list Rect :=
  fold_left (fun c s => match s with inl r => replace (toTarget st r) c | inr _ => c end)
            slots children.

(** The update element that follows a slot, before which an entering
    element is inserted. *)
Fixpoint next_update (slots : list (Rect + Node)) : option nat :=
  match slots with
  | [] => None
  | inl r :: _ => Some (eid r)
  | inr _ :: rest => next_update rest
  end.

(** ENTER: [append('rect')] with class, fill, click handler and target. *)
Definition new_rect (st : State) (id : nat) (d : Node) : Rect :=
  let h := heap (store st) in
  toTarget st (mkRect id d (name_of h d) (key_of h d) true
                 (mkGeometry DNull DNull KUndefined None None)).

Fixpoint enter_all (st : State) (slots : list (Rect + Node)) (id : nat)
    (children : list Rect) : list Rect * nat :=
  match slots with
  | [] => (children, id)
  | inl _ :: rest => enter_all st rest id children
  | inr d :: rest =>
      enter_all st rest (S id) (insertBefore (new_rect st id d) (next_update rest) children)
  end.

(** EXIT: [remove()]. *)
Definition exit_all (exit : list (option Rect)) (children : list Rect) : list Rect :=
  fold_left (fun c e => match e with Some r => remove r c | None => c end) exit children.

Definition set_dom (d : Dom) (st : State) : State :=
  mkState (store st) (rootKEY st) (serieSource st) (width st) (height st) (padding st)
    (seriesNodes st) (seriesNodeMap st) (xScale st) (yScale st) (xExtent st)
    (xAxis st) (yAxis st) (color st) d.

Definition renderGantt (st : State) : State :=
  let key := key_of (heap (store st)) in
  let group := ganttLayer (dom st) in
  let (m1, exit1) := bind_group key ∅ group in
  let (m2, slots) := bind_data key m1 (seriesNodes st) in
  let exit := bind_exit key m2 group exit1 in
  let c1 := update_all st slots group in
  let (c2, n) := enter_all st slots (created (dom st)) c1 in
  let c3 := exit_all exit c2 in
  set_dom (mkDom (xAxisLayer (dom st)) (yAxisLayer (dom st)) c3 n) st.

Definition renderAxis (st : State) : option State :=
  xa ← xAxis st;
  ya ← yAxis st;
  Some (set_dom (mkDom (Some xa) (Some ya) (ganttLayer (dom st)) (created (dom st))) st).

Definition render (st : State) : option State :=
  st1 ← renderAxis st; Some (renderGantt st1).

Definition go (st : State) : option State :=
  st1 ← compute st; render st1.

(** *** Collapse and expand *)

(** The two branches of [click]: the assignments to [node.data._data]
    and [node.data.data]. *)
Definition toggle (r : SerieGantt.t) : SerieGantt.t :=
  if truthy (SerieGantt.data r)
  then set_data Null (set__data (SerieGantt.data r) r)
  else set__data Null (set_data (SerieGantt._data r) r).

Definition click_store (node : Node) (s : Store) : Store :=
  mkStore (update (SerieGanttNode.data node) toggle (heap s)) (uuid s).

Definition click (fuel : nat) (node : Node) (st : State) : option State :=
  let st1 := set_store (click_store node (store st)) st in
  series ← serieSource st1;
  '(nodes, st2) ← preProcess fuel series st1;
  go (set_nodes nodes st2).

(** *** The series input *)

(** Modelled from the spec: [clone], imported from ./clone, whose file is
    not among the sources.  It is the deep copy its name and use say: every
    record reached from the argument through [data] and [_data] is copied
    into a newly allocated object, field by field, and the copies refer
    to copies.  [fuel] bounds the nesting followed, as in
    [hierarchy_from]. *)
Definition clone_array (f : Heap -> loc -> option (Heap * loc))
  : Heap -> list loc -> option (Heap * list loc) :=
  fix go h ls {struct ls} :=
    match ls with
    | [] => Some (h, [])
    | l :: rest =>
        '(h1, l') ← f h l;
        '(h2, rest') ← go h1 rest;
        Some (h2, l' :: rest')
    end.

Definition clone_slot (f : Heap -> loc -> option (Heap * loc)) (h : Heap) (s : Slot)
  : option (Heap * Slot) :=
  match s with
  | Undefined => Some (h, Undefined)
  | Null => Some (h, Null)
  | Array xs => '(h1, xs') ← clone_array f h xs; Some (h1, Array xs')
  end.

Fixpoint clone_record (fuel : nat) (h : Heap) (l : loc) : option (Heap * loc) :=
  match fuel with
  | O => None
  | S fuel' =>
      r ← h !! l;
      '(h1, d) ← clone_slot (clone_record fuel') h (SerieGantt.data r);
      '(h2, d') ← clone_slot (clone_record fuel') h1 (SerieGantt._data r);
      Some (h2 ++ [set_data d (set__data d' r)], length h2)
  end.

Definition clone (fuel : nat) (h : Heap) (series : list loc) : option (Heap * list loc) :=
  clone_array (clone_record fuel) h series.

Definition set_source (root : loc) (st : State) : State :=
  mkState (store st) (rootKEY st) (Some root) (width st) (height st) (padding st)
    (seriesNodes st) (seriesNodeMap st) (xScale st) (yScale st) (xExtent st)
    (xAxis st) (yAxis st) (color st) (dom st).

(** The setter of the [series] input. *)
Definition set_series (fuel : nat) (series : list loc) (st : State) : option State :=
  '(h1, copies) ← clone fuel (heap (store st)) series;
  let root := length h1 in
  let source := SerieGantt.mk "root" DNull DNull (rootKEY st) (Array copies) Undefined in
  let st1 := set_source root (set_store (mkStore (h1 ++ [source]) (uuid (store st))) st) in
  '(nodes, st2) ← preProcess fuel root st1;
  Some (set_nodes nodes st2).

(** The component as constructed in a world [s]: [rootKEY] is drawn,
    the defaults are 800 x 600 and padding 15/15/15/55, the layers are
    empty. *)
Definition init (s : Store) : State :=
  let (k, s1) := uuidv4 s in
  mkState s1 k None 800 600 (mkPadding 15 15 15 55) [] [] None None None None None None
          (mkDom None None [] 0).

Definition ngAfterViewInit (st : State) : option State := go st.

(** *** d3-scale: what the scales of the chart return *)

(** [xScale(v)] for the time scale of the chart: a continuous scale from
    a domain of two times onto its range, not clamped and not made nice.
    With [t = (v - d0) / (d1 - d0)] the value is [r0 * (1 - t) + r1 * t];
    a domain of one instant sends every value to the middle of the range.
    [None] stands for every result that is not a finite number, as
    [null], an Invalid Date and an undefined end of the domain give. *)
Definition time_scale (s : d3.Scale DateField) (v : DateField) : option Q :=
  if nullish v then None else
  match d3.domain s with
  | (Some a, Some b) =>
      d0 ← finite (valueOf a);
      d1 ← finite (valueOf b);
      x ← finite (valueOf v);
      let (r0, r1) := d3.range s in
      let t := if Qeq_bool d0 d1 then 1 # 2 else (x - d0) / (d1 - d0) in
      Some (r0 * (1 - t) + r1 * t)
  | _ => None
  end.

(** [scaleBand] with no padding and the default alignment: the step is
    the length of the range over the number of keys (over 1 when there
    is none), the bandwidth is the step, and the key at index [i] is
    sent to [start + step * i], counted from the other end when the
    range is reversed.  A key outside the domain goes to [undefined]. *)
Definition step (b : Band) : Q :=
  let (r0, r1) := band_range b in
  (Qmax r0 r1 - Qmin r0 r1) / inject_Z (Z.max 1 (Z.of_nat (length (band_domain b)))).

Definition bandwidth (b : Band) : Q := step b.

Fixpoint index_of (d : Key) (keys : list Key) : option nat :=
  match keys with
  | [] => None
  | k :: rest => if bool_decide (k = d) then Some 0%nat else S <$> index_of d rest
  end.

Definition band_scale (b : Band) (d : Key) : option Q :=
  i ← index_of d (band_domain b);
  let (r0, r1) := band_range b in
  let n := length (band_domain b) in
  let start := Qmin r0 r1
               + (Qmax r0 r1 - Qmin r0 r1 - step b * inject_Z (Z.of_nat n)) * (1 # 2) in
  let j := if Qle_bool r0 r1 then i else (n - 1 - i)%nat in
  Some (start + step b * inject_Z (Z.of_nat j)).

(** The four positional attribute functions of [renderGantt], on the
    target of a node:
      height: yScale.bandwidth() * 0.7
      width:  xScale(node.data.end) - xScale(node.data.start)
      x:      xScale(node.data.start)
      y:      yScale(node.data.key) + yScale.bandwidth() * 0.15 *)
Definition targetHeight (g : Geometry) : option Q :=
  ys ← on_y g; Some (bandwidth ys * (7 # 10)).

Definition targetWidth (g : Geometry) : option Q :=
  xs ← on_x g;
  e ← time_scale xs (of_end g);
  s ← time_scale xs (of_start g);
  Some (e - s).

Definition toTargetX (g : Geometry) : option Q :=
  xs ← on_x g; time_scale xs (of_start g).

Definition toTargetY (g : Geometry) : option Q :=
  ys ← on_y g;
  y ← band_scale ys (of_key g);
  Some (y + bandwidth ys * (15 # 100)).

(** *** Reading the node map, and the inputs *)

(** [this.seriesNodeMap[d]]: the node stored under the key [d], or
    undefined (None). *)
Definition node_at (d : Key) (m : list (Key * Node)) : option Node :=
  snd <$> List.find (fun e => bool_decide (fst e = d)) m.

(** The tick format of the y axis,
    [d => this.seriesNodeMap[d].data.name]: reading [.data] of undefined
    throws (None). *)
Definition tickFormat (st : State) (d : Key) : option string :=
  node ← node_at d (seriesNodeMap st);
  Some (name_of (heap (store st)) node).

(** The [height] input, written by the parent component. *)
Definition set_height (v : Q) (st : State) : State :=
  mkState (store st) (rootKEY st) (serieSource st) (width st) v (padding st)
    (seriesNodes st) (seriesNodeMap st) (xScale st) (yScale st) (xExtent st)
    (xAxis st) (yAxis st) (color st) (dom st).

End Gantt.

(** * Properties *)

(** ** Vocabulary *)

Module Spec.

(** A value the scans of d3-array take into account: neither null nor
    undefined, and not NaN (an Invalid Date coerces to NaN). *)
Definition comparable {A} `{Value A} (v : A) : bool :=
  negb (nullish v) && negb (isNaN (valueOf v)).

(** [m] is least (greatest) among the comparable values of [xs]. *)
Definition least {A} `{Value A} (m : A) (xs : list A) : Prop :=
  In m xs /\ comparable m = true /\
  forall v, In v xs -> comparable v = true -> le (valueOf m) (valueOf v) = true.

Definition greatest {A} `{Value A} (m : A) (xs : list A) : Prop :=
  In m xs /\ comparable m = true /\
  forall v, In v xs -> comparable v = true -> le (valueOf v) (valueOf m) = true.

(** [m] is the true minimum (maximum) of [xs]: a member below (above)
    every member. *)
Definition minimum {A} `{Value A} (m : A) (xs : list A) : Prop :=
  In m xs /\ forall v, In v xs -> le (valueOf m) (valueOf v) = true.

Definition maximum {A} `{Value A} (m : A) (xs : list A) : Prop :=
  In m xs /\ forall v, In v xs -> le (valueOf v) (valueOf m) = true.

(** What a scan has found after reading [seen]. *)
Definition min_found {A} `{Value A} (seen : list A) (acc : option A) : Prop :=
  match acc with
  | None => forall v, In v seen -> comparable v = false
  | Some m => least m seen
  end.

Definition max_found {A} `{Value A} (seen : list A) (acc : option A) : Prop :=
  match acc with
  | None => forall v, In v seen -> comparable v = false
  | Some m => greatest m seen
  end.

(** *** Sample data *)

(** The three points of the spec's time chart scenario: 2020-01-01,
    2020-06-01 and 2021-01-01 (UTC, in milliseconds), priced 100, 200
    and 150. *)
Definition day (ms : Z) : Date := mkDate (Fin (inject_Z ms)).

Definition three_points : list TimeChart.Serie :=
  [ TimeChart.mkSerie (day 1577836800000) (Fin 100);
    TimeChart.mkSerie (day 1590969600000) (Fin 200);
    TimeChart.mkSerie (day 1609459200000) (Fin 150) ].

(** A row whose date did not parse and whose price is not a number. *)
Definition unparsed_points : list TimeChart.Serie :=
  [ TimeChart.mkSerie (mkDate NaN) NaN ].

(** The records of the spec's Gantt scenario as a caller holds them: B
    (2 to 3 January) at reference 0, A (1 to 5 January) at reference 1
    with B as its one child. *)
Definition january (n : Z) : Gantt.DateField :=
  Gantt.DDate (day (1577836800000 + (n - 1) * 86400000)).

Definition record_B : Gantt.SerieGantt.t :=
  Gantt.SerieGantt.mk "B" (january 2) (january 3) Gantt.KUndefined
    Gantt.Undefined Gantt.Undefined.

Definition record_A : Gantt.SerieGantt.t :=
  Gantt.SerieGantt.mk "A" (january 1) (january 5) Gantt.KUndefined
    (Gantt.Array [0%nat]) Gantt.Undefined.

Definition caller_world : Gantt.Store := Gantt.mkStore [record_B; record_A] 0.

(** The component after its [series] input was set to [[A]]. *)
Definition two_nodes : option Gantt.State :=
  Gantt.set_series 3 [1%nat] (Gantt.init caller_world).

Definition two_nodes_state : Gantt.State :=
  default (Gantt.init caller_world) two_nodes.

(** The time chart after the three points were loaded and drawn, and
    the Gantt chart after its first render. *)
Definition three_points_chart : TimeChart.State :=
  default TimeChart.init (TimeChart.ngOnInit three_points TimeChart.init).

Definition two_nodes_drawn : Gantt.State :=
  default two_nodes_state (Gantt.ngAfterViewInit two_nodes_state).

(** A record that lists itself among its children. *)
Definition record_loop : Gantt.SerieGantt.t :=
  Gantt.SerieGantt.mk "L" Gantt.DNull Gantt.DNull Gantt.KUndefined
    (Gantt.Array [0%nat]) Gantt.Undefined.

Definition looped_world : Gantt.Store := Gantt.mkStore [record_loop] 0.

(** The plot rectangle of the time chart. *)
Definition plot (st : TimeChart.State) : d3.Extent :=
  ((0, 0), (TimeChart.canvasWidth st, TimeChart.canvasHeight st)).

End Spec.

Module GanttSpec.

Import Gantt Spec.

(** The children a flatten pass follows from the record at [l]. *)
Definition kids (h : Heap) (l : loc) : option (list loc) :=
  (fun r => elements (SerieGantt.data r)) <$> h !! l.

(** A tree of records, and the heap holding it through the [data]
    fields. *)
Inductive Tree := T (l : loc) (children : list Tree).

Definition root_of (t : Tree) : loc := match t with T l _ => l end.

Inductive shape (h : Heap) : Tree -> Prop :=
| shape_T l ts :
    kids h l = Some (map root_of ts) -> Forall (shape h) ts -> shape h (T l ts).

(** The records of a tree in pre-order, each with its distance from the
    root when the root is at distance [d]. *)
Fixpoint preorder (d : nat) (t : Tree) : list (loc * nat) :=
  match t with
  | T l ts => (l, d) :: flat_map (preorder (S d)) ts
  end.

(** The number of levels of a tree: the nesting a traversal follows. *)
Fixpoint levels (t : Tree) : nat :=
  match t with
  | T _ ts => S (foldr Nat.max 0%nat (map levels ts))
  end.

(** The hierarchy d3 builds over a tree. *)
Fixpoint node_of (parent : option loc) (d : nat) (t : Tree) : Node :=
  match t with
  | T l ts =>
      let ks := map (node_of (Some l) (S d)) ts in
      SerieGanttNode.mk d (height_over ks) l parent ks
  end.

(** A chain of [k] child links from one record down to another. *)
Inductive path (h : Heap) : nat -> loc -> loc -> Prop :=
| path_here l : path h 0 l l
| path_down k l cs c l' :
    kids h l = Some cs -> In c cs -> path h k c l' -> path h (S k) l l'.

(** The records of a tree, in pre-order. *)
Definition records (t : Tree) : list loc := map fst (preorder 0 t).

(** The record after the three assignments of the callback of
    [preProcess]. *)
Definition stamp (k : Key) (r : SerieGantt.t) : SerieGantt.t :=
  SerieGantt.mk (SerieGantt.name r) (newDate (SerieGantt.start r))
    (newDate (SerieGantt.end_ r)) k (SerieGantt.data r) (SerieGantt._data r).

(** The identifier [k] was drawn by [uuidv4()] before the store reached
    [s]. *)
Definition drawn (k : Key) (s : Store) : Prop :=
  exists r, k = KUuid r /\ (r < uuid s)%nat.

(** A state whose node list is the outcome of a flatten pass over its
    source and whose records were not written since: the state in which
    every click finds the component. *)
Definition flattened (fuel : nat) (st : State) : Prop :=
  exists s series,
    serieSource st = Some series /\
    drawn (rootKEY st) s /\
    preProcess_store fuel (rootKEY st) s series = Some (seriesNodes st, store st).

(** A second pass over the two-node chart. *)
Definition second_pass : list Node * State :=
  default ([], two_nodes_state) (preProcess 3 4%nat two_nodes_state).

(** *** The join *)

(** The first element of a group bound to a datum of key [k]. *)
Definition first_with (key : Node -> Key) (k : Key) (group : list Rect) : option Rect :=
  List.find (fun r => bool_decide (key (datum r) = k)) group.

(** The element [r] is the one registered under its key. *)
Definition owner (key : Node -> Key) (m : gmap Key Rect) (r : Rect) : bool :=
  match m !! key (datum r) with
  | Some r0 => bool_decide (eid r0 = eid r)
  | None => false
  end.

(** The elements of the update slots, and the datum of each slot. *)
Fixpoint updates (slots : list (Rect + Node)) : list Rect :=
  match slots with
  | [] => []
  | inl r :: rest => r :: updates rest
  | inr _ :: rest => updates rest
  end.

Definition slot_datum (s : Rect + Node) : Node :=
  match s with inl r => datum r | inr d => d end.

(** The bar each slot stands for after a render: the element of an
    update slot at its target, a new element for an enter slot. *)
Fixpoint bars (st : State) (slots : list (Rect + Node)) (id : nat) : list Rect :=
  match slots with
  | [] => []
  | inl r :: rest => toTarget st r :: bars st rest id
  | inr d :: rest => new_rect st id d :: bars st rest (S id)
  end.

(** The new elements alone. *)
Fixpoint entered (st : State) (slots : list (Rect + Node)) (id : nat) : list Rect :=
  match slots with
  | [] => []
  | inl _ :: rest => entered st rest id
  | inr d :: rest => new_rect st id d :: entered st rest (S id)
  end.

(** The slots of the join a render performs. *)
Definition joined (st : State) : list (Rect + Node) :=
  let key := key_of (heap (store st)) in
  snd (bind_data key (fst (bind_group key ∅ (ganttLayer (dom st)))) (seriesNodes st)).

(** The elements of the exit selection. *)
Fixpoint exits (exit : list (option Rect)) : list Rect :=
  match exit with
  | [] => []
  | Some r :: rest => r :: exits rest
  | None :: rest => exits rest
  end.

(** The two-node chart when A was clicked and the records were
    re-flattened, before the bars are rendered again: the layer still
    holds the bars of A and B, the node list holds A alone. *)
Definition collapsed_unrendered : State :=
  match head (seriesNodes two_nodes_drawn) with
  | Some a =>
      let st1 := set_store (click_store a (store two_nodes_drawn)) two_nodes_drawn in
      match preProcess 3 4%nat st1 with
      | Some (nodes, st2) => set_nodes nodes st2
      | None => two_nodes_drawn
      end
  | None => two_nodes_drawn
  end.

(** The tree with everything below the record [l] cut off: what is
    left to see when [l] is collapsed. *)
Fixpoint prune (l : loc) (t : Tree) : Tree :=
  match t with
  | T x ts => if decide (x = l) then T x [] else T x (map (prune l) ts)
  end.

(** The record whose bar an element is. *)
Definition record_of (r : Rect) : loc := SerieGanttNode.data (datum r).

(** A state as a render leaves it: flattened, no record listed twice,
    the elements of the layer distinct and created earlier, one of them
    bound to each node of the list. *)
Definition rendered (fuel : nat) (st : State) : Prop :=
  flattened fuel st /\
  List.NoDup (map SerieGanttNode.data (seriesNodes st)) /\
  List.NoDup (map eid (ganttLayer (dom st))) /\
  (forall r, In r (ganttLayer (dom st)) -> (eid r < created (dom st))%nat) /\
  Permutation (map datum (ganttLayer (dom st))) (seriesNodes st).

(** The node of A in the two-node chart, and the chart after a click
    on it. *)
Definition node_A : Node :=
  default (SerieGanttNode.mk 0%nat 0%nat 0%nat None []) (head (seriesNodes two_nodes_drawn)).

Definition two_nodes_collapsed : State :=
  default two_nodes_drawn (click 3 node_A two_nodes_drawn).

(** The records the record at [l] owns: those a chain of links reaches
    from it, through the visible or the hidden child slot. *)
Inductive owns (h : Heap) : loc -> loc -> Prop :=
| owns_self l : owns h l l
| owns_child l r c l' :
    h !! l = Some r ->
    In c (elements (SerieGantt.data r) ++ elements (SerieGantt._data r)) ->
    owns h c l' -> owns h l l'.

(** The tree with the trees [ts'] hung below the record [l]: what
    there is to see when [l] is expanded. *)
Fixpoint graft (l : loc) (ts' : list Tree) (t : Tree) : Tree :=
  match t with
  | T x ts => if decide (x = l) then T x ts' else T x (map (graft l ts') ts)
  end.

(** What a flattened node shows of its record. *)
Definition located (n : Node) : loc * nat :=
  (SerieGanttNode.data n, SerieGanttNode.depth n).

End GanttSpec.

(* vocabulary ends *)

(** ** Order of JavaScript numbers *)

Section number_order.

Lemma lt_Fin (p q : Q) : lt (Fin p) (Fin q) = true <-> p < q.
Proof.
  simpl. rewrite negb_true_iff. split.
  - intros H. apply Qnot_le_lt. intros Hle. apply Qle_bool_iff in Hle. congruence.
  - intros H. apply not_true_iff_false. intros Hle. apply Qle_bool_iff in Hle.
    exact (Qlt_not_le _ _ H Hle).
Qed.

Lemma le_Fin (p q : Q) : le (Fin p) (Fin q) = true <-> p <= q.
Proof.
  unfold le, ge. simpl. rewrite negb_involutive. apply Qle_bool_iff.
Qed.

Lemma lt_irrefl (a : number) : lt a a = false.
Proof.
  destruct a as [| |q|]; try reflexivity.
  apply not_true_iff_false. rewrite lt_Fin. apply Qlt_irrefl.
Qed.

Lemma ge_refl_iff (a : number) : ge a a = true <-> isNaN a = false.
Proof.
  destruct a as [| |q|]; simpl; split; try reflexivity; try discriminate.
  intros _. apply (proj2 (le_Fin q q)), Qle_refl.
Qed.

Lemma le_total (a b : number) :
  isNaN a = false -> isNaN b = false -> lt b a = false -> le a b = true.
Proof.
  unfold le, ge. destruct a, b; simpl; try discriminate; try reflexivity;
    intros _ _ ->; reflexivity.
Qed.

Lemma lt_le_trans (a b c : number) :
  lt a b = true -> le b c = true -> le a c = true.
Proof.
  destruct a as [| |p|], b as [| |q|], c as [| |r|];
    try discriminate; try reflexivity.
  rewrite lt_Fin, !le_Fin. intros H1 H2.
  apply Qlt_le_weak. eapply Qlt_le_trans; eassumption.
Qed.

Lemma le_trans (a b c : number) :
  le a b = true -> le b c = true -> le a c = true.
Proof.
  destruct a as [| |p|], b as [| |q|], c as [| |r|];
    try discriminate; try reflexivity.
  rewrite !le_Fin. apply Qle_trans.
Qed.

Lemma le_refl (a : number) : isNaN a = false -> le a a = true.
Proof. intros H. apply ge_refl_iff, H. Qed.

Lemma le_not_NaN (a b : number) : le a b = true -> isNaN a = false /\ isNaN b = false.
Proof. destruct a, b; try discriminate; split; reflexivity. Qed.

End number_order.

Lemma le_lt_trans (a b c : number) :
  le a b = true -> lt b c = true -> le a c = true.
Proof.
  destruct a as [| |p|], b as [| |q|], c as [| |r|];
    try discriminate; try reflexivity.
  rewrite lt_Fin, !le_Fin. intros H1 H2.
  apply Qlt_le_weak. eapply Qle_lt_trans; eassumption.
Qed.

Lemma lt_not_NaN (a b : number) : lt a b = true -> isNaN a = false /\ isNaN b = false.
Proof. destruct a, b; try discriminate; split; reflexivity. Qed.

(** ** The scans of d3-array *)

Section scans.

Context {A : Type} `{Value A}.

Import Spec.

Lemma comparable_inv (v : A) :
  comparable v = true -> nullish v = false /\ isNaN (valueOf v) = false.
Proof.
  unfold comparable. rewrite andb_true_iff, !negb_true_iff. tauto.
Qed.

Lemma comparable_intro (v : A) :
  nullish v = false -> isNaN (valueOf v) = false -> comparable v = true.
Proof. unfold comparable. intros -> ->. reflexivity. Qed.

Lemma min_step_found (seen : list A) (acc : option A) (v : A) :
  min_found seen acc -> min_found (seen ++ [v]) (d3_array.min_step acc v).
Proof.
  intros Hinv. unfold d3_array.min_step.
  destruct (nullish v) eqn:Hnull; simpl.
  - (* null or undefined: skipped *)
    assert (Hv : comparable v = false) by (unfold comparable; rewrite Hnull; reflexivity).
    destruct acc as [m|]; simpl in *.
    + destruct Hinv as (Hin & Hm & Hle). repeat split; auto.
      * apply in_or_app; auto.
      * intros x Hx Hcx. apply in_app_or in Hx as [Hx|[<-|[]]]; auto. congruence.
    + intros x Hx. apply in_app_or in Hx as [Hx|[<-|[]]]; auto.
  - destruct acc as [m|]; simpl in *.
    + destruct Hinv as (Hin & Hm & Hle).
      apply comparable_inv in Hm as Hm'. destruct Hm' as [_ Hmn].
      unfold gt. destruct (lt (valueOf v) (valueOf m)) eqn:Hlt.
      * (* a new minimum *)
        apply lt_not_NaN in Hlt as Hn. destruct Hn as [Hvn _].
        repeat split.
        -- apply in_or_app; right; left; reflexivity.
        -- apply comparable_intro; assumption.
        -- intros x Hx Hcx. apply in_app_or in Hx as [Hx|[<-|[]]].
           ++ eapply lt_le_trans; eauto.
           ++ apply le_refl; assumption.
      * repeat split; auto.
        -- apply in_or_app; auto.
        -- intros x Hx Hcx. apply in_app_or in Hx as [Hx|[<-|[]]]; auto.
           apply comparable_inv in Hcx as [_ Hvn]. apply le_total; assumption.
    + destruct (ge (valueOf v) (valueOf v)) eqn:Hge; simpl.
      * apply ge_refl_iff in Hge. repeat split.
        -- apply in_or_app; right; left; reflexivity.
        -- apply comparable_intro; assumption.
        -- intros x Hx Hcx. apply in_app_or in Hx as [Hx|[<-|[]]].
           ++ rewrite (Hinv x Hx) in Hcx. discriminate.
           ++ apply le_refl; assumption.
      * intros x Hx. apply in_app_or in Hx as [Hx|[<-|[]]]; auto.
        unfold comparable. destruct (isNaN (valueOf v)) eqn:Hn.
        -- apply andb_false_r.
        -- apply ge_refl_iff in Hn. congruence.
Qed.

Lemma max_step_found (seen : list A) (acc : option A) (v : A) :
  max_found seen acc -> max_found (seen ++ [v]) (d3_array.max_step acc v).
Proof.
  intros Hinv. unfold d3_array.max_step.
  destruct (nullish v) eqn:Hnull; simpl.
  - assert (Hv : comparable v = false) by (unfold comparable; rewrite Hnull; reflexivity).
    destruct acc as [m|]; simpl in *.
    + destruct Hinv as (Hin & Hm & Hle). repeat split; auto.
      * apply in_or_app; auto.
      * intros x Hx Hcx. apply in_app_or in Hx as [Hx|[<-|[]]]; auto. congruence.
    + intros x Hx. apply in_app_or in Hx as [Hx|[<-|[]]]; auto.
  - destruct acc as [m|]; simpl in *.
    + destruct Hinv as (Hin & Hm & Hle).
      apply comparable_inv in Hm as Hm'. destruct Hm' as [_ Hmn].
      destruct (lt (valueOf m) (valueOf v)) eqn:Hlt.
      * (* a new maximum *)
        apply lt_not_NaN in Hlt as Hn. destruct Hn as [_ Hvn].
        repeat split.
        -- apply in_or_app; right; left; reflexivity.
        -- apply comparable_intro; assumption.
        -- intros x Hx Hcx. apply in_app_or in Hx as [Hx|[<-|[]]].
           ++ eapply le_lt_trans; eauto.
           ++ apply le_refl; assumption.
      * repeat split; auto.
        -- apply in_or_app; auto.
        -- intros x Hx Hcx. apply in_app_or in Hx as [Hx|[<-|[]]]; auto.
           apply comparable_inv in Hcx as [_ Hvn]. apply le_total; assumption.
    + destruct (ge (valueOf v) (valueOf v)) eqn:Hge; simpl.
      * apply ge_refl_iff in Hge. repeat split.
        -- apply in_or_app; right; left; reflexivity.
        -- apply comparable_intro; assumption.
        -- intros x Hx Hcx. apply in_app_or in Hx as [Hx|[<-|[]]].
           ++ rewrite (Hinv x Hx) in Hcx. discriminate.
           ++ apply le_refl; assumption.
      * intros x Hx. apply in_app_or in Hx as [Hx|[<-|[]]]; auto.
        unfold comparable. destruct (isNaN (valueOf v)) eqn:Hn.
        -- apply andb_false_r.
        -- apply ge_refl_iff in Hn. congruence.
Qed.

Lemma min_fold_found (xs seen : list A) (acc : option A) :
  min_found seen acc -> min_found (seen ++ xs) (fold_left d3_array.min_step xs acc).
Proof.
  revert seen acc. induction xs as [|v xs IH]; intros seen acc Hinv; simpl.
  - rewrite app_nil_r. exact Hinv.
  - replace (seen ++ v :: xs) with ((seen ++ [v]) ++ xs) by (rewrite <- app_assoc; reflexivity).
    apply IH, min_step_found, Hinv.
Qed.

Lemma max_fold_found (xs seen : list A) (acc : option A) :
  max_found seen acc -> max_found (seen ++ xs) (fold_left d3_array.max_step xs acc).
Proof.
  revert seen acc. induction xs as [|v xs IH]; intros seen acc Hinv; simpl.
  - rewrite app_nil_r. exact Hinv.
  - replace (seen ++ v :: xs) with ((seen ++ [v]) ++ xs) by (rewrite <- app_assoc; reflexivity).
    apply IH, max_step_found, Hinv.
Qed.

Lemma min_found_all (xs : list A) : min_found xs (d3_array.min xs).
Proof. apply (min_fold_found xs [] None). intros v []. Qed.

Lemma max_found_all (xs : list A) : max_found xs (d3_array.max xs).
Proof. apply (max_fold_found xs [] None). intros v []. Qed.

(** [d3.extent] is [d3.min] paired with [d3.max]. *)
Lemma extent_fold (xs : list A) (mn mx : option A) :
  (mn = None <-> mx = None) ->
  fold_left d3_array.extent_step xs (mn, mx)
  = (fold_left d3_array.min_step xs mn, fold_left d3_array.max_step xs mx).
Proof.
  revert mn mx. induction xs as [|v xs IH]; intros mn mx Hboth; simpl; [reflexivity|].
  unfold d3_array.extent_step at 2, d3_array.min_step at 2, d3_array.max_step at 2.
  destruct (nullish v); simpl.
  - apply IH, Hboth.
  - destruct mn as [m|], mx as [M|];
      try (exfalso; destruct Hboth as [H1 H2]; (discriminate (H1 eq_refl) || discriminate (H2 eq_refl))).
    + unfold gt. rewrite IH by (split; discriminate).
      destruct (lt (valueOf v) (valueOf m)), (lt (valueOf M) (valueOf v)); reflexivity.
    + destruct (ge (valueOf v) (valueOf v)).
      * apply IH. split; discriminate.
      * apply IH. tauto.
Qed.

Lemma extent_min_max (xs : list A) :
  d3_array.extent xs = (d3_array.min xs, d3_array.max xs).
Proof. apply extent_fold. tauto. Qed.

Lemma min_some (xs : list A) :
  (exists v, In v xs /\ comparable v = true) ->
  exists m, d3_array.min xs = Some m /\ least m xs.
Proof.
  intros (v & Hv & Hc). pose proof (min_found_all xs) as Hf.
  destruct (d3_array.min xs) as [m|]; simpl in Hf.
  - eauto.
  - rewrite (Hf v Hv) in Hc. discriminate.
Qed.

Lemma max_some (xs : list A) :
  (exists v, In v xs /\ comparable v = true) ->
  exists m, d3_array.max xs = Some m /\ greatest m xs.
Proof.
  intros (v & Hv & Hc). pose proof (max_found_all xs) as Hf.
  destruct (d3_array.max xs) as [m|]; simpl in Hf.
  - eauto.
  - rewrite (Hf v Hv) in Hc. discriminate.
Qed.

Lemma min_none (xs : list A) :
  (forall v, In v xs -> comparable v = false) -> d3_array.min xs = None.
Proof.
  intros Hall. pose proof (min_found_all xs) as Hf.
  destruct (d3_array.min xs) as [m|]; [|reflexivity].
  destruct Hf as (Hin & Hc & _). rewrite (Hall m Hin) in Hc. discriminate.
Qed.

Lemma max_none (xs : list A) :
  (forall v, In v xs -> comparable v = false) -> d3_array.max xs = None.
Proof.
  intros Hall. pose proof (max_found_all xs) as Hf.
  destruct (d3_array.max xs) as [m|]; [|reflexivity].
  destruct Hf as (Hin & Hc & _). rewrite (Hall m Hin) in Hc. discriminate.
Qed.

Lemma least_minimum (m : A) (xs : list A) :
  (forall v, In v xs -> comparable v = true) -> least m xs -> minimum m xs.
Proof. intros Hall (Hin & _ & Hle). split; auto. Qed.

Lemma greatest_maximum (m : A) (xs : list A) :
  (forall v, In v xs -> comparable v = true) -> greatest m xs -> maximum m xs.
Proof. intros Hall (Hin & _ & Hle). split; auto. Qed.

End scans.

(** ** Extents *)

Import Spec.

Lemma two_nodes_defined : two_nodes = Some two_nodes_state.
Proof. reflexivity. Qed.

Lemma some_least {A} `{Value A} (xs : list A) :
  (exists v, In v xs /\ comparable v = true) ->
  exists m M, d3_array.extent xs = (Some m, Some M) /\ least m xs /\ greatest M xs.
Proof.
  intros Hex. rewrite extent_min_max.
  destruct (min_some xs Hex) as (m & -> & Hm).
  destruct (max_some xs Hex) as (M & -> & HM).
  eauto.
Qed.

(** C2, as amended.  The scans of d3 skip what does not compare (an
    Invalid Date, a NaN price).  Whenever a field of the series holds a
    value that compares, the extent of the time chart is the pair of the
    least and the greatest such value of the field, least first; the Gantt
    extent is the least start paired with the greatest end over the
    flattened nodes.  On a series whose values all compare these are the
    true minimum and maximum of the field. *)
Theorem computeExtent_least_greatest (tc : TimeChart.State) (g : Gantt.State) :
  let dates := map TimeChart.date (TimeChart.series tc) in
  let prices := map TimeChart.price (TimeChart.series tc) in
  let starts := map (Gantt.start_of (Gantt.heap (Gantt.store g))) (Gantt.seriesNodes g) in
  let ends := map (Gantt.end_of (Gantt.heap (Gantt.store g))) (Gantt.seriesNodes g) in
  ((exists v, In v dates /\ comparable v = true) ->
   exists d0 d1,
     TimeChart.xExtent (TimeChart.computeExtent tc) = Some (Some d0, Some d1) /\
     least d0 dates /\ greatest d1 dates /\
     ((forall v, In v dates -> comparable v = true) ->
      minimum d0 dates /\ maximum d1 dates)) /\
  ((exists v, In v prices /\ comparable v = true) ->
   exists p0 p1,
     TimeChart.yExtent (TimeChart.computeExtent tc) = Some (Some p0, Some p1) /\
     least p0 prices /\ greatest p1 prices /\
     ((forall v, In v prices -> comparable v = true) ->
      minimum p0 prices /\ maximum p1 prices)) /\
  ((exists v, In v starts /\ comparable v = true) ->
   (exists v, In v ends /\ comparable v = true) ->
   exists s e,
     Gantt.xExtent (Gantt.computeExtent g) = Some (Some s, Some e) /\
     least s starts /\ greatest e ends /\
     ((forall v, In v starts -> comparable v = true) -> minimum s starts) /\
     ((forall v, In v ends -> comparable v = true) -> maximum e ends)).
Proof.
  intros dates prices starts ends. split; [|split].
  - intros Hex. destruct (some_least dates Hex) as (m & M & Heq & Hm & HM).
    exists m, M. split; [simpl; fold dates; rewrite Heq; reflexivity|].
    split; [exact Hm|]. split; [exact HM|]. intros Hall.
    split; [apply least_minimum | apply greatest_maximum]; assumption.
  - intros Hex. destruct (some_least prices Hex) as (m & M & Heq & Hm & HM).
    exists m, M. split; [simpl; fold prices; rewrite Heq; reflexivity|].
    split; [exact Hm|]. split; [exact HM|]. intros Hall.
    split; [apply least_minimum | apply greatest_maximum]; assumption.
  - intros Hs He.
    destruct (min_some starts Hs) as (m & Heq & Hm).
    destruct (max_some ends He) as (M & Heq' & HM).
    exists m, M. split; [simpl; fold starts ends; rewrite Heq, Heq'; reflexivity|].
    split; [exact Hm|]. split; [exact HM|].
    split; intros Hall; [apply least_minimum | apply greatest_maximum]; assumption.
Qed.

(** The scenario of the spec: x-extent [2020-01-01, 2021-01-01],
    y-extent [100, 200]; and the Gantt scenario: [1 January, 5 January]. *)
Lemma computeExtent_least_greatest_witness :
  TimeChart.xExtent (TimeChart.computeExtent (TimeChart.set_series three_points TimeChart.init))
  = Some (Some (day 1577836800000), Some (day 1609459200000)) /\
  TimeChart.yExtent (TimeChart.computeExtent (TimeChart.set_series three_points TimeChart.init))
  = Some (Some (Fin 100), Some (Fin 200)) /\
  Gantt.xExtent (Gantt.computeExtent two_nodes_state)
  = Some (Some (january 1), Some (january 5)) /\
  minimum (day 1577836800000) (map TimeChart.date three_points) /\
  maximum (Fin 200) (map TimeChart.price three_points).
Proof.
  pose proof (computeExtent_least_greatest
                (TimeChart.set_series three_points TimeChart.init) two_nodes_state)
    as (Hx & Hy & Hg).
  assert (Hd : forall v, In v (map TimeChart.date three_points) -> comparable v = true).
  { simpl. intros v [<-|[<-|[<-|[]]]]; reflexivity. }
  assert (Hp : forall v, In v (map TimeChart.price three_points) -> comparable v = true).
  { simpl. intros v [<-|[<-|[<-|[]]]]; reflexivity. }
  destruct Hx as (d0 & d1 & Hxe & _ & _ & Hmin).
  { exists (day 1577836800000). split; [left; reflexivity | reflexivity]. }
  destruct Hy as (p0 & p1 & Hye & _ & _ & Hmax).
  { exists (Fin 100). split; [left; reflexivity | reflexivity]. }
  destruct Hg as (s & e & Hge & _).
  { exists (january 2). split; [right; left; reflexivity | reflexivity]. }
  { exists (january 3). split; [right; left; reflexivity | reflexivity]. }
  destruct (Hmin Hd) as [Hm0 _]. destruct (Hmax Hp) as [_ Hm1].
  assert (Hxv : TimeChart.xExtent (TimeChart.computeExtent
                  (TimeChart.set_series three_points TimeChart.init))
                = Some (Some (day 1577836800000), Some (day 1609459200000)))
    by reflexivity.
  assert (Hyv : TimeChart.yExtent (TimeChart.computeExtent
                  (TimeChart.set_series three_points TimeChart.init))
                = Some (Some (Fin 100), Some (Fin 200)))
    by reflexivity.
  rewrite Hxv in Hxe. rewrite Hyv in Hye.
  injection Hxe as <- <-. injection Hye as <- <-.
  split; [exact Hxv|]. split; [exact Hyv|]. split; [reflexivity|].
  split; [exact Hm0 | exact Hm1].
Defined.

(** C2 as stated fails on a series that is not empty: for rows whose
    date and price did not parse, both extents are [undefined, undefined],
    and the field has no minimum. *)
Lemma computeExtent_unparsed :
  let st := TimeChart.computeExtent (TimeChart.set_series unparsed_points TimeChart.init) in
  TimeChart.series st <> [] /\
  TimeChart.xExtent st = Some (None, None) /\
  TimeChart.yExtent st = Some (None, None) /\
  ~ (exists d, minimum d (map TimeChart.date (TimeChart.series st))) /\
  ~ (exists p, maximum p (map TimeChart.price (TimeChart.series st))).
Proof.
  simpl. repeat split; try discriminate.
  - intros (d & [<-|[]] & Hle). specialize (Hle _ (or_introl eq_refl)). discriminate.
  - intros (d & [<-|[]] & Hle). specialize (Hle _ (or_introl eq_refl)). discriminate.
Qed.



(** ** The time chart: zoom and axes *)

Lemma zoom_scale_clamped (z : d3.Zoom) (t : d3.Transform) (k1 : Q) :
  d3.scaleExtent z = (1, 4) -> 1 <= d3.k (d3.zoom_scale z t k1) <= 4.
Proof.
  intros Hz. unfold d3.zoom_scale. rewrite Hz. simpl. split.
  - apply Q.le_max_l.
  - apply Q.max_lub; [discriminate | apply Q.le_min_l].
Qed.



(** ** Axes *)

(** C7, as amended.  The time axis of the time chart is given a target
    of 12 ticks and the year/month format "%Y/%m".  The value axis of the
    time chart and both axes of the Gantt chart get a tick size equal to
    the opposite canvas dimension, negated so that the ticks run across
    the plot.  The time axis of the Gantt chart is given neither a count
    nor a format. *)
Theorem computeAxis_ticks (tc : TimeChart.State) (g : Gantt.State)
    (xs : d3.Scale Date) (ys : d3.Scale number)
    (gxs : d3.Scale Gantt.DateField) (gys : Gantt.Band)
    (Hx : TimeChart.xScale tc = Some xs) (Hy : TimeChart.yScale tc = Some ys)
    (Hgx : Gantt.xScale g = Some gxs) (Hgy : Gantt.yScale g = Some gys) :
  exists tc' g' xa ya gxa gya,
    TimeChart.computeAxis tc = Some tc' /\ Gantt.computeAxis g = Some g' /\
    TimeChart.xAxis tc' = Some xa /\ TimeChart.yAxis tc' = Some ya /\
    Gantt.xAxis g' = Some gxa /\ Gantt.yAxis g' = Some gya /\
    d3.scale xa = xs /\ d3.scale ya = ys /\ d3.scale gxa = gxs /\ d3.scale gya = gys /\
    d3.tickArguments xa = [d3.Count 12; d3.utcFormat "%Y/%m"] /\
    d3.tickSizeInner ya = - TimeChart.canvasWidth tc /\
    d3.tickSizeInner gxa = - Gantt.canvasHeight g /\
    d3.tickSizeInner gya = - Gantt.canvasWidth g /\
    d3.tickArguments gxa = [].
Proof.
  unfold TimeChart.computeAxis, Gantt.computeAxis.
  rewrite Hx, Hy, Hgx, Hgy. simpl.
  do 6 eexists. repeat split; reflexivity.
Qed.

Lemma computeAxis_ticks_witness :
  exists xa ya gxa gya,
    TimeChart.xAxis three_points_chart = Some xa /\
    TimeChart.yAxis three_points_chart = Some ya /\
    Gantt.xAxis two_nodes_drawn = Some gxa /\
    Gantt.yAxis two_nodes_drawn = Some gya /\
    d3.tickArguments xa = [d3.Count 12; d3.utcFormat "%Y/%m"] /\
    d3.tickSizeInner ya = - (800 - (55 + 20)) /\
    d3.tickSizeInner gxa == - 50 /\
    d3.tickSizeInner gya = - (800 - (55 + 15)).
Proof.
  destruct (computeAxis_ticks three_points_chart two_nodes_drawn
             (d3.mkScale (Some (day 1577836800000), Some (day 1609459200000))
                         (0, 800 - (55 + 20)) true)
             (d3.mkScale (Some (Fin 100), Some (Fin 200)) (600 - (15 + 20), 0) false)
             (d3.mkScale (Some (january 1), Some (january 5)) (0, 800 - (55 + 15)) false)
             (Gantt.mkBand [Gantt.KUuid 1; Gantt.KUuid 2]
                           (0, inject_Z (Z.of_nat 2) * 40 - (15 + 15)))
             eq_refl eq_refl eq_refl eq_refl)
    as (tc' & g' & xa & ya & gxa & gya & Htc & Hg & Hxa & Hya & Hgxa & Hgya & _).
  injection Htc as <-. injection Hg as <-.
  simpl in Hxa, Hya, Hgxa, Hgya.
  injection Hxa as <-. injection Hya as <-. injection Hgxa as <-. injection Hgya as <-.
  do 4 eexists. repeat split; reflexivity.
Defined.

(** C7 as stated fails.  The time axis of the Gantt chart carries no tick
    count and no label format; and on the time axis of the time chart
    the canvas height goes to the outer tick size alone, the ticks
    themselves keep d3's length 6. *)
Lemma computeAxis_not_all_gridlines :
  exists xa gxa,
    TimeChart.xAxis three_points_chart = Some xa /\
    Gantt.xAxis two_nodes_drawn = Some gxa /\
    d3.tickArguments gxa = [] /\
    d3.tickSizeInner xa = 6 /\
    d3.tickSizeOuter xa = - TimeChart.canvasHeight three_points_chart /\
    ~ (d3.tickSizeInner xa == - TimeChart.canvasHeight three_points_chart).
Proof.
  do 2 eexists. repeat split; try reflexivity.
  intros H. vm_compute in H. discriminate.
Qed.

(** ** The hierarchy over a tree of records *)

Section hierarchy.

Import Gantt GanttSpec.

Lemma Tree_rect_Forall (P : Tree -> Prop) :
  (forall l ts, Forall P ts -> P (T l ts)) -> forall t, P t.
Proof.
  intros IH. fix go 1. intros [l ts]. apply IH.
  induction ts as [|t ts IHts]; constructor; [apply go | exact IHts].
Qed.

Lemma levels_child (l : loc) (ts : list Tree) (t : Tree) :
  In t ts -> (levels t < levels (T l ts))%nat.
Proof.
  simpl. induction ts as [|t' ts IH]; simpl; [intros []|].
  intros [->|Hin]; [lia|]. specialize (IH Hin). lia.
Qed.

Lemma kids_Some (h : Heap) (l : loc) (cs : list loc) :
  kids h l = Some cs <->
  exists r, h !! l = Some r /\ elements (SerieGantt.data r) = cs.
Proof.
  unfold kids. destruct (h !! l) as [r|]; simpl; split.
  - intros [= <-]. eauto.
  - intros (r' & [= <-] & <-). reflexivity.
  - discriminate.
  - intros (r' & [=] & _).
Qed.

(** With enough fuel the traversal returns the hierarchy of the tree. *)
Lemma hierarchy_from_shape (h : Heap) (t : Tree) :
  shape h t ->
  forall fuel parent d, (levels t <= fuel)%nat ->
    hierarchy_from fuel h parent d (root_of t) = Some (node_of parent d t).
Proof.
  induction t as [l ts IH] using Tree_rect_Forall.
  intros Hshape fuel parent d Hfuel. inversion Hshape as [l' ts' Hkids Hall]; subst.
  destruct fuel as [|fuel]; [simpl in Hfuel; lia|].
  apply kids_Some in Hkids as (r & Hr & Hel).
  simpl. rewrite Hr. simpl. rewrite Hel.
  assert (Hm : mapM (hierarchy_from fuel h (Some l) (S d)) (map root_of ts)
               = Some (map (node_of (Some l) (S d)) ts)).
  { apply mapM_Some_2.
    assert (Hlv : forall t, In t ts -> (levels t <= fuel)%nat).
    { intros t Ht. pose proof (levels_child l ts t Ht). lia. }
    clear Hshape Hfuel Hr Hel.
    induction ts as [|t ts IHts]; simpl; constructor.
    - inversion IH; subst. inversion Hall; subst.
      apply H1; [assumption | apply Hlv; left; reflexivity].
    - inversion IH; subst. inversion Hall; subst.
      apply IHts; try assumption. intros t' Ht'. apply Hlv. right. exact Ht'. }
  rewrite Hm. reflexivity.
Qed.

Lemma eachBefore_node_of (t : Tree) :
  forall parent d, map located (eachBefore (node_of parent d t)) = preorder d t.
Proof.
  induction t as [l ts IH] using Tree_rect_Forall. intros parent d.
  simpl. f_equal.
  induction ts as [|t ts IHts]; simpl; [reflexivity|].
  inversion IH; subst. rewrite map_app. f_equal; auto.
Qed.

Lemma preorder_fst (t : Tree) : forall d, map fst (preorder d t) = records t.
Proof.
  unfold records. induction t as [l ts IH] using Tree_rect_Forall. intros d.
  simpl. f_equal.
  induction ts as [|t ts IHts]; simpl; [reflexivity|].
  inversion IH; subst. rewrite !map_app. f_equal; auto.
  rewrite H1. symmetry. apply H1.
Qed.

Lemma path_preorder (h : Heap) (t : Tree) :
  shape h t ->
  forall d k l, path h k (root_of t) l -> In (l, (d + k)%nat) (preorder d t).
Proof.
  induction t as [l0 ts IH] using Tree_rect_Forall.
  intros Hshape d k l Hpath. inversion Hshape as [l' ts' Hkids Hall]; subst.
  simpl in Hpath. inversion Hpath as [|k' l1 cs c l2 Hk Hc Hrest]; subst.
  - rewrite Nat.add_0_r. left. reflexivity.
  - right. rewrite Hkids in Hk. injection Hk as <-.
    apply in_map_iff in Hc as (t & <- & Ht).
    apply in_flat_map. exists t. split; [exact Ht|].
    rewrite Forall_forall in IH, Hall.
    replace (d + S k')%nat with (S d + k')%nat by lia.
    apply IH; [apply list_elem_of_In, Ht | apply Hall, list_elem_of_In, Ht | exact Hrest].
Qed.

Lemma preorder_path (h : Heap) (t : Tree) :
  shape h t ->
  forall d l k, In (l, k) (preorder d t) ->
    exists j, k = (d + j)%nat /\ path h j (root_of t) l.
Proof.
  induction t as [l0 ts IH] using Tree_rect_Forall.
  intros Hshape d l k Hin. inversion Hshape as [l' ts' Hkids Hall]; subst.
  simpl in Hin. destruct Hin as [[= <- <-]|Hin].
  - exists 0%nat. split; [lia | constructor].
  - apply in_flat_map in Hin as (t & Ht & Hin).
    rewrite Forall_forall in IH, Hall.
    destruct (IH t (proj2 (list_elem_of_In _ _) Ht)
                 (Hall t (proj2 (list_elem_of_In _ _) Ht)) (S d) l k Hin)
      as (j & -> & Hpath).
    exists (S j). split; [lia|].
    simpl. eapply path_down; [exact Hkids | | exact Hpath].
    apply in_map. exact Ht.
Qed.

Lemma NoDup_fst_unique {A B} (xs : list (A * B)) (a : A) (b1 b2 : B) :
  List.NoDup (map fst xs) -> In (a, b1) xs -> In (a, b2) xs -> b1 = b2.
Proof.
  induction xs as [|[a' b'] xs IH]; simpl; [intros _ []|].
  intros Hnd. inversion Hnd as [|? ? Hnotin Hnd']; subst.
  intros [Heq1|H1] [Heq2|H2].
  - congruence.
  - exfalso. injection Heq1 as -> ->. apply Hnotin, in_map_iff.
    exists (a, b2). split; [reflexivity | exact H2].
  - exfalso. injection Heq2 as -> ->. apply Hnotin, in_map_iff.
    exists (a, b1). split; [reflexivity | exact H1].
  - auto.
Qed.

End hierarchy.

(** ** Records in the heap *)

Section heap.

Import Gantt GanttSpec.

Lemma update_length (l : loc) (f : SerieGantt.t -> SerieGantt.t) (h : Heap) :
  length (update l f h) = length h.
Proof. unfold update. destruct (h !! l); [apply length_insert | reflexivity]. Qed.

Lemma update_lookup (l : loc) (f : SerieGantt.t -> SerieGantt.t) (h : Heap) (l' : loc) :
  update l f h !! l' = if decide (l = l') then f <$> h !! l' else h !! l'.
Proof.
  unfold update. destruct (decide (l = l')) as [<-|Hne].
  - destruct (h !! l) as [r|] eqn:Hr; simpl.
    + apply list_lookup_insert_eq. eapply lookup_lt_Some, Hr.
    + exact Hr.
  - destruct (h !! l); [apply list_lookup_insert_ne, Hne | reflexivity].
Qed.

Lemma update_update (l : loc) (f g : SerieGantt.t -> SerieGantt.t) (h : Heap) :
  update l g (update l f h) = update l (fun r => g (f r)) h.
Proof.
  unfold update at 1. rewrite update_lookup. destruct (decide (l = l)); [|congruence].
  unfold update. destruct (h !! l); simpl; [|reflexivity].
  apply list_insert_insert_eq.
Qed.

Lemma deref_update_ne (l l' : loc) (f : SerieGantt.t -> SerieGantt.t) (h : Heap) :
  l <> l' -> deref (update l f h) l' = deref h l'.
Proof.
  intros Hne. unfold deref. rewrite update_lookup.
  destruct (decide (l = l')); [congruence | reflexivity].
Qed.

Lemma deref_update_eq (l : loc) (f : SerieGantt.t -> SerieGantt.t) (h : Heap) :
  is_Some (h !! l) -> deref (update l f h) l = f (deref h l).
Proof.
  intros [r Hr]. unfold deref. rewrite update_lookup.
  destruct (decide (l = l)); [|congruence]. rewrite Hr. reflexivity.
Qed.

Lemma deref_Some (h : Heap) (l : loc) (r : SerieGantt.t) :
  h !! l = Some r -> deref h l = r.
Proof. unfold deref. intros ->. reflexivity. Qed.

Lemma newDate_idem (v : DateField) : newDate (newDate v) = newDate v.
Proof. destruct v; reflexivity. Qed.

Lemma assign_heap (s : Store) (n : Node) :
  heap (assign s n) = update (SerieGanttNode.data n) (stamp (KUuid (uuid s))) (heap s).
Proof.
  unfold assign. simpl. rewrite !update_update. reflexivity.
Qed.

Lemma assign_uuid (s : Store) (n : Node) : uuid (assign s n) = S (uuid s).
Proof. reflexivity. Qed.

Lemma assign_fold_uuid (nodes : list Node) (s : Store) :
  uuid (fold_left assign nodes s) = (uuid s + length nodes)%nat.
Proof.
  revert s. induction nodes as [|n ns IH]; intros s; simpl; [lia|].
  rewrite IH, assign_uuid. lia.
Qed.

Lemma assign_fold_length (nodes : list Node) (s : Store) :
  length (heap (fold_left assign nodes s)) = length (heap s).
Proof.
  revert s. induction nodes as [|n ns IH]; intros s; simpl; [reflexivity|].
  rewrite IH, assign_heap. apply update_length.
Qed.

(** A pass leaves alone the records it does not emit. *)
Lemma assign_fold_frame (nodes : list Node) (s : Store) (l : loc) :
  ~ In l (map SerieGanttNode.data nodes) ->
  heap (fold_left assign nodes s) !! l = heap s !! l.
Proof.
  revert s. induction nodes as [|n ns IH]; intros s Hnot; simpl; [reflexivity|].
  rewrite IH by (intros Hin; apply Hnot; right; exact Hin).
  rewrite assign_heap, update_lookup.
  destruct (decide (SerieGanttNode.data n = l)) as [Heq|]; [|reflexivity].
  exfalso. apply Hnot. left. exact Heq.
Qed.

(** What a pass does to a record: the name and both child slots stay;
    an emitted record gets its dates converted and a key drawn during
    the pass; any other record is untouched. *)
Lemma assign_fold_fields (nodes : list Node) :
  forall (s : Store) (l : loc) (r : SerieGantt.t),
  heap s !! l = Some r ->
  exists r',
    heap (fold_left assign nodes s) !! l = Some r' /\
    SerieGantt.name r' = SerieGantt.name r /\
    SerieGantt.data r' = SerieGantt.data r /\
    SerieGantt._data r' = SerieGantt._data r /\
    (In l (map SerieGanttNode.data nodes) ->
       SerieGantt.start r' = newDate (SerieGantt.start r) /\
       SerieGantt.end_ r' = newDate (SerieGantt.end_ r) /\
       exists j, (uuid s <= j < uuid s + length nodes)%nat /\ SerieGantt.key r' = KUuid j) /\
    (~ In l (map SerieGanttNode.data nodes) -> r' = r).
Proof.
  induction nodes as [|n ns IH]; intros s l r Hr; simpl.
  - exists r. split; [exact Hr|]. do 3 (split; [reflexivity|]).
    split; [intros [] | reflexivity].
  - set (s1 := assign s n).
    assert (Hs1 : exists r1, heap s1 !! l = Some r1 /\
              r1 = if decide (SerieGanttNode.data n = l) then stamp (KUuid (uuid s)) r else r).
    { unfold s1. rewrite assign_heap, update_lookup, Hr.
      destruct (decide (SerieGanttNode.data n = l)); simpl; eauto. }
    destruct Hs1 as (r1 & Hr1 & Hr1eq).
    destruct (IH s1 l r1 Hr1) as (r' & Hr' & Hname & Hdata & Hhid & Hin & Hout).
    exists r'. split; [exact Hr'|].
    assert (Hn1 : SerieGantt.name r1 = SerieGantt.name r)
      by (rewrite Hr1eq; destruct (decide _); reflexivity).
    assert (Hd1 : SerieGantt.data r1 = SerieGantt.data r)
      by (rewrite Hr1eq; destruct (decide _); reflexivity).
    assert (Hh1 : SerieGantt._data r1 = SerieGantt._data r)
      by (rewrite Hr1eq; destruct (decide _); reflexivity).
    split; [congruence|]. split; [congruence|]. split; [congruence|].
    assert (Hu : uuid s1 = S (uuid s)) by reflexivity.
    split.
    + intros Hl.
      destruct (in_dec Nat.eq_dec l (map SerieGanttNode.data ns)) as [Hns|Hns].
      * destruct (Hin Hns) as (Hst & Hen & j & Hj & Hk).
        rewrite Hst, Hen, Hr1eq.
        destruct (decide (SerieGanttNode.data n = l)); simpl;
          rewrite ?newDate_idem; (split; [reflexivity|]); (split; [reflexivity|]);
          exists j; (split; [lia | exact Hk]).
      * destruct Hl as [Hl|Hl]; [|contradiction].
        rewrite (Hout Hns), Hr1eq.
        destruct (decide (SerieGanttNode.data n = l)); [|congruence]. simpl.
        split; [reflexivity|]. split; [reflexivity|].
        exists (uuid s). split; [lia | reflexivity].
    + intros Hl. rewrite Hout by (intros Hns; apply Hl; right; exact Hns).
      rewrite Hr1eq. destruct (decide (SerieGanttNode.data n = l)) as [Heq|]; [|reflexivity].
      exfalso. apply Hl. left. exact Heq.
Qed.

Lemma assign_fold_kids (nodes : list Node) (s : Store) (l : loc) :
  kids (heap (fold_left assign nodes s)) l = kids (heap s) l.
Proof.
  unfold kids. destruct (heap s !! l) as [r|] eqn:Hr.
  - destruct (assign_fold_fields nodes s l r Hr) as (r' & -> & _ & Hdata & _).
    simpl. rewrite Hdata. reflexivity.
  - apply lookup_ge_None in Hr.
    rewrite (proj2 (lookup_ge_None _ _)); [reflexivity|].
    rewrite assign_fold_length. exact Hr.
Qed.

(** On records that are emitted once, the keys of a pass are the
    identifiers drawn during it, in order. *)
Lemma assign_fold_keys (nodes : list Node) :
  forall s : Store,
  List.NoDup (map SerieGanttNode.data nodes) ->
  (forall n, In n nodes -> is_Some (heap s !! SerieGanttNode.data n)) ->
  map (key_of (heap (fold_left assign nodes s))) nodes
  = map KUuid (seq (uuid s) (length nodes)).
Proof.
  induction nodes as [|n ns IH]; intros s Hnd Hvalid; simpl; [reflexivity|].
  inversion Hnd as [|? ? Hnotin Hnd']; subst.
  f_equal.
  - unfold key_of, deref. rewrite assign_fold_frame by exact Hnotin.
    rewrite assign_heap, update_lookup.
    destruct (decide (SerieGanttNode.data n = SerieGanttNode.data n)); [|congruence].
    destruct (Hvalid n (or_introl eq_refl)) as [r ->]. reflexivity.
  - rewrite IH; [reflexivity | exact Hnd' |].
    intros m Hm. rewrite assign_heap, update_lookup.
    destruct (Hvalid m (or_intror Hm)) as [r ->].
    destruct (decide _); simpl; eauto.
Qed.

End heap.

(** ** A flatten pass *)

Section pass.

Import Gantt GanttSpec.

Lemma hierarchy_from_kids (fuel : nat) (h : Heap) (parent : option loc) (d : nat) (l : loc) :
  hierarchy_from (S fuel) h parent d l
  = (cs ← kids h l;
     ks ← mapM (hierarchy_from fuel h (Some l) (S d)) cs;
     Some (SerieGanttNode.mk d (height_over ks) l parent ks)).
Proof. simpl. unfold kids. destruct (h !! l); reflexivity. Qed.

(** The traversal reads nothing of the heap but the child links. *)
Lemma hierarchy_from_ext (h h' : Heap) :
  (forall l, kids h l = kids h' l) ->
  forall fuel parent d l,
    hierarchy_from fuel h parent d l = hierarchy_from fuel h' parent d l.
Proof.
  intros Hkids fuel. induction fuel as [|fuel IH]; intros parent d l; [reflexivity|].
  rewrite !hierarchy_from_kids, Hkids.
  destruct (kids h' l) as [cs|]; simpl; [|reflexivity].
  rewrite (mapM_ext _ (hierarchy_from fuel h' (Some l) (S d))) by (intros x; apply IH).
  reflexivity.
Qed.

(** Emptying child links never makes the traversal run out of fuel. *)
Lemma hierarchy_from_prune (h h' : Heap) :
  (forall l cs, kids h l = Some cs -> kids h' l = Some cs \/ kids h' l = Some []) ->
  forall fuel parent d l,
    is_Some (hierarchy_from fuel h parent d l) ->
    is_Some (hierarchy_from fuel h' parent d l).
Proof.
  intros Hkids fuel. induction fuel as [|fuel IH]; intros parent d l.
  - simpl. intros [n Hn]. discriminate.
  - rewrite !hierarchy_from_kids.
    destruct (kids h l) as [cs|] eqn:Hcs; simpl; [|intros [n Hn]; discriminate].
    intros Hsome.
    destruct (Hkids l cs Hcs) as [-> | ->]; simpl.
    + destruct (mapM (hierarchy_from fuel h (Some l) (S d)) cs) as [ks|] eqn:Hks;
        [|destruct Hsome as [n Hn]; discriminate].
      assert (Hall : is_Some (mapM (hierarchy_from fuel h' (Some l) (S d)) cs)).
      { apply mapM_is_Some. apply Forall_forall. intros c Hc. simpl. apply IH.
        assert (Hf : Forall (is_Some ∘ hierarchy_from fuel h (Some l) (S d)) cs)
          by (apply mapM_is_Some; eauto).
        rewrite Forall_forall in Hf. exact (Hf c Hc). }
      destruct Hall as [ks' ->]. simpl. eauto.
    + eauto.
Qed.

Lemma Forall2_In_r {A B} (P : A -> B -> Prop) (l : list A) (k : list B) (y : B) :
  Forall2 P l k -> In y k -> exists x, In x l /\ P x y.
Proof.
  induction 1 as [|x y' l k Hxy _ IH]; simpl; [intros []|].
  intros [<-|Hin]; [eauto|].
  destruct (IH Hin) as (x' & Hx' & HP). eauto.
Qed.

(** Every node of the hierarchy stands for a record of the heap. *)
Lemma hierarchy_from_valid (h : Heap) :
  forall fuel parent d l root,
    hierarchy_from fuel h parent d l = Some root ->
    forall n, In n (eachBefore root) -> is_Some (h !! SerieGanttNode.data n).
Proof.
  intros fuel. induction fuel as [|fuel IH]; intros parent d l root Hroot; [discriminate|].
  simpl in Hroot. destruct (h !! l) as [r|] eqn:Hr; simpl in Hroot; [|discriminate].
  destruct (mapM (hierarchy_from fuel h (Some l) (S d)) (elements (SerieGantt.data r)))
    as [ks|] eqn:Hks; simpl in Hroot; [|discriminate].
  injection Hroot as <-. intros n [<-|Hn]; simpl; [eauto|].
  apply in_flat_map in Hn as (k & Hk & Hn).
  apply mapM_Some_1 in Hks.
  destruct (Forall2_In_r _ _ _ k Hks Hk) as (c & _ & Hc).
  eapply IH; eauto.
Qed.

Lemma filter_all {A} (f : A -> bool) (xs : list A) :
  (forall x, In x xs -> f x = true) -> List.filter f xs = xs.
Proof.
  induction xs as [|x xs IH]; simpl; intros Hall; [reflexivity|].
  rewrite (Hall x (or_introl eq_refl)). f_equal. apply IH. auto.
Qed.

Lemma records_path (h : Heap) (t : Tree) (l : loc) :
  shape h t -> (In l (records t) <-> exists k, path h k (root_of t) l).
Proof.
  intros Hshape. unfold records. split.
  - intros Hin. apply in_map_iff in Hin as ([l' k] & Hl & Hin). simpl in Hl. subst l'.
    destruct (preorder_path h t Hshape 0%nat l k Hin) as (j & _ & Hpath). eauto.
  - intros (k & Hpath). apply in_map_iff. exists (l, (0 + k)%nat).
    split; [reflexivity | apply (path_preorder h); assumption].
Qed.

(** C1, as amended.  Over a heap that holds a tree of records under the
    synthetic root through the [data] fields (whatever the [_data]
    fields hold), with the reserved key on the root alone, a flatten pass
    with fuel for the levels of the tree returns the records below the
    root in pre-order: every record that a chain of child links reaches
    from the root, the root left out, each once, a parent before its
    children and children in the order of their array.  The depth of an
    emitted node is the length of the chain from the synthetic root, so
    a top-level record has depth 1: for the root wrapping A with its one
    child B the result is [A, B] with depths 1 and 2. *)
Theorem preProcess_preorder (fuel : nat) (st : Gantt.State) (t : Tree)
    (Hshape : shape (heap (store st)) t)
    (Htree : List.NoDup (records t))
    (Hroot : SerieGantt.key (deref (heap (store st)) (root_of t)) = rootKEY st)
    (Hkeys : forall l, In l (records t) -> l <> root_of t ->
               SerieGantt.key (deref (heap (store st)) l) <> rootKEY st)
    (Hfuel : (levels t <= fuel)%nat) :
  (exists nodes st',
     preProcess fuel (root_of t) st = Some (nodes, st') /\
     map located nodes = tail (preorder 0 t) /\
     List.NoDup (map SerieGanttNode.data nodes) /\
     (forall l, In l (map SerieGanttNode.data nodes) <->
                l <> root_of t /\ exists k, path (heap (store st)) k (root_of t) l) /\
     (forall n k, In n nodes ->
        (path (heap (store st)) k (root_of t) (SerieGanttNode.data n) <->
         k = SerieGanttNode.depth n))) /\
  map (fun n => (name_of (heap (store two_nodes_state)) n, SerieGanttNode.depth n))
      (seriesNodes two_nodes_state)
  = [("A"%string, 1%nat); ("B"%string, 2%nat)].
Proof.
  split; [|reflexivity].
  set (h := heap (store st)) in *.
  destruct t as [l ts]. simpl root_of in *.
  pose proof (hierarchy_from_shape h (T l ts) Hshape fuel None 0%nat Hfuel) as Hh.
  simpl root_of in Hh.
  set (rest := flat_map eachBefore (map (node_of (Some l) 1%nat) ts)).
  assert (Hloc : map located rest = tail (preorder 0 (T l ts))).
  { pose proof (eachBefore_node_of (T l ts) None 0%nat) as He. simpl in He.
    injection He as He. exact He. }
  assert (Hrec : records (T l ts) = l :: map SerieGanttNode.data rest).
  { unfold records. simpl. f_equal. simpl in Hloc. rewrite <- Hloc.
    rewrite map_map. reflexivity. }
  rewrite Hrec in Htree. inversion Htree as [|? ? Hnotin Hnd]; subst.
  assert (Hkept :
    List.filter (fun node => negb (bool_decide (key_of h node = rootKEY st)))
                (eachBefore (node_of None 0 (T l ts))) = rest).
  { simpl. rewrite bool_decide_eq_true_2 by exact Hroot. simpl.
    apply filter_all. intros n Hn.
    apply negb_true_iff, bool_decide_eq_false_2. unfold key_of.
    assert (Hin : In (SerieGanttNode.data n) (map SerieGanttNode.data rest))
      by (apply in_map; exact Hn).
    apply Hkeys.
    - rewrite Hrec. right. exact Hin.
    - intros Heq. rewrite Heq in Hin. contradiction. }
  exists rest, (set_store (fold_left assign rest (store st)) st).
  split.
  { unfold preProcess, preProcess_store, hierarchy. fold h. rewrite Hh.
    cbn -[eachBefore node_of List.filter fold_left].
    rewrite Hkept. reflexivity. }
  split; [exact Hloc|]. split; [exact Hnd|]. split.
  - intros l'. rewrite <- (records_path h (T l ts) l' Hshape), Hrec. simpl. split.
    + intros Hin. split; [intros ->; contradiction | right; exact Hin].
    + intros [Hne [Heq|Hin]]; [congruence | exact Hin].
  - intros n k Hn.
    assert (Hin : In (located n) (preorder 0 (T l ts))).
    { simpl. right. simpl in Hloc. rewrite <- Hloc. apply in_map. exact Hn. }
    assert (Hfst : List.NoDup (map fst (preorder 0 (T l ts)))).
    { fold (records (T l ts)). rewrite Hrec. constructor; assumption. }
    split.
    + intros Hpath. pose proof (path_preorder h (T l ts) Hshape 0%nat k _ Hpath) as Hk.
      simpl root_of in Hk.
      exact (NoDup_fst_unique _ _ _ _ Hfst Hk Hin).
    + intros ->. destruct (preorder_path h (T l ts) Hshape 0%nat _ _ Hin) as (j & Hj & Hpath).
      simpl in Hj. rewrite Hj. exact Hpath.
Qed.

End pass.

Section pass_examples.

Import Gantt GanttSpec.

Lemma preProcess_preorder_witness :
  exists nodes st',
    preProcess 3 4%nat two_nodes_state = Some (nodes, st') /\
    map located nodes = [(3%nat, 1%nat); (2%nat, 2%nat)].
Proof.
  assert (Hshape : shape (heap (store two_nodes_state))
                     (T 4%nat [T 3%nat [T 2%nat []]])).
  { repeat (constructor; [reflexivity|]); repeat constructor. }
  assert (Htree : List.NoDup (records (T 4%nat [T 3%nat [T 2%nat []]]))).
  { repeat constructor; simpl; intuition discriminate. }
  assert (Hkeys : forall l, In l (records (T 4%nat [T 3%nat [T 2%nat []]])) ->
            l <> 4%nat ->
            SerieGantt.key (deref (heap (store two_nodes_state)) l)
            <> rootKEY two_nodes_state).
  { intros l [<-|[<-|[<-|[]]]] Hne; [exfalso; apply Hne; reflexivity | discriminate | discriminate]. }
  destruct (preProcess_preorder 3 two_nodes_state (T 4%nat [T 3%nat [T 2%nat []]])
              Hshape Htree eq_refl Hkeys (le_n 3))
    as ((nodes & st' & Hpass & Hloc & _) & _).
  exists nodes, st'. split; [exact Hpass | exact Hloc].
Defined.

(** C1 as stated fails on its own example: the nodes of A and B are
    recorded at depths 1 and 2, not 0 and 1. *)
Lemma preProcess_depths_from_one :
  two_nodes = Some two_nodes_state /\
  map (name_of (heap (store two_nodes_state))) (seriesNodes two_nodes_state)
  = ["A"%string; "B"%string] /\
  map SerieGanttNode.depth (seriesNodes two_nodes_state) = [1%nat; 2%nat] /\
  map SerieGanttNode.depth (seriesNodes two_nodes_state) <> [0%nat; 1%nat].
Proof. repeat split; discriminate. Qed.

End pass_examples.

(** ** Keys *)

Section keys.

Import Gantt GanttSpec.

Lemma preProcess_store_inv (fuel : nat) (rk : Key) (s : Store) (series : loc)
    (nodes : list Node) (s' : Store) :
  preProcess_store fuel rk s series = Some (nodes, s') ->
  exists root,
    hierarchy fuel (heap s) series = Some root /\
    nodes = List.filter (fun node => negb (bool_decide (key_of (heap s) node = rk)))
                        (eachBefore root) /\
    s' = fold_left assign nodes s.
Proof.
  unfold preProcess_store. destruct (hierarchy fuel (heap s) series) as [root|]; [|discriminate].
  cbn -[eachBefore List.filter fold_left]. intros [= <- <-]. eauto.
Qed.

Lemma preProcess_inv (fuel : nat) (series : loc) (st : State)
    (nodes : list Node) (st' : State) :
  preProcess fuel series st = Some (nodes, st') ->
  exists s', preProcess_store fuel (rootKEY st) (store st) series = Some (nodes, s') /\
             st' = set_store s' st.
Proof.
  unfold preProcess.
  destruct (preProcess_store fuel (rootKEY st) (store st) series) as [[ns s']|]; [|discriminate].
  simpl. intros [= <- <-]. eauto.
Qed.

Lemma pass_valid (fuel : nat) (rk : Key) (s : Store) (series : loc)
    (nodes : list Node) (s' : Store) :
  preProcess_store fuel rk s series = Some (nodes, s') ->
  forall n, In n nodes -> is_Some (heap s !! SerieGanttNode.data n).
Proof.
  intros Hpass n Hn. apply preProcess_store_inv in Hpass as (root & Hroot & -> & _).
  apply filter_In in Hn as [Hn _].
  eapply hierarchy_from_valid; eauto.
Qed.

Lemma pass_kept (fuel : nat) (rk : Key) (s : Store) (series : loc)
    (nodes : list Node) (s' : Store) :
  preProcess_store fuel rk s series = Some (nodes, s') ->
  forall n, In n nodes -> key_of (heap s) n <> rk.
Proof.
  intros Hpass n Hn. apply preProcess_store_inv in Hpass as (root & Hroot & -> & _).
  apply filter_In in Hn as [_ Hn].
  apply negb_true_iff, bool_decide_eq_false in Hn. exact Hn.
Qed.

(** The keys a pass writes were drawn during the pass. *)
Lemma pass_key_range (fuel : nat) (rk : Key) (s : Store) (series : loc)
    (nodes : list Node) (s' : Store) :
  preProcess_store fuel rk s series = Some (nodes, s') ->
  uuid s' = (uuid s + length nodes)%nat /\
  forall n, In n nodes ->
    exists j, key_of (heap s') n = KUuid j /\ (uuid s <= j < uuid s')%nat.
Proof.
  intros Hpass. pose proof (pass_valid _ _ _ _ _ _ Hpass) as Hvalid.
  apply preProcess_store_inv in Hpass as (root & Hroot & Hnodes & ->).
  split; [apply assign_fold_uuid|].
  intros n Hn. destruct (Hvalid n Hn) as [r Hr].
  destruct (assign_fold_fields nodes s _ r Hr) as (r' & Hr' & _ & _ & _ & Hin & _).
  destruct Hin as (_ & _ & j & Hj & Hk); [apply in_map; exact Hn|].
  exists j. split.
  - unfold key_of. rewrite (deref_Some _ _ _ Hr'). exact Hk.
  - rewrite assign_fold_uuid. exact Hj.
Qed.



End keys.

(** ** Clicks *)

Section clicks.

Import Gantt GanttSpec.

Lemma drawn_mono (k : Key) (s s' : Store) :
  (uuid s <= uuid s')%nat -> drawn k s -> drawn k s'.
Proof. intros Hle (r & Hr & Hlt). exists r. split; [exact Hr | lia]. Qed.

Lemma deref_None (h h' : Heap) (l : loc) :
  length h' = length h -> h !! l = None -> deref h' l = deref h l.
Proof.
  intros Hlen Hnone. unfold deref.
  assert (Hnone' : h' !! l = None).
  { apply lookup_ge_None. rewrite Hlen. apply lookup_ge_None. exact Hnone. }
  rewrite Hnone, Hnone'. reflexivity.
Qed.

(** What a pass keeps and what it changes, record by record. *)
Lemma pass_fields (fuel : nat) (rk : Key) (s : Store) (series : loc)
    (nodes : list Node) (s' : Store) :
  preProcess_store fuel rk s series = Some (nodes, s') ->
  forall l,
    let r := deref (heap s) l in
    let r' := deref (heap s') l in
    SerieGantt.name r' = SerieGantt.name r /\
    SerieGantt.data r' = SerieGantt.data r /\
    SerieGantt._data r' = SerieGantt._data r /\
    newDate (SerieGantt.start r') = newDate (SerieGantt.start r) /\
    newDate (SerieGantt.end_ r') = newDate (SerieGantt.end_ r) /\
    (In l (map SerieGanttNode.data nodes) ->
       SerieGantt.start r' = newDate (SerieGantt.start r) /\
       SerieGantt.end_ r' = newDate (SerieGantt.end_ r)) /\
    (drawn rk s -> (SerieGantt.key r' = rk <-> SerieGantt.key r = rk)).
Proof.
  intros Hpass l r r'.
  pose proof (pass_kept _ _ _ _ _ _ Hpass) as Hkept.
  pose proof (pass_valid _ _ _ _ _ _ Hpass) as Hvalid.
  apply preProcess_store_inv in Hpass as (root & _ & _ & Hs').
  destruct (heap s !! l) as [r0|] eqn:Hr0.
  - destruct (assign_fold_fields nodes s l r0 Hr0)
      as (r1 & Hr1 & Hname & Hdata & Hhid & Hin & Hout).
    assert (Hr : r = r0) by (apply deref_Some; exact Hr0).
    assert (Hr' : r' = r1) by (unfold r'; rewrite Hs'; apply deref_Some; exact Hr1).
    rewrite Hr, Hr'. clear Hr Hr'.
    split; [exact Hname|]. split; [exact Hdata|]. split; [exact Hhid|].
    destruct (in_dec Nat.eq_dec l (map SerieGanttNode.data nodes)) as [Hl|Hl].
    + destruct (Hin Hl) as (Hst & Hen & j & Hj & Hk).
      split; [rewrite Hst; apply newDate_idem|].
      split; [rewrite Hen; apply newDate_idem|].
      split; [intros _; split; assumption|].
      intros (r2 & -> & Hlt). rewrite Hk.
      apply in_map_iff in Hl as (n & Hn & Hnin).
      specialize (Hkept n Hnin). unfold key_of in Hkept. rewrite Hn in Hkept.
      rewrite (deref_Some _ _ _ Hr0) in Hkept.
      split; [intros [= ->]; lia | intros Heq; contradiction].
    + rewrite (Hout Hl). split; [reflexivity|]. split; [reflexivity|].
      split; [intros Hc; contradiction | intros _; reflexivity].
  - assert (Heq : r' = r).
    { unfold r', r. apply deref_None; [|exact Hr0].
      rewrite Hs'. apply assign_fold_length. }
    rewrite Heq. split; [reflexivity|]. split; [reflexivity|]. split; [reflexivity|].
    split; [reflexivity|]. split; [reflexivity|]. split; [|intros _; reflexivity].
    intros Hl. exfalso. apply in_map_iff in Hl as (n & Hn & Hnin).
    destruct (Hvalid n Hnin) as [r0 Hr0']. rewrite Hn, Hr0 in Hr0'. discriminate.
Qed.

Lemma toggle_fields (r : SerieGantt.t) :
  SerieGantt.name (toggle r) = SerieGantt.name r /\
  SerieGantt.start (toggle r) = SerieGantt.start r /\
  SerieGantt.end_ (toggle r) = SerieGantt.end_ r /\
  SerieGantt.key (toggle r) = SerieGantt.key r.
Proof. unfold toggle. destruct (truthy (SerieGantt.data r)); repeat split. Qed.

Lemma click_store_fields (node : Node) (s : Store) (l : loc) :
  let r := deref (heap s) l in
  let r' := deref (heap (click_store node s)) l in
  SerieGantt.name r' = SerieGantt.name r /\
  SerieGantt.start r' = SerieGantt.start r /\
  SerieGantt.end_ r' = SerieGantt.end_ r /\
  SerieGantt.key r' = SerieGantt.key r.
Proof.
  simpl. unfold deref. rewrite update_lookup.
  destruct (decide (SerieGanttNode.data node = l)) as [_|_]; [|repeat split].
  destruct (heap s !! l) as [r|]; simpl; [apply toggle_fields | repeat split].
Qed.

Lemma click_store_kids (node : Node) (s : Store) (l : loc) :
  kids (heap (click_store node s)) l
  = if decide (SerieGanttNode.data node = l)
    then (fun r => elements (SerieGantt.data (toggle r))) <$> heap s !! l
    else kids (heap s) l.
Proof.
  unfold kids. simpl. rewrite update_lookup.
  destruct (decide (SerieGanttNode.data node = l)); [|reflexivity].
  destruct (heap s !! l); reflexivity.
Qed.

Lemma renderGantt_frame (st : State) : exists d, renderGantt st = set_dom d st.
Proof.
  unfold renderGantt.
  destruct (bind_group _ _ _) as [m1 exit1].
  destruct (bind_data _ _ _) as [m2 slots].
  destruct (enter_all _ _ _ _) as [c2 n]. eauto.
Qed.

(** [go] always returns, and touches neither the records nor the node
    list. *)
Lemma go_frame (st : State) :
  exists st',
    go st = Some st' /\
    store st' = store st /\ seriesNodes st' = seriesNodes st /\
    serieSource st' = serieSource st /\ rootKEY st' = rootKEY st.
Proof.
  unfold go, compute, computeScale, computeAxis, render, renderAxis. simpl.
  match goal with
  | |- context [renderGantt ?x] => destruct (renderGantt_frame x) as (d & ->)
  end.
  eexists. split; [reflexivity|]. repeat split.
Qed.

(** A click, once the pass over the toggled heap is known. *)
Lemma click_pass (fuel : nat) (node : Node) (st : State) (series : loc)
    (nodes : list Node) (s' : Store) :
  serieSource st = Some series ->
  preProcess_store fuel (rootKEY st) (click_store node (store st)) series
  = Some (nodes, s') ->
  exists st',
    click fuel node st = Some st' /\
    store st' = s' /\ seriesNodes st' = nodes /\
    serieSource st' = Some series /\ rootKEY st' = rootKEY st.
Proof.
  intros Hsrc Hpass. unfold click. simpl. rewrite Hsrc. simpl.
  unfold preProcess. simpl. rewrite Hpass. simpl.
  match goal with
  | |- context [go ?x] => destruct (go_frame x) as (st' & -> & Hst & Hn & Hs & Hk)
  end.
  exists st'. split; [reflexivity|]. simpl in Hst, Hn, Hs, Hk.
  rewrite Hst, Hn, Hs, Hk, Hsrc. repeat split.
Qed.

Lemma pass_kids (fuel : nat) (rk : Key) (s : Store) (series : loc)
    (nodes : list Node) (s' : Store) :
  preProcess_store fuel rk s series = Some (nodes, s') ->
  forall l, kids (heap s') l = kids (heap s) l.
Proof.
  intros Hpass l. apply preProcess_store_inv in Hpass as (root & _ & _ & ->).
  apply assign_fold_kids.
Qed.

Lemma pass_length (fuel : nat) (rk : Key) (s : Store) (series : loc)
    (nodes : list Node) (s' : Store) :
  preProcess_store fuel rk s series = Some (nodes, s') ->
  length (heap s') = length (heap s).
Proof.
  intros Hpass. apply preProcess_store_inv in Hpass as (root & _ & _ & ->).
  apply assign_fold_length.
Qed.

Lemma pass_uuid (fuel : nat) (rk : Key) (s : Store) (series : loc)
    (nodes : list Node) (s' : Store) :
  preProcess_store fuel rk s series = Some (nodes, s') -> (uuid s <= uuid s')%nat.
Proof.
  intros Hpass. destruct (pass_key_range _ _ _ _ _ _ Hpass) as [-> _]. lia.
Qed.

Lemma deref_lookup (h : Heap) (l : loc) :
  is_Some (h !! l) -> h !! l = Some (deref h l).
Proof. intros [r Hr]. rewrite Hr. f_equal. symmetry. apply deref_Some, Hr. Qed.

Lemma filter_ext_all {A} (f g : A -> bool) (xs : list A) :
  (forall x, f x = g x) -> List.filter f xs = List.filter g xs.
Proof.
  intros Hfg. induction xs as [|x xs IH]; simpl; [reflexivity|].
  rewrite Hfg, IH. reflexivity.
Qed.

(** A second pass over links and root marks that are as before returns
    the same nodes. *)
Lemma pass_again (fuel : nat) (rk : Key) (s0 : Store) (series : loc)
    (nodes : list Node) (sa s2 : Store) :
  preProcess_store fuel rk s0 series = Some (nodes, sa) ->
  (forall l, kids (heap s2) l = kids (heap s0) l) ->
  (forall l, SerieGantt.key (deref (heap s2) l) = rk <->
             SerieGantt.key (deref (heap s0) l) = rk) ->
  exists s2', preProcess_store fuel rk s2 series = Some (nodes, s2').
Proof.
  intros Hpass Hkids Hmarks.
  apply preProcess_store_inv in Hpass as (root & Hroot & Hnodes & _).
  unfold preProcess_store, hierarchy.
  rewrite (hierarchy_from_ext (heap s2) (heap s0) Hkids). fold (hierarchy fuel (heap s0) series).
  rewrite Hroot. cbn -[eachBefore List.filter fold_left].
  eexists. f_equal. f_equal. rewrite Hnodes. apply filter_ext_all.
  intros n. f_equal. apply bool_decide_ext. unfold key_of. apply Hmarks.
Qed.

(** A pass over a heap with some links emptied still returns. *)
Lemma pass_prune (fuel : nat) (rk : Key) (s0 : Store) (series : loc)
    (nodes : list Node) (sa s1 : Store) :
  preProcess_store fuel rk s0 series = Some (nodes, sa) ->
  (forall l cs, kids (heap s0) l = Some cs ->
                kids (heap s1) l = Some cs \/ kids (heap s1) l = Some []) ->
  exists nodes1 s1', preProcess_store fuel rk s1 series = Some (nodes1, s1').
Proof.
  intros Hpass Hkids.
  apply preProcess_store_inv in Hpass as (root & Hroot & _ & _).
  unfold preProcess_store.
  destruct (hierarchy_from_prune (heap s0) (heap s1) Hkids fuel None 0%nat series)
    as [root1 Hroot1]; [unfold hierarchy in Hroot; eauto|].
  unfold hierarchy. rewrite Hroot1. cbn -[eachBefore List.filter fold_left]. eauto.
Qed.

Lemma truthy_Array (s : Slot) : truthy s = true -> exists xs, s = Array xs.
Proof. destruct s; try discriminate. eauto. Qed.

Lemma flattened_drawn (fuel : nat) (st : State) :
  flattened fuel st -> drawn (rootKEY st) (store st).
Proof.
  intros (s0 & series & _ & Hdrawn & Hpass).
  eapply drawn_mono; [eapply pass_uuid; exact Hpass | exact Hdrawn].
Qed.

Lemma click_from_pass (fuel : nat) (node : Node) (st : State) (series : loc)
    (nodes1 : list Node) (s1 : Store) :
  serieSource st = Some series ->
  drawn (rootKEY st) (store st) ->
  preProcess_store fuel (rootKEY st) (click_store node (store st)) series
  = Some (nodes1, s1) ->
  exists st1,
    click fuel node st = Some st1 /\
    store st1 = s1 /\ seriesNodes st1 = nodes1 /\
    serieSource st1 = Some series /\ rootKEY st1 = rootKEY st /\
    flattened fuel st1.
Proof.
  intros Hsrc Hdrawn Hpass.
  destruct (click_pass fuel node st series nodes1 s1 Hsrc Hpass)
    as (st1 & Hclick & Hst & Hn & Hs & Hk).
  exists st1. do 5 (split; [assumption|]).
  exists (click_store node (store st)), series.
  rewrite Hk, Hn, Hst. split; [exact Hs|]. split; [exact Hdrawn | exact Hpass].
Qed.

(** C8.  A click on the bar of a record that holds no children, visible
    or hidden, re-flattens to the very same node list; the name, start
    and end of every listed record are as before, and no record has
    other children in either slot than before, so the clicked record
    still has none. *)
Theorem click_childless (fuel : nat) (st : State) (node : Node)
    (Hflat : flattened fuel st)
    (Hnode : In node (seriesNodes st))
    (Hdata : elements (SerieGantt.data
               (deref (heap (store st)) (SerieGanttNode.data node))) = [])
    (Hhidden : elements (SerieGantt._data
                 (deref (heap (store st)) (SerieGanttNode.data node))) = []) :
  exists st1,
    click fuel node st = Some st1 /\
    seriesNodes st1 = seriesNodes st /\
    (forall n, In n (seriesNodes st) ->
       name_of (heap (store st1)) n = name_of (heap (store st)) n /\
       start_of (heap (store st1)) n = start_of (heap (store st)) n /\
       end_of (heap (store st1)) n = end_of (heap (store st)) n) /\
    (forall l,
       elements (SerieGantt.data (deref (heap (store st1)) l))
       = elements (SerieGantt.data (deref (heap (store st)) l)) /\
       elements (SerieGantt._data (deref (heap (store st1)) l))
       = elements (SerieGantt._data (deref (heap (store st)) l))) /\
    elements (SerieGantt.data
      (deref (heap (store st1)) (SerieGanttNode.data node))) = [] /\
    elements (SerieGantt._data
      (deref (heap (store st1)) (SerieGanttNode.data node))) = [].
Proof.
  pose proof (flattened_drawn fuel st Hflat) as Hdrawn.
  destruct Hflat as (s0 & series & Hsrc & Hdrawn0 & Hpass0).
  set (sa := store st) in *. set (l := SerieGanttNode.data node) in *.
  set (s1 := click_store node sa).
  assert (Hvalid : is_Some (heap sa !! l)).
  { apply lookup_lt_is_Some. rewrite (pass_length _ _ _ _ _ _ Hpass0).
    apply lookup_lt_is_Some. exact (pass_valid _ _ _ _ _ _ Hpass0 node Hnode). }
  (* the slots of the records after the toggle *)
  assert (Hslots : forall l',
            elements (SerieGantt.data (deref (heap s1) l'))
            = elements (SerieGantt.data (deref (heap sa) l')) /\
            elements (SerieGantt._data (deref (heap s1) l'))
            = elements (SerieGantt._data (deref (heap sa) l'))).
  { intros l'. unfold s1. simpl. destruct (decide (l = l')) as [<-|Hne].
    - rewrite (deref_update_eq _ _ _ Hvalid). unfold toggle.
      destruct (SerieGantt.data (deref (heap sa) l)) eqn:Hd; simpl;
        rewrite ?Hd, ?Hhidden; simpl in *; auto.
    - rewrite (deref_update_ne _ _ _ _ Hne). auto. }
  assert (Hkids1 : forall l', kids (heap s1) l' = kids (heap s0) l').
  { intros l'. rewrite <- (pass_kids _ _ _ _ _ _ Hpass0 l'). fold sa.
    unfold s1. rewrite click_store_kids.
    destruct (decide (SerieGanttNode.data node = l')) as [Heq|Hne]; [|reflexivity].
    subst l'. fold l. unfold kids. destruct Hvalid as [r Hr]. rewrite Hr. simpl. f_equal.
    pose proof (Hslots l) as [Hs _]. unfold s1 in Hs. simpl in Hs.
    rewrite (deref_update_eq _ _ _ (ex_intro _ r Hr)) in Hs.
    rewrite (deref_Some _ _ _ Hr) in Hs. exact Hs. }
  assert (Hmarks1 : forall l', SerieGantt.key (deref (heap s1) l') = rootKEY st <->
                               SerieGantt.key (deref (heap s0) l') = rootKEY st).
  { intros l'. destruct (click_store_fields node sa l') as (_ & _ & _ & Hk).
    fold s1 in Hk. rewrite Hk.
    apply (pass_fields _ _ _ _ _ _ Hpass0 l'). exact Hdrawn0. }
  destruct (pass_again _ _ _ _ _ _ s1 Hpass0 Hkids1 Hmarks1) as (s1' & Hpass1).
  destruct (click_from_pass fuel node st series _ s1' Hsrc Hdrawn Hpass1)
    as (st1 & Hclick & Hst & Hn & _).
  exists st1. split; [exact Hclick|]. split; [exact Hn|]. rewrite Hst.
  assert (Hslots1 : forall l',
            elements (SerieGantt.data (deref (heap s1') l'))
            = elements (SerieGantt.data (deref (heap sa) l')) /\
            elements (SerieGantt._data (deref (heap s1') l'))
            = elements (SerieGantt._data (deref (heap sa) l'))).
  { intros l'. destruct (pass_fields _ _ _ _ _ _ Hpass1 l') as (_ & Hd & Hh & _).
    cbv zeta in Hd, Hh. rewrite Hd, Hh. apply Hslots. }
  split; [|split; [exact Hslots1|split]].
  - intros n Hin. unfold name_of, start_of, end_of.
    set (l' := SerieGanttNode.data n).
    destruct (pass_fields _ _ _ _ _ _ Hpass1 l') as (Hname & _ & _ & _ & _ & Hdates & _).
    destruct (pass_fields _ _ _ _ _ _ Hpass0 l') as (_ & _ & _ & _ & _ & Hdates0 & _).
    destruct (click_store_fields node sa l') as (Hname1 & Hstart1 & Hend1 & _).
    fold s1 in Hname1, Hstart1, Hend1. simpl in *.
    destruct Hdates as [Hst1 Hen1]; [apply in_map; exact Hin|].
    destruct Hdates0 as [Hst0 Hen0]; [apply in_map; exact Hin|].
    fold sa in Hst0, Hen0.
    rewrite Hname, Hname1, Hst1, Hstart1, Hen1, Hend1, Hst0, Hen0, !newDate_idem.
    repeat split.
  - rewrite (proj1 (Hslots1 l)). exact Hdata.
  - rewrite (proj2 (Hslots1 l)). exact Hhidden.
Qed.

Lemma init_drawn (s : Store) : drawn (rootKEY (init s)) (store (init s)).
Proof. exists (uuid s). split; [reflexivity | simpl; lia]. Qed.

Lemma set_series_flattened (fuel : nat) (series : list loc) (st st' : State) :
  set_series fuel series st = Some st' ->
  drawn (rootKEY st) (store st) ->
  flattened fuel st' /\ rootKEY st' = rootKEY st.
Proof.
  unfold set_series. intros Hset Hdrawn.
  destruct (clone fuel (heap (store st)) series) as [[h1 copies]|]; [|discriminate].
  cbn -[preProcess] in Hset.
  match type of Hset with
  | context [preProcess fuel ?root ?st1] =>
      destruct (preProcess fuel root st1) as [[nodes st2]|] eqn:Hpass; [|discriminate]
  end.
  injection Hset as <-. apply preProcess_inv in Hpass as (s' & Hpass & ->).
  split; [|reflexivity].
  eexists _, _. simpl. split; [reflexivity|]. split; [|exact Hpass].
  destruct Hdrawn as (r & Hr & Hlt). exists r. split; [exact Hr | exact Hlt].
Qed.

Lemma go_flattened (fuel : nat) (st st' : State) :
  flattened fuel st -> go st = Some st' -> flattened fuel st'.
Proof.
  intros (s0 & series & Hsrc & Hdrawn & Hpass) Hgo.
  destruct (go_frame st) as (st'' & Hgo' & Hst & Hn & Hs & Hk).
  rewrite Hgo in Hgo'. injection Hgo' as <-.
  exists s0, series. rewrite Hk, Hn, Hst, Hs. auto.
Qed.

Lemma two_nodes_drawn_flattened : flattened 3 two_nodes_drawn.
Proof.
  apply (go_flattened 3 two_nodes_state); [|vm_compute; reflexivity].
  apply (set_series_flattened 3 [1%nat] (init caller_world)); [vm_compute; reflexivity|].
  apply init_drawn.
Qed.

End clicks.

Section click_examples.

Import Gantt GanttSpec.

(** A click on the bar of B, which has no children. *)
Lemma click_childless_witness :
  exists b st1,
    seriesNodes two_nodes_drawn !! 1%nat = Some b /\
    click 3 b two_nodes_drawn = Some st1 /\
    seriesNodes st1 = seriesNodes two_nodes_drawn /\
    map (name_of (heap (store st1))) (seriesNodes st1) = ["A"%string; "B"%string].
Proof.
  destruct (seriesNodes two_nodes_drawn !! 1%nat) as [b|] eqn:Hb; [|discriminate].
  assert (Hin : In b (seriesNodes two_nodes_drawn)).
  { apply list_elem_of_In. eapply list_elem_of_lookup_2. exact Hb. }
  injection Hb as Hb.
  destruct (click_childless 3 two_nodes_drawn b two_nodes_drawn_flattened Hin)
    as (st1 & Hclick & Hnodes & Hfields & _).
  - rewrite <- Hb. reflexivity.
  - rewrite <- Hb. reflexivity.
  - exists b, st1. split; [reflexivity|]. split; [exact Hclick|]. split; [exact Hnodes|].
    rewrite Hnodes.
    transitivity (map (name_of (heap (store two_nodes_drawn))) (seriesNodes two_nodes_drawn));
      [|reflexivity].
    apply map_ext_in. intros n Hn. apply (Hfields n Hn).
Defined.

End click_examples.

Section collapse.

Import Gantt GanttSpec.

(** C3.  From a flattened state, a click on a listed node whose record
    holds an array in [data] collapses it, and a second click on the bar
    of the same record expands it again: both clicks return, the second
    re-flattens to the very node list of before the first click, the
    same records in the same order, and every listed record has the name,
    start and end it had.  (The keys are redrawn by each pass.)  In the
    two-node chart a click on A leaves [A] and a second click gives
    [A, B] again. *)
Theorem collapse_expand (fuel : nat) (st : State) (node : Node)
    (Hflat : flattened fuel st)
    (Hnode : In node (seriesNodes st))
    (Hvisible : truthy (SerieGantt.data
                  (deref (heap (store st)) (SerieGanttNode.data node))) = true) :
  (exists st1 st2,
     click fuel node st = Some st1 /\
     (forall node', SerieGanttNode.data node' = SerieGanttNode.data node ->
                    click fuel node' st1 = Some st2) /\
     seriesNodes st2 = seriesNodes st /\
     (forall n, In n (seriesNodes st) ->
        name_of (heap (store st2)) n = name_of (heap (store st)) n /\
        start_of (heap (store st2)) n = start_of (heap (store st)) n /\
        end_of (heap (store st2)) n = end_of (heap (store st)) n)) /\
  (exists a st1 st2,
     head (seriesNodes two_nodes_drawn) = Some a /\
     map (name_of (heap (store two_nodes_drawn))) (seriesNodes two_nodes_drawn)
     = ["A"%string; "B"%string] /\
     click 3 a two_nodes_drawn = Some st1 /\
     map (name_of (heap (store st1))) (seriesNodes st1) = ["A"%string] /\
     click 3 a st1 = Some st2 /\
     map (name_of (heap (store st2))) (seriesNodes st2) = ["A"%string; "B"%string]).
Proof.
  split; [|do 3 eexists; repeat (split; [vm_compute; reflexivity|]);
            vm_compute; reflexivity].
  pose proof (flattened_drawn fuel st Hflat) as Hdrawn.
  destruct Hflat as (s0 & series & Hsrc & Hdrawn0 & Hpass0).
  set (sa := store st) in *. set (l := SerieGanttNode.data node) in *.
  set (rk := rootKEY st) in *.
  assert (Hvalid : is_Some (heap sa !! l)).
  { apply lookup_lt_is_Some. rewrite (pass_length _ _ _ _ _ _ Hpass0).
    apply lookup_lt_is_Some. exact (pass_valid _ _ _ _ _ _ Hpass0 node Hnode). }
  destruct Hvalid as [ra Hra]. rewrite (deref_Some _ _ _ Hra) in Hvisible.
  apply truthy_Array in Hvisible as [xs Hxs].
  (* the first click: the links of [l] are emptied *)
  set (s1 := click_store node sa).
  assert (Hkids1 : forall l', kids (heap s1) l'
            = if decide (l = l') then Some [] else kids (heap sa) l').
  { intros l'. unfold s1. rewrite click_store_kids. fold l.
    destruct (decide (l = l')) as [<-|]; [|reflexivity].
    rewrite Hra. simpl. unfold toggle. rewrite Hxs. reflexivity. }
  destruct (pass_prune fuel rk s0 series _ sa s1 Hpass0) as (nodes1 & s1' & Hpass1).
  { intros l' cs Hcs. rewrite Hkids1. destruct (decide (l = l')); [right; reflexivity|].
    left. rewrite (pass_kids _ _ _ _ _ _ Hpass0). exact Hcs. }
  destruct (click_from_pass fuel node st series nodes1 s1' Hsrc Hdrawn Hpass1)
    as (st1 & Hclick1 & Hst1 & Hn1 & Hsrc1 & Hrk1 & Hflat1).
  pose proof (flattened_drawn fuel st1 Hflat1) as Hdrawn1.
  (* the record of [l] when the second click comes *)
  assert (Hvalid1 : is_Some (heap s1' !! l)).
  { apply lookup_lt_is_Some. rewrite (pass_length _ _ _ _ _ _ Hpass1).
    unfold s1. simpl. rewrite update_length. eapply lookup_lt_Some, Hra. }
  destruct (pass_fields _ _ _ _ _ _ Hpass1 l) as (_ & Hd1 & Hh1 & _).
  cbv zeta in Hd1, Hh1.
  assert (Hl1 : deref (heap s1) l = toggle ra).
  { unfold s1. simpl. fold l. rewrite (deref_update_eq _ _ _ (ex_intro _ ra Hra)).
    rewrite (deref_Some _ _ _ Hra). reflexivity. }
  rewrite Hl1 in Hd1, Hh1. unfold toggle in Hd1, Hh1. rewrite Hxs in Hd1, Hh1.
  simpl in Hd1, Hh1.
  (* the second click: the links are as at the start *)
  assert (Hsecond : forall node', SerieGanttNode.data node' = l ->
            exists s2', preProcess_store fuel rk (click_store node' s1') series
                        = Some (seriesNodes st, s2')).
  { intros node' Hnode'. apply (pass_again fuel rk s0 series _ sa _ Hpass0).
    - intros l'. rewrite click_store_kids, Hnode'.
      rewrite <- (pass_kids _ _ _ _ _ _ Hpass0 l').
      destruct (decide (l = l')) as [<-|Hne].
      + rewrite (deref_lookup _ _ Hvalid1). simpl. unfold toggle. rewrite Hd1, Hh1. simpl.
        unfold kids. rewrite Hra. simpl. rewrite Hxs. reflexivity.
      + rewrite (pass_kids _ _ _ _ _ _ Hpass1 l'), Hkids1.
        destruct (decide (l = l')); [contradiction | reflexivity].
    - intros l'.
      destruct (click_store_fields node' s1' l') as (_ & _ & _ & ->).
      destruct (pass_fields _ _ _ _ _ _ Hpass1 l') as (_ & _ & _ & _ & _ & _ & Hm1).
      rewrite (Hm1 (drawn_mono _ _ _ (Nat.le_refl _) Hdrawn)).
      destruct (click_store_fields node sa l') as (_ & _ & _ & Hk). fold s1 in Hk.
      rewrite Hk.
      apply (pass_fields _ _ _ _ _ _ Hpass0 l'). exact Hdrawn0. }
  destruct (Hsecond node eq_refl) as (s2' & Hpass2).
  assert (Hclick2 : exists st2,
            (forall node', SerieGanttNode.data node' = l ->
                           click fuel node' st1 = Some st2) /\
            store st2 = s2' /\ seriesNodes st2 = seriesNodes st).
  { rewrite <- Hst1 in Hpass2. unfold rk in Hpass2. rewrite <- Hrk1 in Hpass2.
    destruct (click_from_pass fuel node st1 series _ s2' Hsrc1 Hdrawn1 Hpass2)
      as (st2 & Hclick2 & Hst2 & Hn2 & _).
    exists st2. split; [|split; assumption].
    intros node' Hnode'. rewrite <- Hclick2. unfold click, click_store.
    rewrite Hnode'. reflexivity. }
  destruct Hclick2 as (st2 & Hclick2 & Hst2 & Hn2).
  exists st1, st2. split; [exact Hclick1|].
  split; [exact Hclick2|]. split; [exact Hn2|].
  intros n Hin. rewrite Hst2. unfold name_of, start_of, end_of.
  set (l' := SerieGanttNode.data n).
  destruct (pass_fields _ _ _ _ _ _ Hpass2 l') as (Hname2 & _ & _ & _ & _ & Hdates2 & _).
  destruct (pass_fields _ _ _ _ _ _ Hpass1 l') as (Hname1 & _ & _ & Hs1 & He1 & _).
  destruct (pass_fields _ _ _ _ _ _ Hpass0 l') as (_ & _ & _ & _ & _ & Hdates0 & _).
  destruct (click_store_fields node s1' l') as (Hn2' & Hs2' & He2' & _).
  destruct (click_store_fields node sa l') as (Hn1' & Hs1' & He1' & _).
  fold s1 in Hn1', Hs1', He1'. cbv zeta in *.
  destruct Hdates2 as [Hst2' Hen2']; [apply in_map; exact Hin|].
  destruct Hdates0 as [Hst0 Hen0]; [apply in_map; exact Hin|].
  rewrite Hname2, Hn2', Hname1, Hn1'.
  rewrite Hst2', Hs2', Hs1, Hs1', Hen2', He2', He1, He1'.
  rewrite Hst0, Hen0, !newDate_idem. repeat split.
Qed.

End collapse.

Section collapse_examples.

Import Gantt GanttSpec.

Lemma collapse_expand_witness :
  exists a st1 st2,
    head (seriesNodes two_nodes_drawn) = Some a /\
    click 3 a two_nodes_drawn = Some st1 /\
    click 3 a st1 = Some st2 /\
    seriesNodes st2 = seriesNodes two_nodes_drawn.
Proof.
  destruct (head (seriesNodes two_nodes_drawn)) as [a|] eqn:Ha; [|discriminate].
  injection Ha as Ha.
  assert (Hin : In a (seriesNodes two_nodes_drawn)) by (rewrite <- Ha; left; reflexivity).
  assert (Hvis : truthy (SerieGantt.data
             (deref (heap (store two_nodes_drawn)) (SerieGanttNode.data a))) = true)
    by (rewrite <- Ha; reflexivity).
  destruct (collapse_expand 3 two_nodes_drawn a two_nodes_drawn_flattened Hin Hvis)
    as ((st1 & st2 & Hc1 & Hc2 & Hnodes & _) & _).
  exists a, st1, st2. split; [reflexivity|]. split; [exact Hc1|].
  split; [apply Hc2; reflexivity | exact Hnodes].
Defined.

End collapse_examples.

(** ** The keyed join *)

Section join.

Import Gantt GanttSpec.

Variable key : Node -> Key.

Lemma first_with_In (k : Key) (group : list Rect) (r : Rect) :
  first_with key k group = Some r -> In r group /\ key (datum r) = k.
Proof.
  unfold first_with. intros Hf. apply find_some in Hf as [Hin Hk].
  apply bool_decide_eq_true in Hk. auto.
Qed.

Lemma first_with_None (k : Key) (group : list Rect) :
  first_with key k group = None <-> ~ In k (map (fun r => key (datum r)) group).
Proof.
  unfold first_with. split.
  - intros Hnone Hin. apply in_map_iff in Hin as (r & Hk & Hr).
    pose proof (find_none _ _ Hnone r Hr) as Hf. simpl in Hf.
    apply bool_decide_eq_false in Hf. contradiction.
  - intros Hnot. destruct (List.find _ group) as [r|] eqn:Hf; [|reflexivity].
    exfalso. apply find_some in Hf as [Hin Hk]. apply bool_decide_eq_true in Hk.
    apply Hnot, in_map_iff. eauto.
Qed.

(** The first loop: the map afterwards. *)
Lemma bind_group_map (group : list Rect) :
  forall (m m' : gmap Key Rect) (exit : list (option Rect)),
  bind_group key m group = (m', exit) ->
  forall k, m' !! k = match m !! k with
                     | Some r0 => Some r0
                     | None => first_with key k group
                     end.
Proof.
  induction group as [|node rest IH]; intros m m' exit Hb k; simpl in Hb.
  - injection Hb as <- <-. destruct (m !! k); reflexivity.
  - destruct (m !! key (datum node)) as [r0|] eqn:Hm.
    + destruct (bind_group key m rest) as [m1 e1] eqn:Hrest. injection Hb as <- <-.
      rewrite (IH _ _ _ Hrest k). destruct (m !! k) as [r1|] eqn:Hk; [reflexivity|].
      unfold first_with. simpl.
      destruct (bool_decide (key (datum node) = k)) eqn:Hd; [|reflexivity].
      apply bool_decide_eq_true in Hd. congruence.
    + destruct (bind_group key (<[key (datum node) := node]> m) rest) as [m1 e1] eqn:Hrest.
      injection Hb as <- <-. rewrite (IH _ _ _ Hrest k).
      destruct (decide (key (datum node) = k)) as [<-|Hne].
      * rewrite lookup_insert_eq, Hm. unfold first_with. simpl.
        rewrite bool_decide_eq_true_2 by reflexivity. reflexivity.
      * rewrite lookup_insert_ne by exact Hne.
        destruct (m !! k); [reflexivity|]. unfold first_with. simpl.
        rewrite bool_decide_eq_false_2 by exact Hne. reflexivity.
Qed.

(** The first loop: an element exits at once unless it is the one
    registered under its key. *)
Lemma bind_group_exit (group : list Rect) :
  forall (m m' : gmap Key Rect) (exit : list (option Rect)),
  bind_group key m group = (m', exit) ->
  List.NoDup (map eid group) ->
  (forall k r0, m !! k = Some r0 -> ~ In (eid r0) (map eid group)) ->
  exit = map (fun r => if owner key m' r then None else Some r) group.
Proof.
  induction group as [|node rest IH]; intros m m' exit Hb Hnd Hreg; simpl in Hb.
  - injection Hb as <- <-. reflexivity.
  - inversion Hnd as [|? ? Hnotin Hnd']; subst.
    destruct (m !! key (datum node)) as [r0|] eqn:Hm.
    + destruct (bind_group key m rest) as [m1 e1] eqn:Hrest. injection Hb as <- <-.
      simpl. f_equal.
      * unfold owner. rewrite (bind_group_map _ _ _ _ Hrest), Hm.
        rewrite bool_decide_eq_false_2; [reflexivity|].
        intros Heq. apply (Hreg _ _ Hm). left. symmetry. exact Heq.
      * apply (IH _ _ _ Hrest Hnd').
        intros k r1 Hk Hin. apply (Hreg _ _ Hk). right. exact Hin.
    + destruct (bind_group key (<[key (datum node) := node]> m) rest) as [m1 e1] eqn:Hrest.
      injection Hb as <- <-. simpl. f_equal.
      * unfold owner. rewrite (bind_group_map _ _ _ _ Hrest), lookup_insert_eq.
        rewrite bool_decide_eq_true_2 by reflexivity. reflexivity.
      * apply (IH _ _ _ Hrest Hnd').
        intros k r1 Hk Hin. destruct (decide (key (datum node) = k)) as [<-|Hne].
        -- rewrite lookup_insert_eq in Hk. injection Hk as <-. contradiction.
        -- rewrite lookup_insert_ne in Hk by exact Hne.
           apply (Hreg _ _ Hk). right. exact Hin.
Qed.

(** The second loop. *)
Lemma bind_data_spec (data : list Node) :
  forall (m m' : gmap Key Rect) (slots : list (Rect + Node)),
  bind_data key m data = (m', slots) ->
  map slot_datum slots = data /\
  (forall k, In k (map key data) -> m' !! k = None) /\
  (forall k, ~ In k (map key data) -> m' !! k = m !! k) /\
  (forall r, In r (updates slots) ->
     exists r0, m !! key (datum r) = Some r0 /\ r = rebind r0 (datum r)) /\
  List.NoDup (map (fun r => key (datum r)) (updates slots)) /\
  (forall k r0, m !! k = Some r0 -> In k (map key data) ->
     exists r, In r (updates slots) /\ key (datum r) = k /\ eid r = eid r0).
Proof.
  induction data as [|d rest IH]; intros m m' slots Hb; simpl in Hb.
  - injection Hb as <- <-. simpl. repeat split; try (intros; contradiction); auto.
    constructor.
  - destruct (m !! key d) as [node|] eqn:Hm.
    + destruct (bind_data key (delete (key d) m) rest) as [m1 slots1] eqn:Hrest.
      injection Hb as <- <-.
      destruct (IH _ _ _ Hrest) as (Hdat & Hin & Hout & Hupd & Hnd & Hcov).
      simpl. split; [f_equal; exact Hdat|]. split; [|split; [|split; [|split]]].
      * intros k [<-|Hk].
        -- destruct (in_dec (decide_rel eq) (key d) (map key rest)) as [Hr|Hr]; [auto|].
           rewrite (Hout _ Hr). apply lookup_delete_eq.
        -- auto.
      * intros k Hk. rewrite Hout by (intros Hr; apply Hk; right; exact Hr).
        apply lookup_delete_ne. intros Heq. apply Hk. left. exact Heq.
      * intros r [<-|Hr].
        -- exists node. simpl. split; [exact Hm | reflexivity].
        -- destruct (Hupd r Hr) as (r0 & Hr0 & Heq). exists r0. split; [|exact Heq].
           apply lookup_delete_Some in Hr0 as [_ Hr0]. exact Hr0.
      * constructor; [|exact Hnd]. simpl. intros Hk.
        apply in_map_iff in Hk as (r & Hkr & Hr).
        destruct (Hupd r Hr) as (r0 & Hr0 & _). rewrite Hkr in Hr0.
        rewrite lookup_delete_eq in Hr0. discriminate.
      * intros k r0 Hk Hkin. destruct (decide (key d = k)) as [<-|Hne].
        -- exists (rebind node d). simpl. split; [left; reflexivity|].
           split; [reflexivity|]. congruence.
        -- destruct Hkin as [Heq|Hkin]; [contradiction|].
           destruct (Hcov k r0) as (r & Hr & Hkr & He); [|exact Hkin|].
           ++ rewrite lookup_delete_ne by exact Hne. exact Hk.
           ++ exists r. split; [right; exact Hr | split; assumption].
    + destruct (bind_data key m rest) as [m1 slots1] eqn:Hrest.
      injection Hb as <- <-.
      destruct (IH _ _ _ Hrest) as (Hdat & Hin & Hout & Hupd & Hnd & Hcov).
      simpl. split; [f_equal; exact Hdat|]. split; [|split; [|split; [|split]]].
      * intros k [<-|Hk]; [|auto].
        destruct (in_dec (decide_rel eq) (key d) (map key rest)) as [Hr|Hr]; [auto|].
        rewrite (Hout _ Hr). exact Hm.
      * intros k Hk. apply Hout. intros Hr. apply Hk. right. exact Hr.
      * exact Hupd.
      * exact Hnd.
      * intros k r0 Hk [Heq|Hkin]; [congruence|]. apply (Hcov k r0 Hk Hkin).
Qed.

End join.

(** ** The children of the layer *)

Section children.

Import Gantt GanttSpec.

Lemma replace_eids (r : Rect) (c : list Rect) : map eid (replace r c) = map eid c.
Proof.
  unfold replace. rewrite map_map. apply map_ext_in. intros y _.
  destruct (bool_decide (eid y = eid r)) eqn:Hd; [|reflexivity].
  apply bool_decide_eq_true in Hd. congruence.
Qed.

Lemma replace_In (r : Rect) (c : list Rect) (x : Rect) :
  In x (replace r c) <->
  (x = r /\ In (eid r) (map eid c)) \/ (In x c /\ eid x <> eid r).
Proof.
  unfold replace. rewrite in_map_iff. split.
  - intros (y & Hy & Hin). destruct (bool_decide (eid y = eid r)) eqn:Hd.
    + apply bool_decide_eq_true in Hd. left. split; [congruence|].
      rewrite <- Hd. apply in_map. exact Hin.
    + apply bool_decide_eq_false in Hd. right. subst y. auto.
  - intros [[-> Hin]|[Hin Hne]].
    + apply in_map_iff in Hin as (y & Hy & Hin). exists y.
      rewrite bool_decide_eq_true_2 by exact Hy. auto.
    + exists x. rewrite bool_decide_eq_false_2 by exact Hne. auto.
Qed.

Lemma update_all_eids (st : State) (slots : list (Rect + Node)) :
  forall c, map eid (update_all st slots c) = map eid c.
Proof.
  unfold update_all. induction slots as [|[r|d] rest IH]; intros c; simpl;
    [reflexivity| |apply IH].
  rewrite IH. apply replace_eids.
Qed.

Lemma update_all_In (st : State) (slots : list (Rect + Node)) :
  forall (c : list Rect) (x : Rect),
  List.NoDup (map eid (updates slots)) ->
  (forall r, In r (updates slots) -> In (eid r) (map eid c)) ->
  (In x (update_all st slots c) <->
   (exists r, In r (updates slots) /\ x = toTarget st r) \/
   (In x c /\ ~ In (eid x) (map eid (updates slots)))).
Proof.
  induction slots as [|[r|d] rest IH]; intros c x Hnd Hsub.
  - simpl. split; [intros Hin; right; split; [exact Hin | intros []]|].
    intros [(r & [] & _)|[Hin _]]. exact Hin.
  - simpl in Hnd. inversion Hnd as [|? ? Hnotin Hnd']; subst.
    change (update_all st (inl r :: rest) c)
      with (update_all st rest (replace (toTarget st r) c)).
    rewrite IH; [|exact Hnd'|].
    2:{ intros r' Hr'. rewrite replace_eids. apply Hsub. right. exact Hr'. }
    rewrite replace_In. simpl. split.
    + intros [(r' & Hr' & ->)|[[[-> _]|[Hin Hne]] Hnot]].
      * left. exists r'. auto.
      * left. exists r. auto.
      * right. split; [exact Hin|]. intros [Heq|Hin']; [|contradiction].
        apply Hne. simpl. symmetry. exact Heq.
    + intros [(r' & [<-|Hr'] & ->)|[Hin Hnot]].
      * right. split; [|exact Hnotin]. left. split; [reflexivity|].
        apply Hsub. left. reflexivity.
      * left. exists r'. auto.
      * right. split.
        -- right. split; [exact Hin|]. simpl. intros Heq. apply Hnot. left.
           symmetry. exact Heq.
        -- intros Hin'. apply Hnot. right. exact Hin'.
  - simpl. apply IH; assumption.
Qed.

Lemma insertBefore_In (child : Rect) (next : option nat) (c : list Rect) (x : Rect) :
  In x (insertBefore child next c) <-> x = child \/ In x c.
Proof.
  induction c as [|y c IH]; simpl.
  - intuition.
  - destruct (bool_decide (next = Some (eid y))); simpl; [intuition|].
    rewrite IH. intuition.
Qed.

Lemma enter_all_In (st : State) (slots : list (Rect + Node)) :
  forall (id : nat) (c : list Rect) (x : Rect),
  In x (fst (enter_all st slots id c)) <-> In x c \/ In x (entered st slots id).
Proof.
  induction slots as [|[r|d] rest IH]; intros id c x; simpl.
  - intuition.
  - apply IH.
  - rewrite IH, insertBefore_In. intuition.
Qed.

Lemma enter_all_created (st : State) (slots : list (Rect + Node)) :
  forall (id : nat) (c : list Rect),
  snd (enter_all st slots id c) = (id + length (entered st slots id))%nat.
Proof.
  induction slots as [|[r|d] rest IH]; intros id c; simpl.
  - lia.
  - apply IH.
  - rewrite IH. lia.
Qed.

Lemma entered_eids (st : State) (slots : list (Rect + Node)) :
  forall id, map eid (entered st slots id) = seq id (length (entered st slots id)).
Proof.
  induction slots as [|[r|d] rest IH]; intros id; simpl;
    [reflexivity | apply IH | f_equal; apply IH].
Qed.

Lemma remove_In (r : Rect) (c : list Rect) (x : Rect) :
  In x (remove r c) <-> In x c /\ eid x <> eid r.
Proof.
  unfold remove. rewrite filter_In, negb_true_iff. split.
  - intros [Hin Hd]. apply bool_decide_eq_false in Hd. auto.
  - intros [Hin Hne]. split; [exact Hin | apply bool_decide_eq_false_2, Hne].
Qed.

Lemma exit_all_In (exit : list (option Rect)) :
  forall (c : list Rect) (x : Rect),
  In x (exit_all exit c) <-> In x c /\ ~ In (eid x) (map eid (exits exit)).
Proof.
  unfold exit_all. induction exit as [|[r|] rest IH]; intros c x; simpl.
  - intuition.
  - rewrite IH, remove_In. intuition.
  - apply IH.
Qed.

Lemma bars_In (st : State) (slots : list (Rect + Node)) :
  forall (id : nat) (x : Rect),
  In x (bars st slots id) <->
  (exists r, In r (updates slots) /\ x = toTarget st r) \/ In x (entered st slots id).
Proof.
  induction slots as [|[r|d] rest IH]; intros id x; simpl.
  - split; [intros [] | intros [(r & [] & _)|[]]].
  - rewrite IH. split.
    + intros [<-|[(r' & Hr' & ->)|Hin]]; eauto.
    + intros [(r' & [<-|Hr'] & ->)|Hin]; eauto.
  - rewrite IH. split.
    + intros [<-|[(r' & Hr' & ->)|Hin]]; eauto.
    + intros [(r' & Hr' & ->)|[<-|Hin]]; eauto.
Qed.

Lemma bars_datum (st : State) (slots : list (Rect + Node)) :
  forall id, map datum (bars st slots id) = map slot_datum slots.
Proof.
  induction slots as [|[r|d] rest IH]; intros id; simpl;
    [reflexivity | f_equal; apply IH | f_equal; apply IH].
Qed.

End children.

(** ** A render of the bars *)

Section render.

Import Gantt GanttSpec.

Lemma renderGantt_layer (st : State) :
  let key := key_of (heap (store st)) in
  let group := ganttLayer (dom st) in
  let b1 := bind_group key ∅ group in
  let b2 := bind_data key (fst b1) (seriesNodes st) in
  let e := enter_all st (snd b2) (created (dom st)) (update_all st (snd b2) group) in
  ganttLayer (dom (renderGantt st))
  = exit_all (bind_exit key (fst b2) group (snd b1)) (fst e) /\
  created (dom (renderGantt st)) = snd e /\
  snd b2 = joined st.
Proof.
  unfold renderGantt, joined. simpl.
  destruct (bind_group _ _ _) as [m1 exit1]. simpl.
  destruct (bind_data _ _ _) as [m2 slots]. simpl.
  destruct (enter_all _ _ _ _) as [c2 n]. simpl. repeat split.
Qed.

Lemma updates_In (slots : list (Rect + Node)) (r : Rect) :
  In r (updates slots) <-> In (inl r) slots.
Proof.
  induction slots as [|[r'|d] rest IH]; simpl.
  - tauto.
  - rewrite IH. split; [intros [->|H]; auto | intros [[= ->]|H]; auto].
  - rewrite IH. split; [auto | intros [[=]|H]; auto].
Qed.

Lemma exits_map (h : Rect -> option Rect) (l : list Rect) (x : Rect) :
  In x (exits (map h l)) <-> exists r, In r l /\ h r = Some x.
Proof.
  induction l as [|r l IH]; simpl.
  - split; [intros [] | intros (r & [] & _)].
  - destruct (h r) as [y|] eqn:Hr; simpl; rewrite IH.
    + split.
      * intros [<-|(r' & Hin & Hr')]; [exists r; auto | exists r'; auto].
      * intros (r' & [<-|Hin] & Hr'); [left; congruence | right; eauto].
    + split.
      * intros (r' & Hin & Hr'). exists r'. auto.
      * intros (r' & [<-|Hin] & Hr'); [congruence | eauto].
Qed.

Lemma zip_with_map_r {A B C} (f : A -> B -> C) (g : A -> B) (l : list A) :
  zip_with f l (map g l) = map (fun a => f a (g a)) l.
Proof. induction l as [|a l IH]; simpl; [reflexivity | f_equal; exact IH]. Qed.

Lemma eid_inj (group : list Rect) (r r' : Rect) :
  List.NoDup (map eid group) -> In r group -> In r' group -> eid r = eid r' -> r = r'.
Proof.
  induction group as [|y group IH]; simpl; [intros _ []|].
  intros Hnd. inversion Hnd as [|? ? Hnotin Hnd']; subst.
  intros [<-|Hr] [<-|Hr'] Heq; auto.
  - exfalso. apply Hnotin. rewrite Heq. apply in_map. exact Hr'.
  - exfalso. apply Hnotin. rewrite <- Heq. apply in_map. exact Hr.
Qed.

Lemma NoDup_map_coarser {A B C} (f : A -> B) (g : A -> C) (l : list A) :
  List.NoDup (map f l) ->
  (forall x y, In x l -> In y l -> g x = g y -> f x = f y) ->
  List.NoDup (map g l).
Proof.
  induction l as [|a l IH]; simpl; intros Hnd Hfg; [constructor|].
  inversion Hnd as [|? ? Hnotin Hnd']; subst. constructor.
  - intros Hin. apply in_map_iff in Hin as (y & Hy & Hin).
    apply Hnotin. rewrite <- (Hfg y a); auto. apply in_map. exact Hin.
  - apply IH; auto.
Qed.

(** What the join of a render knows about its slots. *)
Lemma joined_spec (st : State) :
  let key := key_of (heap (store st)) in
  let group := ganttLayer (dom st) in
  List.NoDup (map eid group) ->
  map slot_datum (joined st) = seriesNodes st /\
  (forall r, In r (updates (joined st)) ->
     exists r0, In r0 group /\ first_with key (key (datum r)) group = Some r0 /\
                r = rebind r0 (datum r) /\ In (datum r) (seriesNodes st)) /\
  List.NoDup (map eid (updates (joined st))) /\
  (forall k r0, first_with key k group = Some r0 -> In k (map key (seriesNodes st)) ->
     exists r, In r (updates (joined st)) /\ key (datum r) = k /\ r = rebind r0 (datum r)) /\
  (forall y, In y (exits (bind_exit key
                     (fst (bind_data key (fst (bind_group key ∅ group)) (seriesNodes st)))
                     group (snd (bind_group key ∅ group)))) <->
             In y group /\ ~ In (eid y) (map eid (updates (joined st)))).
Proof.
  intros key group Hnd. unfold joined. fold key group.
  destruct (bind_group key ∅ group) as [m1 exit1] eqn:Hb1. cbn [fst snd].
  destruct (bind_data key m1 (seriesNodes st)) as [m2 slots] eqn:Hb2. cbn [fst snd].
  assert (Hm1 : forall k, m1 !! k = first_with key k group).
  { intros k. rewrite (bind_group_map key _ _ _ _ Hb1 k), lookup_empty. reflexivity. }
  assert (Hexit1 : exit1 = map (fun r => if owner key m1 r then None else Some r) group).
  { apply (bind_group_exit key _ _ _ _ Hb1 Hnd). intros k r0 Hk.
    rewrite lookup_empty in Hk. discriminate. }
  destruct (bind_data_spec key _ _ _ _ Hb2) as (Hdat & Hin & Hout & Hupd & Hndk & Hcov).
  assert (Hu : forall r, In r (updates slots) ->
            exists r0, In r0 group /\ first_with key (key (datum r)) group = Some r0 /\
                       r = rebind r0 (datum r) /\ In (datum r) (seriesNodes st)).
  { intros r Hr. destruct (Hupd r Hr) as (r0 & Hr0 & Heq). rewrite Hm1 in Hr0.
    exists r0. split; [apply (first_with_In key _ _ _ Hr0)|].
    split; [exact Hr0|]. split; [exact Heq|].
    rewrite <- Hdat. apply updates_In in Hr.
    change (datum r) with (slot_datum (inl r)). apply in_map. exact Hr. }
  assert (Hcov' : forall k r0, first_with key k group = Some r0 ->
            In k (map key (seriesNodes st)) ->
            exists r, In r (updates slots) /\ key (datum r) = k /\ r = rebind r0 (datum r)).
  { intros k r0 Hk Hkin. rewrite <- Hm1 in Hk.
    destruct (Hcov k r0 Hk Hkin) as (r & Hr & Hkr & He).
    exists r. split; [exact Hr|]. split; [exact Hkr|].
    destruct (Hupd r Hr) as (r1 & Hr1 & Heq). rewrite Hkr, Hk in Hr1.
    injection Hr1 as <-. exact Heq. }
  split; [exact Hdat|]. split; [exact Hu|]. split; [|split; [exact Hcov'|]].
  - apply (NoDup_map_coarser (fun r => key (datum r))); [exact Hndk|].
    intros r r' Hr Hr' Heq.
    destruct (Hu r Hr) as (r0 & Hg0 & Hf0 & He0 & _).
    destruct (Hu r' Hr') as (r0' & Hg0' & Hf0' & He0' & _).
    assert (Hsame : r0 = r0').
    { apply (eid_inj group); auto. rewrite He0, He0' in Heq. exact Heq. }
    subst r0'. apply (first_with_In key) in Hf0 as [_ <-].
    apply (first_with_In key) in Hf0' as [_ <-]. reflexivity.
  - intros y. rewrite Hexit1. unfold bind_exit. rewrite zip_with_map_r, exits_map.
    split.
    + intros (r & Hr & Hy).
      assert (Hyr : y = r).
      { destruct (owner key m1 r); [|congruence].
        destruct (m2 !! key (datum r)) as [r'|]; [|discriminate].
        destruct (bool_decide (eid r' = eid r)); congruence. }
      subst y. split; [exact Hr|]. intros Hin'.
      apply in_map_iff in Hin' as (u & Heu & Hu').
      destruct (Hu u Hu') as (r0 & Hg0 & Hf0 & He0 & Hd0).
      assert (r0 = r) by (apply (eid_inj group); auto; rewrite He0 in Heu; exact Heu).
      subst r0. pose proof (first_with_In key _ _ _ Hf0) as [_ Hk].
      assert (Hown : owner key m1 r = true).
      { unfold owner. rewrite Hk, Hm1, Hf0. apply bool_decide_eq_true_2. reflexivity. }
      rewrite Hown in Hy.
      rewrite Hk, Hin in Hy; [discriminate|]. apply in_map. exact Hd0.
    + intros [Hy Hnot]. exists y. split; [exact Hy|].
      destruct (owner key m1 y) eqn:Hown; [|reflexivity].
      unfold owner in Hown. rewrite Hm1 in Hown.
      destruct (first_with key (key (datum y)) group) as [r0|] eqn:Hf0; [|discriminate].
      apply bool_decide_eq_true in Hown.
      assert (r0 = y) by (apply (eid_inj group); auto; apply (first_with_In key _ _ _ Hf0)).
      subst r0.
      destruct (in_dec (decide_rel eq) (key (datum y)) (map key (seriesNodes st)))
        as [Hk|Hk].
      * exfalso. destruct (Hcov' _ _ Hf0 Hk) as (r & Hr & _ & Heq).
        apply Hnot. apply in_map_iff. exists r. split; [rewrite Heq; reflexivity | exact Hr].
      * rewrite (Hout _ Hk), Hm1, Hf0.
        rewrite bool_decide_eq_true_2 by reflexivity. reflexivity.
Qed.

Lemma NoDup_map_filter {A B} (f : A -> B) (p : A -> bool) (l : list A) :
  List.NoDup (map f l) -> List.NoDup (map f (List.filter p l)).
Proof.
  induction l as [|a l IH]; simpl; intros Hnd; [constructor|].
  inversion Hnd as [|? ? Hnotin Hnd']; subst.
  destruct (p a); simpl; [|auto]. constructor; [|auto].
  intros Hin. apply Hnotin. apply in_map_iff in Hin as (y & Hy & Hin).
  apply filter_In in Hin as [Hin _]. apply in_map_iff. eauto.
Qed.

Lemma exit_all_NoDup (exit : list (option Rect)) :
  forall c, List.NoDup (map eid c) -> List.NoDup (map eid (exit_all exit c)).
Proof.
  unfold exit_all. induction exit as [|[r|] rest IH]; intros c Hnd; simpl; auto.
  apply IH. unfold remove. apply NoDup_map_filter. exact Hnd.
Qed.

Lemma insertBefore_NoDup (child : Rect) (next : option nat) (c : list Rect) :
  List.NoDup (map eid c) -> ~ In (eid child) (map eid c) ->
  List.NoDup (map eid (insertBefore child next c)).
Proof.
  induction c as [|y c IH]; simpl; intros Hnd Hnot.
  - constructor; [intros [] | constructor].
  - destruct (bool_decide (next = Some (eid y))); simpl.
    + constructor; assumption.
    + inversion Hnd as [|? ? Hnotin Hnd']; subst. constructor.
      * intros Hin. apply in_map_iff in Hin as (z & Hz & Hin).
        apply insertBefore_In in Hin as [->|Hin].
        -- apply Hnot. left. symmetry. exact Hz.
        -- apply Hnotin. rewrite <- Hz. apply in_map. exact Hin.
      * apply IH; [exact Hnd'|]. intros Hin. apply Hnot. right. exact Hin.
Qed.

Lemma enter_all_NoDup (st : State) (slots : list (Rect + Node)) :
  forall (id : nat) (c : list Rect),
  List.NoDup (map eid c) -> (forall y, In y c -> (eid y < id)%nat) ->
  List.NoDup (map eid (fst (enter_all st slots id c))) /\
  (forall y, In y (fst (enter_all st slots id c)) ->
             (eid y < snd (enter_all st slots id c))%nat).
Proof.
  induction slots as [|[r|d] rest IH]; intros id c Hnd Hlt; simpl.
  - auto.
  - apply IH; assumption.
  - apply IH.
    + apply insertBefore_NoDup; [exact Hnd|]. simpl. intros Hin.
      apply in_map_iff in Hin as (y & Hy & Hin). specialize (Hlt y Hin). lia.
    + intros y Hin. apply insertBefore_In in Hin as [->|Hin]; [simpl; lia|].
      specialize (Hlt y Hin). lia.
Qed.

Lemma bars_NoDup (st : State) (slots : list (Rect + Node)) :
  forall id,
  List.NoDup (map eid (updates slots)) ->
  (forall r, In r (updates slots) -> (eid r < id)%nat) ->
  List.NoDup (map eid (bars st slots id)).
Proof.
  induction slots as [|[r|d] rest IH]; intros id Hnd Hlt; simpl.
  - constructor.
  - simpl in Hnd. inversion Hnd as [|? ? Hnotin Hnd']; subst. constructor.
    + intros Hin. apply in_map_iff in Hin as (y & Hy & Hin).
      apply bars_In in Hin as [(r' & Hr' & ->)|Hin].
      * apply Hnotin. simpl in Hy. rewrite <- Hy. apply in_map. exact Hr'.
      * assert (Hge : In (eid y) (map eid (entered st rest id))) by (apply in_map; exact Hin).
        rewrite entered_eids in Hge. apply in_seq in Hge.
        specialize (Hlt r (or_introl eq_refl)). lia.
    + apply IH; [exact Hnd'|]. intros r' Hr'. apply Hlt. right. exact Hr'.
  - constructor.
    + simpl. intros Hin. apply in_map_iff in Hin as (y & Hy & Hin).
      apply bars_In in Hin as [(r' & Hr' & ->)|Hin].
      * specialize (Hlt r' Hr'). simpl in Hy. lia.
      * assert (Hge : In (eid y) (map eid (entered st rest (S id))))
          by (apply in_map; exact Hin).
        rewrite entered_eids in Hge. apply in_seq in Hge. lia.
    + apply IH; [exact Hnd|]. intros r' Hr'. specialize (Hlt r' Hr'). lia.
Qed.

(** After a render the children of the layer are the bars of the
    slots. *)
Lemma renderGantt_bars (st : State) :
  List.NoDup (map eid (ganttLayer (dom st))) ->
  (forall r, In r (ganttLayer (dom st)) -> (eid r < created (dom st))%nat) ->
  (forall x, In x (ganttLayer (dom (renderGantt st))) <->
             In x (bars st (joined st) (created (dom st)))) /\
  List.NoDup (map eid (ganttLayer (dom (renderGantt st)))) /\
  (forall x, In x (ganttLayer (dom (renderGantt st))) ->
             (eid x < created (dom (renderGantt st)))%nat) /\
  List.NoDup (map eid (bars st (joined st) (created (dom st)))).
Proof.
  intros Hnd Hlt.
  destruct (renderGantt_layer st) as (Hlayer & Hcreated & Hslots).
  destruct (joined_spec st Hnd) as (Hdat & Hu & Hndu & Hcov & Hexit).
  cbv zeta in Hlayer, Hcreated, Hslots. rewrite Hslots in Hlayer, Hcreated.
  set (group := ganttLayer (dom st)) in *.
  set (slots := joined st) in *.
  assert (Hsub : forall r, In r (updates slots) -> In (eid r) (map eid group)).
  { intros r Hr. destruct (Hu r Hr) as (r0 & Hg & _ & Heq & _).
    rewrite Heq. simpl. apply in_map. exact Hg. }
  assert (Hult : forall r, In r (updates slots) -> (eid r < created (dom st))%nat).
  { intros r Hr. apply Hsub in Hr. apply in_map_iff in Hr as (y & <- & Hy). auto. }
  split; [|split; [|split]].
  - intros x. rewrite Hlayer, exit_all_In, enter_all_In.
    rewrite (update_all_In st slots group x Hndu Hsub), bars_In.
    split.
    + intros [[[Hupd|[Hin Hnot]]|Hent] Hnotexit]; [left; exact Hupd | | right; exact Hent].
      exfalso. apply Hnotexit. apply in_map. apply Hexit. auto.
    + intros [(r & Hr & ->)|Hent].
      * split; [left; left; eauto|]. intros Hin.
        apply in_map_iff in Hin as (y & Hy & Hin). apply Hexit in Hin as [_ Hnot].
        apply Hnot. rewrite Hy. simpl. apply in_map. exact Hr.
      * split; [right; exact Hent|]. intros Hin.
        apply in_map_iff in Hin as (y & Hy & Hin). apply Hexit in Hin as [Hg _].
        specialize (Hlt y Hg).
        assert (Hge : In (eid x) (map eid (entered st slots (created (dom st)))))
          by (apply in_map; exact Hent).
        rewrite entered_eids in Hge. apply in_seq in Hge. lia.
  - rewrite Hlayer. apply exit_all_NoDup. apply enter_all_NoDup.
    + rewrite update_all_eids. exact Hnd.
    + intros y Hy. assert (Hin : In (eid y) (map eid (update_all st slots group)))
        by (apply in_map; exact Hy).
      rewrite update_all_eids in Hin. apply in_map_iff in Hin as (z & <- & Hz). auto.
  - intros x. rewrite Hlayer, Hcreated, exit_all_In. intros [Hin _]. revert x Hin.
    apply enter_all_NoDup.
    + rewrite update_all_eids. exact Hnd.
    + intros y Hy. assert (Hin : In (eid y) (map eid (update_all st slots group)))
        by (apply in_map; exact Hy).
      rewrite update_all_eids in Hin. apply in_map_iff in Hin as (z & <- & Hz). auto.
  - apply bars_NoDup; assumption.
Qed.

End render.

Section reconcile.

Import Gantt GanttSpec.

Lemma entered_attrs (st : State) (slots : list (Rect + Node)) :
  forall (id : nat) (r : Rect),
  In r (entered st slots id) ->
  class r = name_of (heap (store st)) (datum r) /\
  fill r = key_of (heap (store st)) (datum r) /\
  on_click r = true.
Proof.
  induction slots as [|[u|d] rest IH]; intros id r; simpl; [intros [] | apply IH |].
  intros [<-|Hin]; [repeat split | exact (IH _ _ Hin)].
Qed.

Lemma bars_target (st : State) (slots : list (Rect + Node)) :
  forall (id : nat) (r : Rect),
  In r (bars st slots id) -> geometry r = target st (datum r).
Proof.
  induction slots as [|[u|d] rest IH]; intros id r; simpl; [intros [] | |].
  - intros [<-|Hin]; [reflexivity | exact (IH _ _ Hin)].
  - intros [<-|Hin]; [reflexivity | exact (IH _ _ Hin)].
Qed.



End reconcile.

(** ** The time chart: repeated events *)

Section time_chart_runs.

(** X11.  A zoom event overrides the one before it: the range of the price
    scale is computed from the canvas height and 0, never from the
    current range, and the one path of the lines layer is redrawn in
    place.  So handling an event after another leaves the chart exactly
    as handling the later event alone. *)
Theorem zoomed_absorbs (st st1 : TimeChart.State) (t1 t2 : d3.Transform)
    (Hfirst : TimeChart.zoomed t1 st = Some st1) :
  TimeChart.zoomed t2 st1 = TimeChart.zoomed t2 st /\
  TimeChart.zoomed t1 st1 = Some st1.
Proof.
  destruct st as [w h p sr xsc ysc xe ye xa ya z d].
  unfold TimeChart.zoomed, TimeChart.set_yScale_range in Hfirst. cbn in Hfirst.
  destruct ysc as [ys|]; [|discriminate]. cbn in Hfirst.
  destruct xsc as [xs|]; [|discriminate]. cbn in Hfirst.
  injection Hfirst as <-. split; reflexivity.
Qed.

Lemma zoomed_absorbs_witness :
  exists st1,
    TimeChart.zoomed (d3.mkTransform 2 0 (-100)) Spec.three_points_chart = Some st1 /\
    TimeChart.zoomed (d3.mkTransform 3 0 (-50)) st1
    = TimeChart.zoomed (d3.mkTransform 3 0 (-50)) Spec.three_points_chart.
Proof.
  destruct (TimeChart.zoomed (d3.mkTransform 2 0 (-100)) Spec.three_points_chart)
    as [st1|] eqn:Hz; [|vm_compute in Hz; discriminate].
  exists st1. split; [reflexivity|].
  exact (proj1 (zoomed_absorbs Spec.three_points_chart st1
                  (d3.mkTransform 2 0 (-100)) (d3.mkTransform 3 0 (-50)) Hz)).
Defined.

(** X12.  [go] recomputes everything from the series and the canvas: run again
    on its own result it changes nothing, and run after a zoom event it
    gives the chart it gives without the event, the zoomed range of the
    price scale being replaced by [canvasHeight, 0]. *)
Theorem go_recomputes (st st1 st2 : TimeChart.State) (t : d3.Transform)
    (Hgo : TimeChart.go st = Some st1)
    (Hzoom : TimeChart.zoomed t st1 = Some st2) :
  TimeChart.go st1 = Some st1 /\
  TimeChart.go st2 = Some st1 /\
  (d3.range <$> TimeChart.yScale st1)
  = Some (TimeChart.canvasHeight st, 0).
Proof.
  destruct st as [w h p sr xsc ysc xe ye xa ya z d].
  cbn in Hgo. injection Hgo as <-.
  cbn in Hzoom. injection Hzoom as <-.
  repeat split.
Qed.

Lemma go_recomputes_witness :
  exists st2,
    TimeChart.zoomed (d3.mkTransform 2 0 (-100)) Spec.three_points_chart = Some st2 /\
    TimeChart.go st2 = Some Spec.three_points_chart.
Proof.
  destruct (TimeChart.zoomed (d3.mkTransform 2 0 (-100)) Spec.three_points_chart)
    as [st2|] eqn:Hz; [|vm_compute in Hz; discriminate].
  exists st2. split; [reflexivity|].
  refine (proj1 (proj2 (go_recomputes
            (TimeChart.set_series Spec.three_points TimeChart.init)
            Spec.three_points_chart st2 (d3.mkTransform 2 0 (-100)) _ Hz))).
  vm_compute. reflexivity.
Defined.

End time_chart_runs.

(** ** What a flatten pass reaches and writes *)

Section reach.

Import Gantt GanttSpec.

(** Every node of the hierarchy lies at the end of a chain of child
    links from the record the traversal started at, as long as its depth
    says. *)
Lemma hierarchy_from_reaches (h : Heap) :
  forall fuel parent d l root,
    hierarchy_from fuel h parent d l = Some root ->
    forall n, In n (eachBefore root) ->
      exists k, path h k l (SerieGanttNode.data n) /\
                SerieGanttNode.depth n = (d + k)%nat.
Proof.
  intros fuel. induction fuel as [|fuel IH]; intros parent d l root Hroot; [discriminate|].
  rewrite hierarchy_from_kids in Hroot.
  destruct (kids h l) as [cs|] eqn:Hcs; simpl in Hroot; [|discriminate].
  destruct (mapM (hierarchy_from fuel h (Some l) (S d)) cs) as [ks|] eqn:Hks;
    simpl in Hroot; [|discriminate].
  injection Hroot as <-. intros n [<-|Hn]; simpl.
  - exists 0%nat. split; [constructor | lia].
  - apply in_flat_map in Hn as (k & Hk & Hn).
    apply mapM_Some_1 in Hks.
    destruct (Forall2_In_r _ _ _ k Hks Hk) as (c & Hc & Hck).
    destruct (IH _ _ _ _ Hck n Hn) as (j & Hpath & Hdepth).
    exists (S j). split; [econstructor; eauto | lia].
Qed.

Lemma Forall2_In_l {A B} (P : A -> B -> Prop) (l : list A) (k : list B) (x : A) :
  Forall2 P l k -> In x l -> exists y, In y k /\ P x y.
Proof.
  induction 1 as [|x' y l k Hxy _ IH]; simpl; [intros []|].
  intros [<-|Hin]; [eauto|].
  destruct (IH Hin) as (y' & Hy' & HP). eauto.
Qed.

(** Every chain of child links ends at a node of the hierarchy. *)
Lemma hierarchy_from_covers (h : Heap) :
  forall fuel parent d l root,
    hierarchy_from fuel h parent d l = Some root ->
    forall k l', path h k l l' ->
      exists n, In n (eachBefore root) /\ SerieGanttNode.data n = l' /\
                SerieGanttNode.depth n = (d + k)%nat.
Proof.
  intros fuel. induction fuel as [|fuel IH]; intros parent d l root Hroot; [discriminate|].
  rewrite hierarchy_from_kids in Hroot.
  destruct (kids h l) as [cs|] eqn:Hcs; simpl in Hroot; [|discriminate].
  destruct (mapM (hierarchy_from fuel h (Some l) (S d)) cs) as [ks|] eqn:Hks;
    simpl in Hroot; [|discriminate].
  injection Hroot as <-. intros k l' Hpath.
  inversion Hpath as [|k' ? cs' c ? Hcs' Hc Hrest]; subst.
  - eexists. split; [left; reflexivity|]. simpl. split; [reflexivity | lia].
  - rewrite Hcs in Hcs'. injection Hcs' as <-.
    apply mapM_Some_1 in Hks.
    destruct (Forall2_In_l _ _ _ c Hks Hc) as (kn & Hkn & Hck).
    destruct (IH _ _ _ _ Hck _ _ Hrest) as (n & Hn & Hdata & Hdepth).
    exists n. split; [|split; [exact Hdata | lia]].
    right. apply in_flat_map. exists kn. split; assumption.
Qed.

(** More fuel changes nothing of a traversal that returned. *)
Lemma hierarchy_from_more (h : Heap) :
  forall fuel parent d l root,
    hierarchy_from fuel h parent d l = Some root ->
    hierarchy_from (S fuel) h parent d l = Some root.
Proof.
  intros fuel. induction fuel as [|fuel IH]; intros parent d l root Hroot; [discriminate|].
  rewrite hierarchy_from_kids in Hroot. rewrite hierarchy_from_kids.
  destruct (kids h l) as [cs|]; [|discriminate]. cbn -[hierarchy_from] in Hroot |- *.
  destruct (mapM (hierarchy_from fuel h (Some l) (S d)) cs) as [ks|] eqn:Hks;
    simpl in Hroot; [|discriminate].
  assert (Hks' : mapM (hierarchy_from (S fuel) h (Some l) (S d)) cs = Some ks).
  { apply mapM_Some. apply mapM_Some_1 in Hks.
    eapply Forall2_impl; [exact Hks|]. intros c n Hc. apply IH. exact Hc. }
  rewrite Hks'. exact Hroot.
Qed.

Lemma hierarchy_from_le (h : Heap) (fuel fuel' : nat) :
  (fuel <= fuel')%nat ->
  forall parent d l root,
    hierarchy_from fuel h parent d l = Some root ->
    hierarchy_from fuel' h parent d l = Some root.
Proof.
  induction 1 as [|fuel' _ IH]; intros parent d l root Hroot; [exact Hroot|].
  apply hierarchy_from_more, IH, Hroot.
Qed.

(** A child link that leads back to a record met on the way exhausts
    every fuel. *)
Lemma hierarchy_from_cyclic (h : Heap) (l : loc) (j : nat) :
  path h (S j) l l ->
  forall fuel parent d x k,
    path h k x l -> hierarchy_from fuel h parent d x = None.
Proof.
  intros Hcycle fuel. induction fuel as [|fuel IH]; intros parent d x k Hreach; [reflexivity|].
  assert (Hchild : exists cs c k', kids h x = Some cs /\ In c cs /\ path h k' c l).
  { inversion Hreach as [|k' ? cs c ? Hcs Hc Hrest]; subst.
    - inversion Hcycle as [|? ? cs c ? Hcs Hc Hrest]; subst. eauto 6.
    - eauto 6. }
  destruct Hchild as (cs & c & k' & Hcs & Hc & Hrest).
  rewrite hierarchy_from_kids, Hcs. simpl.
  rewrite (proj2 (mapM_None _ cs)); [reflexivity|].
  apply Exists_exists. exists c. split; [apply list_elem_of_In; exact Hc|].
  exact (IH _ _ c k' Hrest).
Qed.

(** X5.  Whatever the records hold (shared children, keys of any kind), a
    flatten pass that returns emits the records a chain of [data] links
    reaches from the source, except those that carry the reserved key of
    the root: a caller's record with that key would be left out.  The
    depth of an emitted node is the length of such a chain.  The pass
    writes the key, start and end of the emitted records and nothing
    else: start and end become [new Date] of what they were, no record
    changes its name or either child slot, a record that is not emitted
    is not touched, and the state changes in its records only.  The
    result is that of every traversal that follows the nesting further. *)
Theorem preProcess_reach (fuel : nat) (series : loc) (st : State)
    (nodes : list Node) (st' : State)
    (Hpass : preProcess fuel series st = Some (nodes, st')) :
  (forall l, In l (map SerieGanttNode.data nodes) <->
             (exists k, path (heap (store st)) k series l) /\
             SerieGantt.key (deref (heap (store st)) l) <> rootKEY st) /\
  (forall n, In n nodes ->
     path (heap (store st)) (SerieGanttNode.depth n) series (SerieGanttNode.data n)) /\
  (forall n, In n nodes ->
     start_of (heap (store st')) n = newDate (start_of (heap (store st)) n) /\
     end_of (heap (store st')) n = newDate (end_of (heap (store st)) n)) /\
  (forall l, ~ In l (map SerieGanttNode.data nodes) ->
     heap (store st') !! l = heap (store st) !! l) /\
  (forall l,
     SerieGantt.name (deref (heap (store st')) l)
     = SerieGantt.name (deref (heap (store st)) l) /\
     SerieGantt.data (deref (heap (store st')) l)
     = SerieGantt.data (deref (heap (store st)) l) /\
     SerieGantt._data (deref (heap (store st')) l)
     = SerieGantt._data (deref (heap (store st)) l)) /\
  length (heap (store st')) = length (heap (store st)) /\
  st' = set_store (store st') st /\
  (forall fuel', (fuel <= fuel')%nat -> preProcess fuel' series st = Some (nodes, st')).
Proof.
  destruct (preProcess_inv _ _ _ _ _ Hpass) as (s' & Hstore & ->).
  destruct (preProcess_store_inv _ _ _ _ _ _ Hstore) as (root & Hroot & Hnodes & Hs').
  unfold hierarchy in Hroot.
  assert (Hin : forall n, In n nodes <->
            In n (eachBefore root) /\ key_of (heap (store st)) n <> rootKEY st).
  { intros n. rewrite Hnodes, filter_In, negb_true_iff, bool_decide_eq_false. reflexivity. }
  split; [|split; [|split; [|split; [|split; [|split; [|split]]]]]].
  - intros l. rewrite in_map_iff. split.
    + intros (n & <- & Hn). apply Hin in Hn as [Hn Hkey].
      destruct (hierarchy_from_reaches _ _ _ _ _ _ Hroot n Hn) as (k & Hpath & _).
      split; [eauto | exact Hkey].
    + intros [(k & Hpath) Hkey].
      destruct (hierarchy_from_covers _ _ _ _ _ _ Hroot k l Hpath) as (n & Hn & Hdata & _).
      exists n. split; [exact Hdata|]. apply Hin. split; [exact Hn|].
      unfold key_of. rewrite Hdata. exact Hkey.
  - intros n Hn. apply Hin in Hn as [Hn _].
    destruct (hierarchy_from_reaches _ _ _ _ _ _ Hroot n Hn) as (k & Hpath & Hdepth).
    simpl in Hdepth. rewrite Hdepth. exact Hpath.
  - intros n Hn.
    destruct (pass_fields _ _ _ _ _ _ Hstore (SerieGanttNode.data n))
      as (_ & _ & _ & _ & _ & Hdates & _).
    apply Hdates. apply in_map. exact Hn.
  - intros l Hl. simpl. rewrite Hs'. apply assign_fold_frame. exact Hl.
  - intros l.
    destruct (pass_fields _ _ _ _ _ _ Hstore l) as (Hname & Hdata & Hhidden & _).
    simpl. auto.
  - simpl. exact (pass_length _ _ _ _ _ _ Hstore).
  - destruct st; reflexivity.
  - intros fuel' Hle. unfold preProcess, preProcess_store, hierarchy.
    rewrite (hierarchy_from_le _ _ _ Hle _ _ _ _ Hroot). simpl.
    rewrite <- Hnodes, <- Hs'. reflexivity.
Qed.

Lemma preProcess_reach_witness :
  (In 2%nat (map SerieGanttNode.data (fst second_pass)) <->
   (exists k, path (heap (store two_nodes_state)) k 4%nat 2%nat) /\
   SerieGantt.key (deref (heap (store two_nodes_state)) 2%nat) <> rootKEY two_nodes_state) /\
  map SerieGanttNode.data (fst second_pass) = [3%nat; 2%nat].
Proof.
  split; [|vm_compute; reflexivity].
  refine (proj1 (preProcess_reach 3 4%nat two_nodes_state (fst second_pass) (snd second_pass) _)
                2%nat).
  vm_compute. reflexivity.
Defined.

(** X10.  On records whose [data] links lead from the source into a cycle,
    [d3.hierarchy] never finishes its traversal, and so [preProcess]
    never returns: whatever nesting the traversal is allowed to follow,
    it is exhausted. *)
Theorem preProcess_cyclic (fuel : nat) (series : loc) (st : State) (k j : nat) (l : loc)
    (Hreach : path (heap (store st)) k series l)
    (Hcycle : path (heap (store st)) (S j) l l) :
  preProcess fuel series st = None.
Proof.
  unfold preProcess, preProcess_store, hierarchy.
  rewrite (hierarchy_from_cyclic _ l j Hcycle fuel None 0%nat series k Hreach).
  reflexivity.
Qed.

Lemma preProcess_cyclic_witness : preProcess 100 0%nat (init looped_world) = None.
Proof.
  apply (preProcess_cyclic 100 0%nat (init looped_world) 0 0 0%nat).
  - constructor.
  - econstructor; [reflexivity | left; reflexivity | constructor].
Defined.

End reach.

(** ** Collapsing a node of a tree *)

Section collapse_tree.

Import Gantt GanttSpec.

Lemma root_of_prune (l : loc) (t : Tree) : root_of (prune l t) = root_of t.
Proof. destruct t as [x ts]. simpl. destruct (decide (x = l)); reflexivity. Qed.

Lemma prune_shape (h h1 : Heap) (l : loc) :
  kids h1 l = Some [] ->
  (forall x, x <> l -> kids h1 x = kids h x) ->
  forall t, shape h t -> shape h1 (prune l t).
Proof.
  intros Hl Hother. induction t as [x ts IH] using Tree_rect_Forall.
  intros Hshape. inversion Hshape as [? ? Hkids Hts]; subst. simpl.
  destruct (decide (x = l)) as [->|Hne].
  - constructor; [exact Hl | constructor].
  - constructor.
    + rewrite (Hother x Hne), Hkids, map_map. f_equal.
      apply map_ext. intros t. symmetry. apply root_of_prune.
    + apply List.Forall_forall. intros t' Hin. apply in_map_iff in Hin as (t & <- & Hin).
      rewrite List.Forall_forall in IH, Hts. apply IH; auto.
Qed.

Lemma prune_sublist (l : loc) (t : Tree) :
  forall d, sublist (map fst (preorder d (prune l t))) (map fst (preorder d t)).
Proof.
  induction t as [x ts IH] using Tree_rect_Forall. intros d. simpl.
  destruct (decide (x = l)) as [->|Hne]; simpl.
  - apply sublist_skip, sublist_nil_l.
  - apply sublist_skip. induction IH as [|t ts Ht _ IHts]; simpl; [constructor|].
    rewrite !map_app. apply sublist_app; [apply Ht | exact IHts].
Qed.

Lemma prune_levels (l : loc) (t : Tree) : (levels (prune l t) <= levels t)%nat.
Proof.
  induction t as [x ts IH] using Tree_rect_Forall. simpl.
  destruct (decide (x = l)) as [->|Hne]; simpl; [lia|].
  apply le_n_S. induction IH as [|t ts Ht _ IHts]; simpl; lia.
Qed.

Lemma prune_records (l : loc) (t : Tree) :
  (List.NoDup (records t) -> List.NoDup (records (prune l t))) /\
  (forall x, In x (records (prune l t)) -> In x (records t)).
Proof.
  pose proof (prune_sublist l t 0%nat) as Hsub. fold (records (prune l t)) (records t) in Hsub.
  split.
  - intros Hnd. apply NoDup_ListNoDup. apply NoDup_ListNoDup in Hnd.
    eapply sublist_NoDup; eauto.
  - intros x Hx. apply list_elem_of_In. apply list_elem_of_In in Hx.
    eapply sublist_subseteq; eauto.
Qed.

(** A pass over a tree of records: the records below the root, in
    pre-order. *)
Lemma pass_tree (fuel : nat) (rk : Key) (s : Store) (t : Tree) :
  shape (heap s) t ->
  List.NoDup (records t) ->
  SerieGantt.key (deref (heap s) (root_of t)) = rk ->
  (forall l, In l (records t) -> l <> root_of t -> SerieGantt.key (deref (heap s) l) <> rk) ->
  (levels t <= fuel)%nat ->
  exists nodes,
    preProcess_store fuel rk s (root_of t) = Some (nodes, fold_left assign nodes s) /\
    map located nodes = tail (preorder 0 t).
Proof.
  intros Hshape Htree Hroot Hkeys Hfuel.
  set (h := heap s) in *.
  destruct t as [l ts]. simpl root_of in *.
  pose proof (hierarchy_from_shape h (T l ts) Hshape fuel None 0%nat Hfuel) as Hh.
  simpl root_of in Hh.
  set (rest := flat_map eachBefore (map (node_of (Some l) 1%nat) ts)).
  assert (Hloc : map located rest = tail (preorder 0 (T l ts))).
  { pose proof (eachBefore_node_of (T l ts) None 0%nat) as He. simpl in He.
    injection He as He. exact He. }
  assert (Hrec : records (T l ts) = l :: map SerieGanttNode.data rest).
  { unfold records. simpl. f_equal. simpl in Hloc. rewrite <- Hloc.
    rewrite map_map. reflexivity. }
  rewrite Hrec in Htree. apply List.NoDup_cons_iff in Htree as [Hnotin Hnd].
  assert (Hkept :
    List.filter (fun node => negb (bool_decide (key_of h node = rk)))
                (eachBefore (node_of None 0 (T l ts))) = rest).
  { simpl. rewrite bool_decide_eq_true_2 by exact Hroot. simpl.
    apply filter_all. intros n Hn.
    apply negb_true_iff, bool_decide_eq_false_2. unfold key_of.
    assert (Hin : In (SerieGanttNode.data n) (map SerieGanttNode.data rest))
      by (apply in_map; exact Hn).
    apply Hkeys.
    - rewrite Hrec. right. exact Hin.
    - intros Heq. rewrite Heq in Hin. contradiction. }
  exists rest. split; [|exact Hloc].
  unfold preProcess_store, hierarchy. fold h. rewrite Hh.
  cbn -[eachBefore node_of List.filter fold_left].
  rewrite Hkept. reflexivity.
Qed.

(** X3.  Over a tree of records, a click on a node whose record has an array
    of children hides exactly what lies below that record: the new node
    list is the pre-order of the tree with the part below the record cut
    off, so the records beside and above it stay listed in their order.
    The children move to the hidden slot of the record, [data] becomes
    null, and no other record changes either slot. *)
Theorem click_collapses_subtree (fuel : nat) (st : State) (t : Tree) (node : Node)
    (Hsource : serieSource st = Some (root_of t))
    (Hshape : shape (heap (store st)) t)
    (Htree : List.NoDup (records t))
    (Hroot : SerieGantt.key (deref (heap (store st)) (root_of t)) = rootKEY st)
    (Hkeys : forall l, In l (records t) -> l <> root_of t ->
               SerieGantt.key (deref (heap (store st)) l) <> rootKEY st)
    (Hfuel : (levels t <= fuel)%nat)
    (Hvisible : truthy (SerieGantt.data
                  (deref (heap (store st)) (SerieGanttNode.data node))) = true) :
  exists st1,
    click fuel node st = Some st1 /\
    map located (seriesNodes st1) = tail (preorder 0 (prune (SerieGanttNode.data node) t)) /\
    SerieGantt.data (deref (heap (store st1)) (SerieGanttNode.data node)) = Null /\
    SerieGantt._data (deref (heap (store st1)) (SerieGanttNode.data node))
    = SerieGantt.data (deref (heap (store st)) (SerieGanttNode.data node)) /\
    (forall l, l <> SerieGanttNode.data node ->
       SerieGantt.data (deref (heap (store st1)) l)
       = SerieGantt.data (deref (heap (store st)) l) /\
       SerieGantt._data (deref (heap (store st1)) l)
       = SerieGantt._data (deref (heap (store st)) l)).
Proof.
  set (l := SerieGanttNode.data node) in *.
  set (h := heap (store st)) in *.
  assert (Hr : exists r, h !! l = Some r).
  { destruct (h !! l) as [r|] eqn:Hl; [eauto|].
    unfold deref in Hvisible. rewrite Hl in Hvisible. discriminate. }
  destruct Hr as [r Hr].
  assert (Hderef : deref h l = r) by (apply deref_Some; exact Hr).
  rewrite Hderef in Hvisible.
  set (s1 := click_store node (store st)).
  assert (Htoggle : toggle r = set_data Null (set__data (SerieGantt.data r) r)).
  { unfold toggle. rewrite Hvisible. reflexivity. }
  assert (Hl1 : kids (heap s1) l = Some []).
  { unfold s1. rewrite click_store_kids. fold l h.
    destruct (decide (l = l)) as [_|Hne]; [|contradiction].
    rewrite Hr. simpl. rewrite Htoggle. reflexivity. }
  assert (Hother : forall x, x <> l -> kids (heap s1) x = kids h x).
  { intros x Hx. unfold s1. rewrite click_store_kids. fold l h.
    destruct (decide (l = x)) as [Heq|_]; [congruence | reflexivity]. }
  assert (Hkey1 : forall x, SerieGantt.key (deref (heap s1) x) = SerieGantt.key (deref h x)).
  { intros x. exact (proj2 (proj2 (proj2 (click_store_fields node (store st) x)))). }
  destruct (prune_records l t) as [Hnd Hsub].
  destruct (pass_tree fuel (rootKEY st) s1 (prune l t)) as (nodes & Hpass & Hloc).
  - apply (prune_shape h); assumption.
  - apply Hnd. exact Htree.
  - rewrite root_of_prune, Hkey1. exact Hroot.
  - intros x Hx Hne. rewrite root_of_prune in Hne. rewrite Hkey1. apply Hkeys; auto.
  - pose proof (prune_levels l t). lia.
  - rewrite root_of_prune in Hpass.
    destruct (click_pass fuel node st (root_of t) nodes _ Hsource Hpass)
      as (st1 & Hclick & Hstore & Hnodes & _).
    exists st1. split; [exact Hclick|]. rewrite Hnodes. split; [exact Hloc|].
    assert (Hslots : forall x,
      SerieGantt.data (deref (heap (store st1)) x) = SerieGantt.data (deref (heap s1) x) /\
      SerieGantt._data (deref (heap (store st1)) x) = SerieGantt._data (deref (heap s1) x)).
    { intros x. rewrite Hstore.
      destruct (pass_fields _ _ _ _ _ _ Hpass x) as (_ & Hd & Hh & _). auto. }
    assert (Hl : deref (heap s1) l = toggle r).
    { unfold s1, click_store. simpl. fold l h. rewrite deref_update_eq by eauto.
      rewrite Hderef. reflexivity. }
    split; [|split].
    + rewrite (proj1 (Hslots l)), Hl, Htoggle. reflexivity.
    + rewrite (proj2 (Hslots l)), Hl, Htoggle, Hderef. reflexivity.
    + intros x Hx. destruct (Hslots x) as [-> ->].
      unfold s1, click_store. simpl. fold l h.
      rewrite deref_update_ne by congruence. auto.
Qed.

Lemma click_collapses_subtree_witness :
  exists a st1,
    head (seriesNodes two_nodes_drawn) = Some a /\
    map located (seriesNodes two_nodes_drawn) = [(3%nat, 1%nat); (2%nat, 2%nat)] /\
    click 3 a two_nodes_drawn = Some st1 /\
    map located (seriesNodes st1) = [(3%nat, 1%nat)].
Proof.
  destruct (head (seriesNodes two_nodes_drawn)) as [a|] eqn:Ha;
    [|vm_compute in Ha; discriminate].
  assert (Hdata : SerieGanttNode.data a = 3%nat).
  { vm_compute in Ha. injection Ha as <-. reflexivity. }
  assert (Hshape : shape (heap (store two_nodes_drawn))
                     (T 4%nat [T 3%nat [T 2%nat []]])).
  { repeat (constructor; [vm_compute; reflexivity|]); repeat constructor. }
  assert (Htree : List.NoDup (records (T 4%nat [T 3%nat [T 2%nat []]]))).
  { repeat constructor; simpl; intuition discriminate. }
  assert (Hkeys : forall l, In l (records (T 4%nat [T 3%nat [T 2%nat []]])) ->
            l <> 4%nat ->
            SerieGantt.key (deref (heap (store two_nodes_drawn)) l)
            <> rootKEY two_nodes_drawn).
  { intros l [<-|[<-|[<-|[]]]] Hne;
      [exfalso; apply Hne; reflexivity | vm_compute; discriminate | vm_compute; discriminate]. }
  destruct (click_collapses_subtree 3 two_nodes_drawn (T 4%nat [T 3%nat [T 2%nat []]]) a)
    as (st1 & Hclick & Hloc & _).
  - vm_compute. reflexivity.
  - exact Hshape.
  - exact Htree.
  - vm_compute. reflexivity.
  - exact Hkeys.
  - simpl. lia.
  - rewrite Hdata. vm_compute. reflexivity.
  - exists a, st1. split; [reflexivity|]. split; [vm_compute; reflexivity|].
    split; [exact Hclick|]. rewrite Hloc, Hdata. reflexivity.
Defined.

End collapse_tree.

(** ** The layout [go] computes *)

Section layout.

Import Gantt GanttSpec.

Lemma distinct_spec (keys : list Key) :
  forall seen,
    (forall d, In d (distinct seen keys) <-> In d keys /\ ~ In d seen) /\
    List.NoDup (distinct seen keys) /\
    (List.NoDup keys -> (forall d, In d keys -> ~ In d seen) -> distinct seen keys = keys).
Proof.
  induction keys as [|k rest IH]; intros seen; simpl.
  - split; [tauto|]. split; [constructor | reflexivity].
  - destruct (IH seen) as (Hin & Hnd & Heq).
    destruct (IH (k :: seen)) as (Hin' & Hnd' & Heq').
    destruct (bool_decide (k ∈ seen)) eqn:Hk.
    + apply bool_decide_eq_true, list_elem_of_In in Hk.
      split; [|split; [exact Hnd|]].
      * intros d. rewrite Hin. split; [tauto|].
        intros [[<-|Hd] Hs]; [contradiction | tauto].
      * intros _ Hout. destruct (Hout k (or_introl eq_refl) Hk).
    + apply bool_decide_eq_false in Hk. rewrite list_elem_of_In in Hk.
      split; [|split].
      * intros d. simpl. rewrite Hin'. simpl. split.
        -- intros [<-|[Hd Hs]]; [tauto|]. split; [tauto|]. intros Hd'. apply Hs. tauto.
        -- intros [[<-|Hd] Hs]; [tauto|].
           destruct (decide (k = d)) as [->|Hne]; [tauto|]. right. split; [exact Hd|].
           intros [Heq''|Hs']; [contradiction | contradiction].
      * constructor; [|exact Hnd']. rewrite Hin'. simpl. tauto.
      * intros Hnd2 Hout. apply List.NoDup_cons_iff in Hnd2 as [Hk' Hnd2].
        f_equal. apply Heq'; [exact Hnd2|].
        intros d Hd [<-|Hs]; [contradiction|]. exact (Hout d (or_intror Hd) Hs).
Qed.

Lemma find_app_first {A} (p : A -> bool) (l1 l2 : list A) :
  List.find p (l1 ++ l2)
  = match List.find p l1 with Some x => Some x | None => List.find p l2 end.
Proof.
  induction l1 as [|x l1 IH]; simpl; [reflexivity|]. destruct (p x); [reflexivity | exact IH].
Qed.

Lemma node_at_put (d k : Key) (n : Node) (m : list (Key * Node)) :
  node_at d (put k n m) = if decide (k = d) then Some n else node_at d m.
Proof.
  unfold node_at, put. simpl.
  destruct (decide (k = d)) as [->|Hne].
  - rewrite bool_decide_eq_true_2 by reflexivity. reflexivity.
  - rewrite bool_decide_eq_false_2 by exact Hne. f_equal.
    induction m as [|[k' n'] m IH]; simpl; [reflexivity|].
    destruct (decide (k' = k)) as [->|Hk].
    + rewrite bool_decide_eq_true_2 by reflexivity. simpl.
      rewrite (bool_decide_eq_false_2 (k = d)) by exact Hne. exact IH.
    + rewrite (bool_decide_eq_false_2 (k' = k)) by exact Hk. simpl.
      destruct (bool_decide (k' = d)); [reflexivity | exact IH].
Qed.

(** Under a key the map holds the last node of the list that has it. *)
Lemma nodeMap_last (h : Heap) (d : Key) (nodes : list Node) :
  forall m,
    node_at d (fold_left (fun acc curr => put (key_of h curr) curr acc) nodes m)
    = match List.find (fun n => bool_decide (key_of h n = d)) (rev nodes) with
      | Some n => Some n
      | None => node_at d m
      end.
Proof.
  induction nodes as [|n nodes IH]; intros m; simpl; [reflexivity|].
  rewrite IH, find_app_first, node_at_put. simpl.
  destruct (List.find _ (rev nodes)); [reflexivity|].
  destruct (decide (key_of h n = d)) as [Heq|Hne].
  - rewrite bool_decide_eq_true_2 by exact Heq. reflexivity.
  - rewrite bool_decide_eq_false_2 by exact Hne. reflexivity.
Qed.

Lemma nodeMap_at (h : Heap) (nodes : list Node) (d : Key) :
  (In d (map (key_of h) nodes) ->
     exists n, node_at d (nodeMap h nodes) = Some n /\ In n nodes /\ key_of h n = d) /\
  (~ In d (map (key_of h) nodes) -> node_at d (nodeMap h nodes) = None).
Proof.
  unfold nodeMap. rewrite nodeMap_last.
  destruct (List.find _ (rev nodes)) as [n|] eqn:Hfind.
  - apply find_some in Hfind as [Hin Hkey].
    apply bool_decide_eq_true in Hkey. apply in_rev in Hin.
    split.
    + intros _. exists n. auto.
    + intros Hout. destruct Hout. rewrite <- Hkey. apply in_map. exact Hin.
  - split; [|reflexivity].
    intros Hd. apply in_map_iff in Hd as (n & Hkey & Hin).
    apply in_rev in Hin. apply (find_none _ _ Hfind) in Hin.
    apply bool_decide_eq_false in Hin. contradiction.
Qed.

(** What [go] leaves in the state. *)
Lemma go_result (st : State) :
  exists st1,
    go st = Some st1 /\
    store st1 = store st /\ rootKEY st1 = rootKEY st /\ serieSource st1 = serieSource st /\
    width st1 = width st /\ height st1 = height st /\ padding st1 = padding st /\
    seriesNodes st1 = seriesNodes st /\ seriesNodeMap st1 = seriesNodeMap st /\
    yScale st1 = Some (scaleBand (map (key_of (heap (store st))) (seriesNodes st))
                                 (0, canvasHeight st)) /\
    color st1 = Some (scaleBand (map (key_of (heap (store st))) (seriesNodes st)) (0, 1)).
Proof.
  unfold go, compute, computeScale, computeAxis, render, renderAxis. simpl.
  match goal with
  | |- context [renderGantt ?x] => destruct (renderGantt_frame x) as (d & ->)
  end.
  eexists. split; [reflexivity|]. repeat split.
Qed.

Lemma renderGantt_height (v : Q) (st : State) :
  renderGantt (set_height v st) = set_height v (renderGantt st).
Proof.
  destruct st as [s rk src w h p nodes m xs ys xe xa ya c d].
  assert (Hu : update_all (mkState s rk src w v p nodes m xs ys xe xa ya c d)
               = update_all (mkState s rk src w h p nodes m xs ys xe xa ya c d))
    by reflexivity.
  assert (He : forall slots id cs,
            enter_all (mkState s rk src w v p nodes m xs ys xe xa ya c d) slots id cs
            = enter_all (mkState s rk src w h p nodes m xs ys xe xa ya c d) slots id cs).
  { induction slots as [|[r|n] slots IH]; intros id cs; simpl; [reflexivity | apply IH |].
    rewrite <- IH. reflexivity. }
  unfold renderGantt, set_height. simpl. rewrite Hu.
  destruct (bind_group _ _ _) as [m1 exit1].
  destruct (bind_data _ _ _) as [m2 slots]. rewrite He.
  destruct (enter_all _ _ _ _) as [c2 n]. reflexivity.
Qed.

(** X9.  In a state that has a node list, [go] returns; it writes no record
    and draws no identifier, and leaves the node list, the node map, the
    source and the inputs as they were.  The [height] input is never
    read: the rows take 40 units each, the band scale ranges over
    [0, 40 n - (top + bottom)] for [n] nodes, and with any other height
    [go] computes and renders the same. *)
Theorem go_ignores_height (st : State) (v : Q) :
  exists st1,
    go st = Some st1 /\
    go (set_height v st) = Some (set_height v st1) /\
    (band_range <$> yScale st1)
    = Some (0, inject_Z (Z.of_nat (length (seriesNodes st))) * 40
               - (top (padding st) + bottom (padding st))) /\
    store st1 = store st /\ seriesNodes st1 = seriesNodes st /\
    seriesNodeMap st1 = seriesNodeMap st /\ serieSource st1 = serieSource st /\
    rootKEY st1 = rootKEY st /\
    width st1 = width st /\ height st1 = height st /\ padding st1 = padding st.
Proof.
  destruct (go_result st) as (st1 & Hgo & Hs & Hk & Hsrc & Hw & Hh & Hp & Hn & Hm & Hys & _).
  exists st1. split; [exact Hgo|]. split.
  - revert Hgo. unfold go, compute, computeScale, computeAxis, render, renderAxis. simpl.
    intros Hgo. injection Hgo as <-. rewrite <- renderGantt_height. reflexivity.
  - rewrite Hys. simpl. repeat split; assumption.
Qed.

(** The node map and the band scale after a flatten pass and [go]. *)
Lemma pass_go_labels (fuel : nat) (series : loc) (st : State)
    (nodes : list Node) (st2 st1 : State) :
  preProcess fuel series st = Some (nodes, st2) ->
  go (set_nodes nodes st2) = Some st1 ->
  exists ys,
    yScale st1 = Some ys /\
    List.NoDup (band_domain ys) /\
    (forall d, In d (band_domain ys) <->
               In d (map (key_of (heap (store st1))) (seriesNodes st1))) /\
    (List.NoDup (map SerieGanttNode.data (seriesNodes st1)) ->
       band_domain ys = map (key_of (heap (store st1))) (seriesNodes st1)) /\
    (forall d, In d (band_domain ys) ->
       exists n, node_at d (seriesNodeMap st1) = Some n /\ In n (seriesNodes st1) /\
                 key_of (heap (store st1)) n = d /\
                 tickFormat st1 d = Some (name_of (heap (store st1)) n)) /\
    (forall d, ~ In d (band_domain ys) -> tickFormat st1 d = None) /\
    (band_domain <$> color st1) = Some (band_domain ys).
Proof.
  intros Hpass Hgo.
  destruct (go_result (set_nodes nodes st2))
    as (st1' & Hgo' & Hs & _ & _ & _ & _ & _ & Hn & Hm & Hys & Hcolor).
  rewrite Hgo in Hgo'. injection Hgo' as <-. simpl in Hs, Hn, Hm, Hys, Hcolor.
  rewrite Hs, Hn, Hm, Hcolor. unfold tickFormat. rewrite Hs, Hm.
  set (h := heap (store st2)) in *.
  destruct (distinct_spec (map (key_of h) nodes) []) as (Hin & Hnd & Heq).
  assert (Hdom : forall d, In d (distinct [] (map (key_of h) nodes)) <->
                           In d (map (key_of h) nodes)).
  { intros d. rewrite Hin. simpl. tauto. }
  eexists. split; [exact Hys|]. simpl.
  split; [exact Hnd|]. split; [exact Hdom|]. split; [|split; [|split; [|reflexivity]]].
  - intros Hdata. apply Heq; [|simpl; tauto].
    destruct (preProcess_inv _ _ _ _ _ Hpass) as (s' & Hstore & Hst2).
    destruct (preProcess_store_inv _ _ _ _ _ _ Hstore) as (root & _ & _ & Hs').
    unfold h. rewrite Hst2. simpl. rewrite Hs'.
    rewrite assign_fold_keys; [|exact Hdata | exact (pass_valid _ _ _ _ _ _ Hstore)].
    apply Finite.Injective_map_NoDup; [|apply seq_NoDup].
    intros a b Hab. injection Hab as ->. reflexivity.
  - intros d Hd. apply Hdom in Hd.
    destruct (proj1 (nodeMap_at h nodes d) Hd) as (n & Hat & Hn' & Hkey).
    exists n. rewrite Hat. simpl. auto.
  - intros d Hd.
    rewrite (proj2 (nodeMap_at h nodes d)); [reflexivity|].
    intros Hd'. apply Hd, Hdom, Hd'.
Qed.

(** X7.  After the series input was set and the chart drawn, and after every
    click, the band scale of the rows has one band for each key of the
    node list, in the order of the list when no record is listed twice;
    the tick format of the y axis finds a node of the list under every
    key of the scale and returns the name of its record, so labelling
    the ticks never reads a missing entry of the node map.  Under any
    other key the map has no node and the format throws.  The colour
    scale has the keys of the band scale. *)
Theorem tickFormat_resolves (st1 : State)
    (Hentry : (exists fuel node st, click fuel node st = Some st1) \/
              (exists fuel series st0 st,
                 set_series fuel series st0 = Some st /\ ngAfterViewInit st = Some st1)) :
  exists ys,
    yScale st1 = Some ys /\
    List.NoDup (band_domain ys) /\
    (forall d, In d (band_domain ys) <->
               In d (map (key_of (heap (store st1))) (seriesNodes st1))) /\
    (List.NoDup (map SerieGanttNode.data (seriesNodes st1)) ->
       band_domain ys = map (key_of (heap (store st1))) (seriesNodes st1)) /\
    (forall d, In d (band_domain ys) ->
       exists n, node_at d (seriesNodeMap st1) = Some n /\ In n (seriesNodes st1) /\
                 key_of (heap (store st1)) n = d /\
                 tickFormat st1 d = Some (name_of (heap (store st1)) n)) /\
    (forall d, ~ In d (band_domain ys) -> tickFormat st1 d = None) /\
    (band_domain <$> color st1) = Some (band_domain ys).
Proof.
  destruct Hentry as [(fuel & node & st & Hclick) | (fuel & series & st0 & st & Hset & Hgo)].
  - unfold click in Hclick.
    destruct (serieSource _) as [series|]; simpl in Hclick; [|discriminate].
    destruct (preProcess fuel series _) as [[nodes st2]|] eqn:Hpass; simpl in Hclick;
      [|discriminate].
    exact (pass_go_labels _ _ _ _ _ _ Hpass Hclick).
  - unfold set_series in Hset.
    destruct (clone fuel _ series) as [[h1 copies]|]; simpl in Hset; [|discriminate].
    destruct (preProcess fuel _ _) as [[nodes st2]|] eqn:Hpass; simpl in Hset; [|discriminate].
    injection Hset as <-.
    exact (pass_go_labels _ _ _ _ _ _ Hpass Hgo).
Qed.

Lemma tickFormat_resolves_witness :
  (exists ys,
     yScale two_nodes_drawn = Some ys /\
     (forall d, In d (band_domain ys) ->
        exists n, In n (seriesNodes two_nodes_drawn) /\
                  tickFormat two_nodes_drawn d
                  = Some (name_of (heap (store two_nodes_drawn)) n))) /\
  map (tickFormat two_nodes_drawn) [KUuid 1; KUuid 2; KUuid 0]
  = [Some "A"%string; Some "B"%string; None].
Proof.
  split; [|vm_compute; reflexivity].
  destruct (tickFormat_resolves two_nodes_drawn) as (ys & Hys & _ & _ & _ & Hat & _ & _).
  - right. exists 3%nat, [1%nat], (init caller_world), two_nodes_state.
    split; vm_compute; reflexivity.
  - exists ys. split; [exact Hys|]. intros d Hd.
    destruct (Hat d Hd) as (n & _ & Hn & _ & Hfmt). exists n. split; assumption.
Defined.

End layout.

(** ** The first render *)

Section first_render.

Import Gantt GanttSpec.

Lemma bind_data_empty (key : Node -> Key) (data : list Node) :
  bind_data key ∅ data = (∅, map inr data).
Proof.
  induction data as [|d data IH]; simpl; [reflexivity|].
  rewrite lookup_empty, IH. reflexivity.
Qed.

Lemma insertBefore_None (child : Rect) (c : list Rect) :
  insertBefore child None c = c ++ [child].
Proof.
  induction c as [|x c IH]; simpl; [reflexivity|].
  try rewrite bool_decide_eq_false_2 by discriminate. rewrite IH. reflexivity.
Qed.

Lemma next_update_inr (data : list Node) : next_update (map inr data) = None.
Proof. induction data as [|d data IH]; simpl; [reflexivity | exact IH]. Qed.

Lemma update_all_inr (st : State) (data : list Node) (c : list Rect) :
  update_all st (map inr data) c = c.
Proof.
  unfold update_all. induction data as [|d data IH]; simpl; [reflexivity | exact IH].
Qed.

Lemma enter_all_inr (st : State) (data : list Node) :
  forall (id : nat) (c : list Rect),
  enter_all st (map inr data) id c
  = (c ++ zip_with (new_rect st) (seq id (length data)) data, (id + length data)%nat).
Proof.
  induction data as [|d data IH]; intros id c; simpl.
  - rewrite app_nil_r, Nat.add_0_r. reflexivity.
  - rewrite next_update_inr, insertBefore_None, IH, <- app_assoc. simpl.
    f_equal. lia.
Qed.



End first_render.

(** ** Bars across a click *)

Section bars_across_click.

Import Gantt GanttSpec.

Lemma NoDup_map_eq {A B} (f : A -> B) (l : list A) (x y : A) :
  List.NoDup (map f l) -> In x l -> In y l -> f x = f y -> x = y.
Proof.
  induction l as [|a l IH]; simpl; [intros _ []|].
  intros Hnd. apply List.NoDup_cons_iff in Hnd as [Hnotin Hnd].
  intros [<-|Hx] [<-|Hy] Heq; auto.
  - exfalso. apply Hnotin. rewrite Heq. apply in_map. exact Hy.
  - exfalso. apply Hnotin. rewrite <- Heq. apply in_map. exact Hx.
Qed.

(** [go] ends in a render of the records and the node list it found,
    over the layer it found. *)
Lemma go_render (st st1 : State) :
  go st = Some st1 ->
  exists ste,
    st1 = renderGantt ste /\
    store ste = store st /\ seriesNodes ste = seriesNodes st /\
    ganttLayer (dom ste) = ganttLayer (dom st) /\ created (dom ste) = created (dom st).
Proof.
  unfold go, compute, computeScale, computeAxis, render, renderAxis. simpl.
  intros Hgo. injection Hgo as <-. eexists. split; [reflexivity|]. repeat split.
Qed.

Lemma renderGantt_store (st : State) :
  store (renderGantt st) = store st /\ seriesNodes (renderGantt st) = seriesNodes st.
Proof. destruct (renderGantt_frame st) as (d & ->). split; reflexivity. Qed.

(** The live elements after a render are bound to the nodes of the
    list, one each. *)
Lemma renderGantt_bound (st : State) :
  List.NoDup (map eid (ganttLayer (dom st))) ->
  (forall r, In r (ganttLayer (dom st)) -> (eid r < created (dom st))%nat) ->
  Permutation (map datum (ganttLayer (dom (renderGantt st)))) (seriesNodes st).
Proof.
  intros Hdistinct Hcreated.
  destruct (renderGantt_bars st Hdistinct Hcreated) as (Hbars & Hnd & _ & Hndb).
  destruct (joined_spec st Hdistinct) as (Hdat & _).
  rewrite <- Hdat, <- (bars_datum st (joined st) (created (dom st))).
  apply Permutation_map. apply Permutation.NoDup_Permutation; [| |exact Hbars].
  - eapply NoDup_map_inv. exact Hnd.
  - eapply NoDup_map_inv. exact Hndb.
Qed.

(** X1.  A click redraws the key of every listed record, and still the bars
    survive it: the nodes bound to the elements of the layer refer to the
    very records the pass rewrites, so the join reads the new keys on
    both sides.  From a rendered state, when no record is listed twice
    after the click: the bar of every record that stays listed is the
    same element as before, with its class, fill and handler, although
    the key of its record changed; the bar of a record no longer listed
    is removed; a record that was not listed before gets a newly created
    element.  The state is again a rendered one. *)
Theorem click_keeps_bars (fuel : nat) (st st1 : State) (node : Node)
    (Hrendered : rendered fuel st)
    (Hclick : click fuel node st = Some st1)
    (Htree : List.NoDup (map SerieGanttNode.data (seriesNodes st1))) :
  rendered fuel st1 /\
  (forall n, In n (seriesNodes st1) ->
     exists j, key_of (heap (store st1)) n = KUuid j /\ (uuid (store st) <= j)%nat) /\
  (forall r, In r (ganttLayer (dom st)) ->
     In (record_of r) (map SerieGanttNode.data (seriesNodes st1)) ->
     key_of (heap (store st1)) (datum r) <> key_of (heap (store st)) (datum r) /\
     exists r', In r' (ganttLayer (dom st1)) /\ eid r' = eid r /\
                record_of r' = record_of r /\
                class r' = class r /\ fill r' = fill r /\ on_click r' = on_click r) /\
  (forall r, In r (ganttLayer (dom st)) ->
     ~ In (record_of r) (map SerieGanttNode.data (seriesNodes st1)) ->
     ~ In (eid r) (map eid (ganttLayer (dom st1)))) /\
  (forall r', In r' (ganttLayer (dom st1)) ->
     ~ In (record_of r') (map SerieGanttNode.data (seriesNodes st)) ->
     (created (dom st) <= eid r')%nat /\
     class r' = name_of (heap (store st1)) (datum r') /\
     fill r' = key_of (heap (store st1)) (datum r') /\ on_click r' = true).
Proof.
  destruct Hrendered as (Hflat & Hnd0 & Hnde & Hlt & Hperm).
  pose proof (flattened_drawn fuel st Hflat) as Hdrawn.
  destruct Hflat as (s0 & series & Hsrc & _ & Hpass0).
  pose proof Hclick as Hgo.
  unfold click in Hgo. simpl in Hgo. rewrite Hsrc in Hgo. simpl in Hgo.
  destruct (preProcess fuel series _) as [[nodes1 st2]|] eqn:Hpass1; simpl in Hgo;
    [|discriminate].
  destruct (preProcess_inv _ _ _ _ _ Hpass1) as (s1 & Hstore1 & Hst2). simpl in Hstore1.
  destruct (click_from_pass fuel node st series nodes1 s1 Hsrc Hdrawn Hstore1)
    as (st1' & Hc & Hs1 & Hn1 & _ & _ & Hflat1).
  rewrite Hclick in Hc. injection Hc as <-.
  destruct (go_render _ _ Hgo) as (ste & Hst1 & Hse & Hne & Hle & Hce).
  rewrite Hst2 in Hse, Hle, Hce. simpl in Hse, Hne, Hle, Hce.
  rewrite Hn1 in Htree. rewrite Hs1, Hn1.
  set (h0 := heap (store st)) in *. set (h1 := heap s1) in *.
  set (old := ganttLayer (dom st)) in *. set (nodes0 := seriesNodes st) in *.
  (* keys before and after the pass of the click *)
  assert (K1 : forall n, In n nodes1 ->
            exists j, key_of h1 n = KUuid j /\ (uuid (store st) <= j)%nat).
  { intros n Hn. destruct (pass_key_range _ _ _ _ _ _ Hstore1) as [_ Hrange].
    destruct (Hrange n Hn) as (j & Hj & Hle' & _). simpl in Hle'. eauto. }
  assert (K0 : forall n, In n nodes0 ->
            exists j, key_of h0 n = KUuid j /\ (j < uuid (store st))%nat).
  { intros n Hn. destruct (pass_key_range _ _ _ _ _ _ Hpass0) as [_ Hrange].
    destruct (Hrange n Hn) as (j & Hj & _ & Hlt'). eauto. }
  assert (Hbound : forall r, In r old -> In (datum r) nodes0).
  { intros r Hr. eapply Permutation_in; [exact Hperm | apply in_map; exact Hr]. }
  assert (Hsame : forall n, ~ In (SerieGanttNode.data n) (map SerieGanttNode.data nodes1) ->
            key_of h1 n = key_of h0 n).
  { intros n Hn. unfold key_of.
    destruct (preProcess_store_inv _ _ _ _ _ _ Hstore1) as (_ & _ & _ & Hs).
    transitivity (SerieGantt.key (deref (heap (click_store node (store st)))
                                        (SerieGanttNode.data n))).
    - unfold deref, h1. rewrite Hs, assign_fold_frame by exact Hn. reflexivity.
    - exact (proj2 (proj2 (proj2 (click_store_fields node (store st) _)))). }
  assert (K3 : List.NoDup (map (key_of h1) nodes1)).
  { destruct (preProcess_store_inv _ _ _ _ _ _ Hstore1) as (_ & _ & _ & Hs).
    unfold h1. rewrite Hs.
    rewrite assign_fold_keys; [|exact Htree | exact (pass_valid _ _ _ _ _ _ Hstore1)].
    apply Finite.Injective_map_NoDup; [|apply seq_NoDup].
    intros a b Hab. injection Hab as ->. reflexivity. }
  assert (K4 : List.NoDup (map record_of old)).
  { unfold record_of. rewrite <- (map_map datum SerieGanttNode.data).
    eapply Permutation_NoDup; [|exact Hnd0].
    apply Permutation_sym, Permutation_map. exact Hperm. }
  assert (K5 : forall r0 n, In r0 old -> In n nodes1 ->
            key_of h1 (datum r0) = key_of h1 n -> record_of r0 = SerieGanttNode.data n).
  { intros r0 n Hr0 Hn Hkey.
    destruct (in_dec Nat.eq_dec (record_of r0) (map SerieGanttNode.data nodes1)) as [Hin|Hout].
    - apply in_map_iff in Hin as (n0 & Hdata & Hn0).
      rewrite <- Hdata. f_equal. apply (NoDup_map_eq (key_of h1) nodes1); auto.
      rewrite <- Hkey. unfold key_of. rewrite Hdata. reflexivity.
    - exfalso. rewrite (Hsame (datum r0) Hout) in Hkey.
      destruct (K0 _ (Hbound r0 Hr0)) as (j & Hj & Hlt').
      destruct (K1 n Hn) as (j' & Hj' & Hle').
      rewrite Hj, Hj' in Hkey. injection Hkey as ->. lia. }
  (* the join of the render *)
  assert (Hnde' : List.NoDup (map eid (ganttLayer (dom ste)))) by (rewrite Hle; exact Hnde).
  assert (Hlt' : forall r, In r (ganttLayer (dom ste)) -> (eid r < created (dom ste))%nat)
    by (rewrite Hle, Hce; exact Hlt).
  destruct (renderGantt_bars ste Hnde' Hlt') as (Hbars & Hnd & Hlive & _).
  pose proof (renderGantt_bound ste Hnde' Hlt') as Hperm1.
  destruct (joined_spec ste Hnde') as (_ & Hu & _ & Hcov & _).
  rewrite <- Hst1 in Hbars, Hnd, Hlive, Hperm1.
  rewrite Hse, Hle, Hne in Hu, Hcov. rewrite Hne in Hperm1. rewrite Hce in Hbars.
  fold h1 old in Hu, Hcov.
  set (slots := joined ste) in *. set (id := created (dom st)) in *.
  assert (Hentered : forall x, In x (entered ste slots id) ->
            (id <= eid x)%nat /\
            class x = name_of h1 (datum x) /\ fill x = key_of h1 (datum x) /\
            on_click x = true).
  { intros x Hx.
    assert (Hge : In (eid x) (map eid (entered ste slots id))) by (apply in_map; exact Hx).
    rewrite entered_eids in Hge. apply in_seq in Hge.
    pose proof (entered_attrs ste slots id x Hx) as Hattrs. rewrite Hse in Hattrs.
    split; [lia | exact Hattrs]. }
  split; [|split; [exact K1|split; [|split]]].
  - split; [exact Hflat1|]. rewrite Hn1.
    split; [exact Htree|]. split; [exact Hnd|]. split; [exact Hlive | exact Hperm1].
  - intros r Hr Hin. split.
    { apply in_map_iff in Hin as (n1 & Hdata & Hn).
      destruct (K1 n1 Hn) as (j' & Hj' & Hle').
      destruct (K0 _ (Hbound r Hr)) as (j & Hj & Hlt'').
      assert (Hk : key_of h1 (datum r) = key_of h1 n1)
        by (unfold key_of; rewrite Hdata; reflexivity).
      rewrite Hk, Hj, Hj'. intros Heq. injection Heq as ->. lia. }
    apply in_map_iff in Hin as (n1 & Hdata & Hn).
    assert (Hk : key_of h1 (datum r) = key_of h1 n1)
      by (unfold key_of; rewrite Hdata; reflexivity).
    destruct (first_with (key_of h1) (key_of h1 n1) old) as [r0|] eqn:Hf.
    2:{ apply first_with_None in Hf. exfalso. apply Hf. rewrite <- Hk.
        apply (in_map (fun r => key_of h1 (datum r))). exact Hr. }
    destruct (first_with_In _ _ _ _ Hf) as [Hr0 Hk0].
    assert (r0 = r).
    { apply (NoDup_map_eq record_of old); auto.
      rewrite (K5 r0 n1 Hr0 Hn Hk0). exact Hdata. }
    subst r0.
    destruct (Hcov _ r Hf) as (u & Hu' & Hku & Heq).
    { apply in_map. exact Hn. }
    destruct (Hu u Hu') as (_ & _ & _ & _ & Hd).
    exists (toTarget ste u). split; [apply Hbars, bars_In; left; eauto|].
    split; [simpl; rewrite Heq; reflexivity|].
    split.
    { transitivity (SerieGanttNode.data n1); [|exact Hdata].
      unfold record_of. simpl.
      f_equal. apply (NoDup_map_eq (key_of h1) nodes1); auto. }
    simpl. repeat split; rewrite Heq; reflexivity.
  - intros r Hr Hgone Hin. apply in_map_iff in Hin as (x & Hx & Hin).
    apply Hbars, bars_In in Hin as [(u & Hu' & ->)|Hent].
    + destruct (Hu u Hu') as (r0 & Hg & Hf & Heq & Hd). simpl in Hx.
      assert (r0 = r) by (apply (eid_inj old); auto; rewrite Heq in Hx; exact Hx).
      subst r0. apply (first_with_In (key_of h1)) in Hf as [_ Hk].
      apply Hgone. rewrite (K5 r (datum u) Hr Hd Hk). apply in_map. exact Hd.
    + destruct (Hentered x Hent) as [Hge _]. specialize (Hlt r Hr). fold id in Hlt. lia.
  - intros r' Hr' Hnew. apply Hbars, bars_In in Hr' as [(u & Hu' & ->)|Hent].
    + exfalso. destruct (Hu u Hu') as (r0 & Hg & Hf & Heq & Hd).
      apply (first_with_In (key_of h1)) in Hf as [_ Hk].
      apply Hnew. unfold record_of. simpl.
      rewrite <- (K5 r0 (datum u) Hg Hd Hk). unfold record_of.
      apply in_map. apply Hbound. exact Hg.
    + exact (Hentered r' Hent).
Qed.

(** The two-node chart: the bars 0 (A) and 1 (B); after a click on A
    the bar 0 alone; after a second click the bar 0 and a new bar 2 for
    B. *)
Lemma click_keeps_bars_witness :
  map (fun r => (eid r, record_of r)) (ganttLayer (dom two_nodes_drawn))
  = [(0%nat, 3%nat); (1%nat, 2%nat)] /\
  map (fun r => (eid r, record_of r)) (ganttLayer (dom two_nodes_collapsed))
  = [(0%nat, 3%nat)] /\
  rendered 3 two_nodes_collapsed /\
  ((fun st => map (fun r => (eid r, record_of r)) (ganttLayer (dom st)))
     <$> click 3 node_A two_nodes_collapsed)
  = Some [(0%nat, 3%nat); (2%nat, 2%nat)].
Proof.
  assert (Hr : rendered 3 two_nodes_drawn).
  { split; [exact two_nodes_drawn_flattened|].
    split; [vm_compute; repeat constructor; simpl; intuition discriminate|].
    split; [vm_compute; repeat constructor; simpl; intuition discriminate|].
    split; [|vm_compute; apply Permutation_refl].
    intros r Hin. vm_compute in Hin. destruct Hin as [<-|[<-|[]]]; vm_compute; lia. }
  assert (Hclick : click 3 node_A two_nodes_drawn = Some two_nodes_collapsed)
    by (vm_compute; reflexivity).
  assert (Htree : List.NoDup (map SerieGanttNode.data (seriesNodes two_nodes_collapsed))).
  { vm_compute. repeat constructor; simpl; intuition discriminate. }
  destruct (click_keeps_bars 3 two_nodes_drawn two_nodes_collapsed node_A Hr Hclick Htree)
    as (Hrendered & _).
  split; [vm_compute; reflexivity|]. split; [vm_compute; reflexivity|].
  split; [exact Hrendered | vm_compute; reflexivity].
Defined.

End bars_across_click.

(** ** What a click writes *)

Section click_writes.

Import Gantt GanttSpec.

(** X4.  The writes of a click on the bar of a listed node.  The two child
    slots of the clicked record are exchanged as [toggle] says and no
    other record changes either slot; no record changes its name; a
    record that was listed before keeps its start and end, and one
    listed now has [new Date] of what it held; a record that is neither
    clicked nor listed now is not touched.  What changes besides is the
    key of every record listed now, one identifier being drawn for each. *)
Theorem click_writes (fuel : nat) (st st1 : State) (node : Node)
    (Hflat : flattened fuel st)
    (Hnode : In node (seriesNodes st))
    (Hclick : click fuel node st = Some st1) :
  (forall l, SerieGantt.name (deref (heap (store st1)) l)
             = SerieGantt.name (deref (heap (store st)) l)) /\
  (forall n, In n (seriesNodes st) ->
     start_of (heap (store st1)) n = start_of (heap (store st)) n /\
     end_of (heap (store st1)) n = end_of (heap (store st)) n) /\
  (forall n, In n (seriesNodes st1) ->
     start_of (heap (store st1)) n = newDate (start_of (heap (store st)) n) /\
     end_of (heap (store st1)) n = newDate (end_of (heap (store st)) n)) /\
  (SerieGantt.data (deref (heap (store st1)) (SerieGanttNode.data node))
   = SerieGantt.data (toggle (deref (heap (store st)) (SerieGanttNode.data node))) /\
   SerieGantt._data (deref (heap (store st1)) (SerieGanttNode.data node))
   = SerieGantt._data (toggle (deref (heap (store st)) (SerieGanttNode.data node)))) /\
  (forall l, l <> SerieGanttNode.data node ->
     SerieGantt.data (deref (heap (store st1)) l)
     = SerieGantt.data (deref (heap (store st)) l) /\
     SerieGantt._data (deref (heap (store st1)) l)
     = SerieGantt._data (deref (heap (store st)) l)) /\
  (forall l, l <> SerieGanttNode.data node ->
     ~ In l (map SerieGanttNode.data (seriesNodes st1)) ->
     heap (store st1) !! l = heap (store st) !! l) /\
  length (heap (store st1)) = length (heap (store st)) /\
  uuid (store st1) = (uuid (store st) + length (seriesNodes st1))%nat.
Proof.
  pose proof (flattened_drawn fuel st Hflat) as Hdrawn.
  destruct Hflat as (s0 & series & Hsrc & _ & Hpass0).
  pose proof Hclick as Hgo.
  unfold click in Hgo. simpl in Hgo. rewrite Hsrc in Hgo. simpl in Hgo.
  destruct (preProcess fuel series _) as [[nodes1 st2]|] eqn:Hpass1; simpl in Hgo;
    [|discriminate].
  destruct (preProcess_inv _ _ _ _ _ Hpass1) as (s1 & Hstore1 & _). simpl in Hstore1.
  destruct (click_pass fuel node st series nodes1 s1 Hsrc Hstore1)
    as (st1' & Hc & Hs1 & Hn1 & _).
  rewrite Hclick in Hc. injection Hc as <-. rewrite Hs1, Hn1. clear Hgo Hpass1 st2.
  set (ln := SerieGanttNode.data node).
  set (h0 := heap (store st)). set (sc := click_store node (store st)) in *.
  assert (Hvalid : is_Some (h0 !! ln)).
  { apply lookup_lt_is_Some. unfold h0.
    rewrite (pass_length _ _ _ _ _ _ Hpass0).
    apply lookup_lt_is_Some. exact (pass_valid _ _ _ _ _ _ Hpass0 node Hnode). }
  assert (Hc : forall l, deref (heap sc) l
                         = if decide (ln = l) then toggle (deref h0 l) else deref h0 l).
  { intros l. unfold sc, click_store. simpl. fold ln h0.
    destruct (decide (ln = l)) as [<-|Hne];
      [apply deref_update_eq; exact Hvalid | apply deref_update_ne; exact Hne]. }
  assert (Hcf : forall l,
            SerieGantt.name (deref (heap sc) l) = SerieGantt.name (deref h0 l) /\
            SerieGantt.start (deref (heap sc) l) = SerieGantt.start (deref h0 l) /\
            SerieGantt.end_ (deref (heap sc) l) = SerieGantt.end_ (deref h0 l)).
  { intros l. destruct (click_store_fields node (store st) l) as (Hname & Hstart & Hend & _).
    auto. }
  assert (Hframe : forall l, ~ In l (map SerieGanttNode.data nodes1) ->
            heap s1 !! l = heap sc !! l).
  { intros l Hl. destruct (preProcess_store_inv _ _ _ _ _ _ Hstore1) as (_ & _ & _ & ->).
    apply assign_fold_frame. exact Hl. }
  split; [|split; [|split; [|split; [|split; [|split; [|split]]]]]].
  - intros l. destruct (pass_fields _ _ _ _ _ _ Hstore1 l) as (Hname & _).
    rewrite Hname. apply Hcf.
  - intros n Hn. unfold start_of, end_of. set (l := SerieGanttNode.data n).
    destruct (pass_fields _ _ _ _ _ _ Hpass0 l) as (_ & _ & _ & _ & _ & Hdates0 & _).
    destruct (Hdates0 (in_map _ _ _ Hn)) as [Hstart0 Hend0]. fold h0 in Hstart0, Hend0.
    destruct (Hcf l) as (_ & Hstart & Hend).
    destruct (in_dec Nat.eq_dec l (map SerieGanttNode.data nodes1)) as [Hin|Hout].
    + destruct (pass_fields _ _ _ _ _ _ Hstore1 l) as (_ & _ & _ & _ & _ & Hdates1 & _).
      destruct (Hdates1 Hin) as [-> ->]. rewrite Hstart, Hend, Hstart0, Hend0.
      split; apply newDate_idem.
    + unfold deref at 1 3. rewrite (Hframe l Hout). fold (deref (heap sc) l). auto.
  - intros n Hn. unfold start_of, end_of. set (l := SerieGanttNode.data n).
    destruct (pass_fields _ _ _ _ _ _ Hstore1 l) as (_ & _ & _ & _ & _ & Hdates1 & _).
    destruct (Hdates1 (in_map _ _ _ Hn)) as [-> ->].
    destruct (Hcf l) as (_ & -> & ->). auto.
  - destruct (pass_fields _ _ _ _ _ _ Hstore1 ln) as (_ & -> & -> & _).
    rewrite (Hc ln). destruct (decide (ln = ln)); [auto | contradiction].
  - intros l Hl. destruct (pass_fields _ _ _ _ _ _ Hstore1 l) as (_ & -> & -> & _).
    rewrite (Hc l). destruct (decide (ln = l)); [congruence | auto].
  - intros l Hl Hout. rewrite (Hframe l Hout). unfold sc, click_store. simpl. fold ln h0.
    rewrite update_lookup. destruct (decide (ln = l)); [congruence | reflexivity].
  - rewrite (pass_length _ _ _ _ _ _ Hstore1). unfold sc, click_store. simpl.
    apply update_length.
  - exact (proj1 (pass_key_range _ _ _ _ _ _ Hstore1)).
Qed.

Lemma click_writes_witness :
  map (name_of (heap (store two_nodes_collapsed))) (seriesNodes two_nodes_drawn)
  = map (name_of (heap (store two_nodes_drawn))) (seriesNodes two_nodes_drawn) /\
  SerieGantt.data (deref (heap (store two_nodes_collapsed)) 3%nat) = Null /\
  SerieGantt._data (deref (heap (store two_nodes_collapsed)) 3%nat) = Array [2%nat].
Proof.
  assert (Hnode : In node_A (seriesNodes two_nodes_drawn)) by (vm_compute; auto).
  assert (Hclick : click 3 node_A two_nodes_drawn = Some two_nodes_collapsed)
    by (vm_compute; reflexivity).
  destruct (click_writes 3 two_nodes_drawn two_nodes_collapsed node_A
              two_nodes_drawn_flattened Hnode Hclick) as (Hname & _ & _ & [Hd Hh] & _).
  split; [|split].
  - unfold name_of. apply map_ext. intros n. apply Hname.
  - change 3%nat with (SerieGanttNode.data node_A). rewrite Hd. vm_compute. reflexivity.
  - change 3%nat with (SerieGanttNode.data node_A). rewrite Hh. vm_compute. reflexivity.
Defined.

End click_writes.

(** ** Loading the time chart *)

Section time_chart_load.

(** X13.  A load always returns, whatever the rows hold and whatever was drawn
    before.  It leaves the rows as the series and both extents taken
    over them; the time scale is built from the extent of the dates over
    [0, canvasWidth] and made nice, the price scale from the extent of
    the prices over the inverted range [canvasHeight, 0].  The first
    path of the lines layer goes through the rows in their order and is
    drawn with these scales, and no path is added to a layer that has
    one; the group of the time axis is moved down by the canvas height,
    and the zoom behaviour computed is the one installed. *)
Theorem ngOnInit_draws (resp : list TimeChart.Serie) (st : TimeChart.State) :
  let xs := d3.mkScale (d3_array.extent (map TimeChart.date resp))
                       (0, TimeChart.canvasWidth st) true in
  let ys := d3.mkScale (d3_array.extent (map TimeChart.price resp))
                       (TimeChart.canvasHeight st, 0) false in
  exists st1,
    TimeChart.ngOnInit resp st = Some st1 /\
    TimeChart.series st1 = resp /\
    TimeChart.xExtent st1 = Some (d3_array.extent (map TimeChart.date resp)) /\
    TimeChart.yExtent st1 = Some (d3_array.extent (map TimeChart.price resp)) /\
    TimeChart.xScale st1 = Some xs /\ TimeChart.yScale st1 = Some ys /\
    head (TimeChart.linesLayer (TimeChart.dom st1)) = Some (TimeChart.mkPath resp xs ys) /\
    length (TimeChart.linesLayer (TimeChart.dom st1))
    = Nat.max 1 (length (TimeChart.linesLayer (TimeChart.dom st))) /\
    (snd <$> TimeChart.xAxisLayer (TimeChart.dom st1)) = Some (TimeChart.canvasHeight st) /\
    (fst <$> TimeChart.xAxisLayer (TimeChart.dom st1)) = TimeChart.xAxis st1 /\
    TimeChart.yAxisLayer (TimeChart.dom st1) = TimeChart.yAxis st1 /\
    TimeChart.svgZoom (TimeChart.dom st1) = TimeChart.zoom st1 /\
    TimeChart.width st1 = TimeChart.width st /\
    TimeChart.height st1 = TimeChart.height st /\
    TimeChart.padding st1 = TimeChart.padding st.
Proof.
  destruct st as [w h p sr xsc ysc xe ye xa ya z [xl yl ls sz]].
  cbn. eexists. split; [reflexivity|]. cbn.
  repeat (split; [reflexivity|]).
  split; [destruct ls; simpl; lia|].
  repeat (split; [reflexivity|]). reflexivity.
Qed.

(** The path a load draws. *)
Lemma ngOnInit_scales (resp : list TimeChart.Serie) (st : TimeChart.State) :
  let xs := d3.mkScale (d3_array.extent (map TimeChart.date resp))
                       (0, TimeChart.canvasWidth st) true in
  let ys := d3.mkScale (d3_array.extent (map TimeChart.price resp))
                       (TimeChart.canvasHeight st, 0) false in
  exists st1,
    TimeChart.ngOnInit resp st = Some st1 /\
    head (TimeChart.linesLayer (TimeChart.dom st1)) = Some (TimeChart.mkPath resp xs ys) /\
    TimeChart.series st1 = resp /\
    TimeChart.xScale st1 = Some xs /\ TimeChart.yScale st1 = Some ys /\
    TimeChart.canvasHeight st1 = TimeChart.canvasHeight st.
Proof.
  destruct st as [w h p sr xsc ysc xe ye xa ya z [xl yl ls sz]].
  cbn. eexists. repeat split; reflexivity.
Qed.

(** The path a zoom event draws. *)
Lemma zoomed_line (st1 st2 : TimeChart.State) (t : d3.Transform)
    (xs : d3.Scale Date) (ys : d3.Scale number) :
  TimeChart.xScale st1 = Some xs -> TimeChart.yScale st1 = Some ys ->
  TimeChart.zoomed t st1 = Some st2 ->
  head (TimeChart.linesLayer (TimeChart.dom st2))
  = Some (TimeChart.mkPath (TimeChart.series st1) xs
            (d3.set_range ys (d3.applyY t (TimeChart.canvasHeight st1), d3.applyY t 0))).
Proof.
  destruct st1 as [w h p sr xsc ysc xe ye xa ya z [xl yl ls sz]].
  simpl. intros -> -> Hzoom. cbn in Hzoom. injection Hzoom as <-. reflexivity.
Qed.

End time_chart_load.

(** ** Where the bars are drawn *)

Section geometry.

Import Gantt GanttSpec.

Lemma index_of_lookup (keys : list Key) :
  List.NoDup keys ->
  forall (i : nat) (k : Key), keys !! i = Some k -> index_of k keys = Some i.
Proof.
  induction keys as [|k0 keys IH]; intros Hnd i k Hi; [discriminate|].
  apply List.NoDup_cons_iff in Hnd as [Hnotin Hnd]. simpl.
  destruct i as [|i]; simpl in Hi.
  - injection Hi as ->. rewrite bool_decide_eq_true_2 by reflexivity. reflexivity.
  - rewrite bool_decide_eq_false_2.
    + rewrite (IH Hnd i k Hi). reflexivity.
    + intros ->. apply Hnotin. apply list_elem_of_In. eapply list_elem_of_lookup_2. exact Hi.
Qed.

(** The part of the way from [d0] to [d1] at which [x] lies. *)
Lemma fraction_bounds (d0 d1 x : Q) :
  d0 <= x -> x <= d1 ->
  0 <= (if Qeq_bool d0 d1 then 1 # 2 else (x - d0) / (d1 - d0)) <= 1.
Proof.
  intros H0 H1. destruct (Qeq_bool d0 d1) eqn:Heq; [lra|].
  apply Qeq_bool_neq in Heq.
  assert (0 < d1 - d0) by (destruct (Qlt_le_dec d0 d1); [lra|]; exfalso; apply Heq; lra).
  split.
  - apply Qle_shift_div_l; [assumption | lra].
  - apply Qle_shift_div_r; [assumption | lra].
Qed.

Lemma fraction_mono (d0 d1 x x' : Q) :
  d0 <= d1 -> x <= x' ->
  (if Qeq_bool d0 d1 then 1 # 2 else (x - d0) / (d1 - d0))
  <= (if Qeq_bool d0 d1 then 1 # 2 else (x' - d0) / (d1 - d0)).
Proof.
  intros H0 H1. destruct (Qeq_bool d0 d1) eqn:Heq; [lra|].
  apply Qeq_bool_neq in Heq.
  assert (0 < d1 - d0) by (destruct (Qlt_le_dec d0 d1); [lra|]; exfalso; apply Heq; lra).
  unfold Qdiv. apply Qmult_le_compat_r; [lra|].
  apply Qlt_le_weak, Qinv_lt_0_compat. assumption.
Qed.

(** The scales and the render in which [go] ends. *)
Lemma go_scales (st st1 : State) :
  go st = Some st1 ->
  exists ste,
    st1 = renderGantt ste /\
    store ste = store st /\ seriesNodes ste = seriesNodes st /\
    ganttLayer (dom ste) = ganttLayer (dom st) /\ created (dom ste) = created (dom st) /\
    xScale ste
    = Some (d3.mkScale
              (d3_array.min (map (start_of (heap (store st))) (seriesNodes st)),
               d3_array.max (map (end_of (heap (store st))) (seriesNodes st)))
              (0, canvasWidth st) false) /\
    yScale ste
    = Some (scaleBand (map (key_of (heap (store st))) (seriesNodes st)) (0, canvasHeight st)).
Proof.
  unfold go, compute, computeScale, computeAxis, render, renderAxis. simpl.
  intros Hgo. injection Hgo as <-. eexists. split; [reflexivity|]. repeat split.
Qed.

Lemma lookup_map {A B} (f : A -> B) (l : list A) (i : nat) :
  map f l !! i = f <$> l !! i.
Proof.
  revert i. induction l as [|a l IH]; intros [|i]; simpl; try reflexivity. apply IH.
Qed.

(** The target of the node at index [i] of a list with distinct keys and
    valid dates, under the scales [go] computes for it. *)
Lemma target_inside (h : Heap) (nodes : list Node) (cw ch : Q) (i : nat) (n : Node) :
  List.NoDup (map (key_of h) nodes) ->
  (forall n, In n nodes ->
     exists qs qe, start_of h n = DDate (mkDate (Fin qs)) /\
                   end_of h n = DDate (mkDate (Fin qe)) /\ qs <= qe) ->
  0 < ch -> 0 <= cw ->
  nodes !! i = Some n ->
  let g := mkGeometry (start_of h n) (end_of h n) (key_of h n)
             (Some (d3.mkScale (d3_array.min (map (start_of h) nodes),
                                d3_array.max (map (end_of h) nodes)) (0, cw) false))
             (Some (scaleBand (map (key_of h) nodes) (0, ch))) in
  let s := ch / inject_Z (Z.of_nat (length nodes)) in
  exists x y w hh,
    toTargetX g = Some x /\ toTargetY g = Some y /\
    targetWidth g = Some w /\ targetHeight g = Some hh /\
    0 <= x /\ 0 <= w /\ x + w <= cw /\
    s * inject_Z (Z.of_nat i) <= y /\ 0 < hh /\
    y + hh <= s * (inject_Z (Z.of_nat i) + 1) /\ y + hh <= ch.
Proof.
  intros Hkeys Hdates Hch Hcw Hi g s.
  assert (Hn : In n nodes) by (apply list_elem_of_In; eapply list_elem_of_lookup_2; exact Hi).
  destruct (Hdates n Hn) as (qs & qe & Hs & He & Hse).
  set (starts := map (start_of h) nodes) in *. set (ends := map (end_of h) nodes) in *.
  assert (Hcs : forall v, In v starts -> exists q, v = DDate (mkDate (Fin q))).
  { intros v Hv. apply in_map_iff in Hv as (n' & <- & Hn').
    destruct (Hdates n' Hn') as (q & _ & Hq & _). eauto. }
  assert (Hce : forall v, In v ends -> exists q, v = DDate (mkDate (Fin q))).
  { intros v Hv. apply in_map_iff in Hv as (n' & <- & Hn').
    destruct (Hdates n' Hn') as (_ & q & _ & Hq & _). eauto. }
  destruct (min_some starts) as (m & Hmin & Hm_in & _ & Hm_le).
  { exists (start_of h n). split; [apply in_map; exact Hn | rewrite Hs; reflexivity]. }
  destruct (max_some ends) as (M & Hmax & HM_in & _ & HM_le).
  { exists (end_of h n). split; [apply in_map; exact Hn | rewrite He; reflexivity]. }
  destruct (Hcs m Hm_in) as (d0 & ->). destruct (Hce M HM_in) as (d1 & ->).
  assert (H0s : d0 <= qs).
  { apply le_Fin. apply (Hm_le (DDate (mkDate (Fin qs)))); [|reflexivity].
    rewrite <- Hs. apply in_map. exact Hn. }
  assert (He1 : qe <= d1).
  { apply le_Fin. apply (HM_le (DDate (mkDate (Fin qe)))); [|reflexivity].
    rewrite <- He. apply in_map. exact Hn. }
  assert (Hdom : distinct [] (map (key_of h) nodes) = map (key_of h) nodes).
  { apply (distinct_spec (map (key_of h) nodes) []); [exact Hkeys | intros d _ []]. }
  assert (Hidx : index_of (key_of h n) (map (key_of h) nodes) = Some i).
  { apply index_of_lookup; [exact Hkeys|]. rewrite lookup_map, Hi. reflexivity. }
  assert (Hlen : (i < length nodes)%nat) by (eapply lookup_lt_Some; exact Hi).
  unfold g, toTargetX, toTargetY, targetWidth, targetHeight, time_scale, band_scale,
    bandwidth, step, scaleBand.
  cbn [on_x on_y of_start of_end of_key d3.domain d3.range band_domain band_range
       mbind option_bind].
  fold starts ends. rewrite Hmin, Hmax, Hs, He, Hdom, Hidx, length_map.
  cbn [nullish valueOf DateField_Value finite getTime mbind option_bind].
  assert (HQle : Qle_bool 0 ch = true) by (apply Qle_bool_iff; lra).
  assert (HZ : Z.max 1 (Z.of_nat (length nodes)) = Z.of_nat (length nodes)) by lia.
  rewrite HQle, HZ.
  pose proof (fraction_bounds d0 d1 qs ltac:(lra) ltac:(lra)) as Hts.
  pose proof (fraction_bounds d0 d1 qe ltac:(lra) ltac:(lra)) as Hte.
  pose proof (fraction_mono d0 d1 qs qe ltac:(lra) Hse) as Hmono.
  set (ts := if Qeq_bool d0 d1 then 1 # 2 else (qs - d0) / (d1 - d0)) in *.
  set (te := if Qeq_bool d0 d1 then 1 # 2 else (qe - d0) / (d1 - d0)) in *.
  clearbody ts te.
  set (N := inject_Z (Z.of_nat (length nodes))) in *.
  set (I := inject_Z (Z.of_nat i)).
  assert (HN : 0 < N) by (unfold N, Qlt; simpl; lia).
  assert (HI : I + 1 <= N).
  { unfold I, N. change 1 with (inject_Z 1). rewrite <- inject_Z_plus, <- Zle_Qle. lia. }
  assert (HI0 : 0 <= I) by (unfold I, Qle; simpl; lia).
  assert (Hmax0 : Qmax 0 ch == ch) by (apply Q.max_r; lra).
  assert (Hmin0 : Qmin 0 ch == 0) by (apply Q.min_l; lra).
  assert (HsN : s * N == ch) by (unfold s; field; lra).
  assert (Hs0 : 0 < s) by (unfold s; apply Qlt_shift_div_l; [exact HN | lra]).
  set (STEP := (Qmax 0 ch - Qmin 0 ch) / N).
  assert (HSTEP : STEP == s) by (unfold STEP, s; rewrite Hmax0, Hmin0; field; lra).
  clearbody STEP s I N.
  do 4 eexists. do 4 (split; [reflexivity|]).
  rewrite Hmax0, Hmin0, HSTEP.
  split; [nra|]. split; [nra|]. split; [nra|]. split; [lra|]. split; [lra|].
  split; [lra | nra].
Qed.



End geometry.

(** ** Where the line is drawn *)

Section line_geometry.



End line_geometry.

(** ** The records a click can reach *)

Section confinement.

Import Gantt GanttSpec.

Lemma path_owns (h : Heap) (k : nat) (a b : loc) : path h k a b -> owns h a b.
Proof.
  induction 1 as [l | k l cs c l' Hcs Hc _ IH]; [constructor|].
  apply kids_Some in Hcs as (r & Hr & <-).
  apply (owns_child h l r c); [exact Hr | apply in_or_app; left; exact Hc | exact IH].
Qed.

(** A chain of visible links after the slots of one record were
    exchanged is a chain of links, visible or hidden, before. *)
Lemma path_toggled_owns (node : Node) (s : Store) (k : nat) (a b : loc) :
  path (heap (click_store node s)) k a b -> owns (heap s) a b.
Proof.
  induction 1 as [l | k l cs c l' Hcs Hc _ IH]; [constructor|].
  rewrite click_store_kids in Hcs.
  destruct (decide (SerieGanttNode.data node = l)) as [Heq|Hne].
  - destruct (heap s !! l) as [r|] eqn:Hr; [|discriminate]. simpl in Hcs.
    injection Hcs as <-. apply (owns_child (heap s) l r c); [exact Hr| |exact IH].
    unfold toggle in Hc. destruct (truthy (SerieGantt.data r)); simpl in Hc; [destruct Hc|].
    apply in_or_app. right. exact Hc.
  - apply kids_Some in Hcs as (r & Hr & <-).
    apply (owns_child (heap s) l r c); [exact Hr | apply in_or_app; left; exact Hc | exact IH].
Qed.

Lemma path_ext (h h' : Heap) (k : nat) (a b : loc) :
  (forall l, kids h l = kids h' l) -> path h k a b -> path h' k a b.
Proof.
  intros Hkids. induction 1 as [l | k l cs c l' Hcs Hc _ IH]; [constructor|].
  rewrite Hkids in Hcs. econstructor; eauto.
Qed.

Lemma owns_mono (h h' : Heap) (a b : loc) :
  (forall l r', h' !! l = Some r' ->
     exists r, h !! l = Some r /\
       forall c, In c (elements (SerieGantt.data r') ++ elements (SerieGantt._data r')) ->
                 In c (elements (SerieGantt.data r) ++ elements (SerieGantt._data r))) ->
  owns h' a b -> owns h a b.
Proof.
  intros Hlinks. induction 1 as [l | l r' c l' Hr' Hc _ IH]; [constructor|].
  destruct (Hlinks l r' Hr') as (r & Hr & Hsub).
  apply (owns_child h l r c); [exact Hr | apply Hsub; exact Hc | exact IH].
Qed.

(** X15.  A click stays within the records the source owns, those that
    links through [data] or [_data] reach from it.  The clicked record
    and every record listed after the click are owned; a record that is
    not owned is not written, whatever it holds; and the click adds no
    record to those the source owns.  So over any number of clicks the
    component writes only to records its source owned at the start. *)
Theorem click_confined (fuel : nat) (st st1 : State) (node : Node) (series : loc)
    (Hflat : flattened fuel st)
    (Hsrc : serieSource st = Some series)
    (Hnode : In node (seriesNodes st))
    (Hclick : click fuel node st = Some st1) :
  owns (heap (store st)) series (SerieGanttNode.data node) /\
  (forall n, In n (seriesNodes st1) ->
     owns (heap (store st)) series (SerieGanttNode.data n)) /\
  (forall l, ~ owns (heap (store st)) series l ->
     heap (store st1) !! l = heap (store st) !! l) /\
  (forall l, owns (heap (store st1)) series l -> owns (heap (store st)) series l) /\
  serieSource st1 = Some series.
Proof.
  destruct Hflat as (s0 & series' & Hsrc' & _ & Hpass0).
  rewrite Hsrc in Hsrc'. injection Hsrc' as <-.
  pose proof Hclick as Hgo.
  unfold click in Hgo. simpl in Hgo. rewrite Hsrc in Hgo. simpl in Hgo.
  destruct (preProcess fuel series _) as [[nodes1 st2]|] eqn:Hpass1; simpl in Hgo;
    [|discriminate].
  destruct (preProcess_inv _ _ _ _ _ Hpass1) as (s1 & Hstore1 & _). simpl in Hstore1.
  destruct (click_pass fuel node st series nodes1 s1 Hsrc Hstore1)
    as (st1' & Hc & Hs1 & Hn1 & Hsrc1 & _).
  rewrite Hclick in Hc. injection Hc as <-. rewrite Hs1, Hn1. clear Hgo Hpass1 st2.
  set (ln := SerieGanttNode.data node).
  set (h0 := heap (store st)). set (sc := click_store node (store st)) in *.
  assert (Hown : owns h0 series ln).
  { destruct (preProcess_store_inv _ _ _ _ _ _ Hpass0) as (root & Hroot & Hnodes & _).
    rewrite Hnodes in Hnode. apply filter_In in Hnode as [Hnode _].
    destruct (hierarchy_from_reaches _ _ _ _ _ _ Hroot node Hnode) as (k & Hpath & _).
    apply (path_owns h0 k). eapply path_ext; [|exact Hpath].
    intros l. symmetry. exact (pass_kids _ _ _ _ _ _ Hpass0 l). }
  assert (Hlisted : forall n, In n nodes1 -> owns h0 series (SerieGanttNode.data n)).
  { intros n Hn.
    destruct (preProcess_store_inv _ _ _ _ _ _ Hstore1) as (root & Hroot & Hnodes & _).
    rewrite Hnodes in Hn. apply filter_In in Hn as [Hn _].
    destruct (hierarchy_from_reaches _ _ _ _ _ _ Hroot n Hn) as (k & Hpath & _).
    exact (path_toggled_owns node (store st) k _ _ Hpath). }
  assert (Hvalid : is_Some (h0 !! ln)).
  { apply lookup_lt_is_Some. unfold h0.
    rewrite (pass_length _ _ _ _ _ _ Hpass0).
    apply lookup_lt_is_Some. exact (pass_valid _ _ _ _ _ _ Hpass0 node Hnode). }
  split; [exact Hown|]. split; [exact Hlisted|]. split; [|split; [|exact Hsrc1]].
  - intros l Hl.
    assert (Hne : ln <> l) by (intros <-; exact (Hl Hown)).
    assert (Hout : ~ In l (map SerieGanttNode.data nodes1)).
    { intros Hin. apply in_map_iff in Hin as (n & <- & Hn). exact (Hl (Hlisted n Hn)). }
    destruct (preProcess_store_inv _ _ _ _ _ _ Hstore1) as (_ & _ & _ & ->).
    rewrite assign_fold_frame by exact Hout.
    unfold sc, click_store. simpl. fold ln h0.
    rewrite update_lookup. destruct (decide (ln = l)); [contradiction | reflexivity].
  - intros l. apply owns_mono. intros x r1 Hr1.
    assert (Hx : is_Some (h0 !! x)).
    { apply lookup_lt_is_Some. apply lookup_lt_Some in Hr1.
      rewrite (pass_length _ _ _ _ _ _ Hstore1) in Hr1.
      unfold sc, click_store in Hr1. simpl in Hr1. rewrite update_length in Hr1. exact Hr1. }
    destruct Hx as [r0 Hr0]. exists r0. split; [exact Hr0|].
    destruct (pass_fields _ _ _ _ _ _ Hstore1 x) as (_ & Hd & Hh & _).
    rewrite (deref_Some _ _ _ Hr1) in Hd, Hh. rewrite Hd, Hh.
    unfold sc, click_store. simpl. fold ln h0.
    destruct (decide (ln = x)) as [<-|Hne].
    + rewrite deref_update_eq by exact Hvalid. rewrite (deref_Some _ _ _ Hr0).
      unfold toggle. destruct (truthy (SerieGantt.data r0)); simpl; intros c Hc.
      * apply in_or_app. left. exact Hc.
      * rewrite app_nil_r in Hc. apply in_or_app. right. exact Hc.
    + rewrite deref_update_ne by exact Hne. rewrite (deref_Some _ _ _ Hr0). auto.
Qed.

Lemma click_confined_witness :
  heap (store two_nodes_collapsed) !! 1%nat = heap (store two_nodes_drawn) !! 1%nat /\
  heap (store two_nodes_drawn) !! 1%nat = Some record_A.
Proof.
  split; [|vm_compute; reflexivity].
  assert (Hnode : In node_A (seriesNodes two_nodes_drawn)) by (vm_compute; auto).
  assert (Hclick : click 3 node_A two_nodes_drawn = Some two_nodes_collapsed)
    by (vm_compute; reflexivity).
  assert (Hsrc : serieSource two_nodes_drawn = Some 4%nat) by (vm_compute; reflexivity).
  destruct (click_confined 3 two_nodes_drawn two_nodes_collapsed node_A 4%nat
              two_nodes_drawn_flattened Hsrc Hnode Hclick) as (_ & _ & Hframe & _).
  apply Hframe. intros Howns.
  assert (Hin : forall a b, owns (heap (store two_nodes_drawn)) a b ->
            In a [2%nat; 3%nat; 4%nat] -> In b [2%nat; 3%nat; 4%nat]).
  { induction 1 as [l | l r c l' Hr Hc _ IH]; [auto|].
    intros Hl. apply IH.
    destruct Hl as [<-|[<-|[<-|[]]]]; vm_compute in Hr; injection Hr as <-;
      simpl in Hc; intuition (subst; simpl; auto). }
  specialize (Hin _ _ Howns). simpl in Hin. intuition discriminate.
Defined.

End confinement.

(** ** Expanding a node of a tree *)

Section expand_tree.

Import Gantt GanttSpec.

Lemma root_of_graft (l : loc) (ts' : list Tree) (t : Tree) :
  root_of (graft l ts' t) = root_of t.
Proof. destruct t as [x ts]. simpl. destruct (decide (x = l)); reflexivity. Qed.

Lemma records_child (x : loc) (ts : list Tree) (t : Tree) (l : loc) :
  In t ts -> In l (records t) -> In l (records (T x ts)).
Proof.
  intros Ht Hl. unfold records. simpl. right.
  rewrite <- (preorder_fst t 1%nat) in Hl.
  apply in_map_iff in Hl as (p & Hp & Hin).
  apply in_map_iff. exists p. split; [exact Hp|].
  apply in_flat_map. exists t. split; assumption.
Qed.

(** A tree holds in every heap that has the child links of its
    records. *)
Lemma shape_frame (h h1 : Heap) :
  forall t, shape h t ->
    (forall x, In x (records t) -> kids h1 x = kids h x) -> shape h1 t.
Proof.
  induction t as [x ts IH] using Tree_rect_Forall.
  intros Hshape Hsame. inversion Hshape as [? ? Hkids Hts]; subst.
  constructor.
  - rewrite Hsame; [exact Hkids | left; reflexivity].
  - apply List.Forall_forall. intros t Ht.
    rewrite List.Forall_forall in IH, Hts.
    apply IH; [exact Ht | exact (Hts t Ht) |].
    intros y Hy. apply Hsame. exact (records_child x ts t y Ht Hy).
Qed.

Lemma graft_shape (h h1 : Heap) (l : loc) (ts' : list Tree) :
  kids h1 l = Some (map root_of ts') ->
  (forall x, x <> l -> kids h1 x = kids h x) ->
  Forall (shape h1) ts' ->
  forall t, shape h t -> shape h1 (graft l ts' t).
Proof.
  intros Hl Hother Hsub. induction t as [x ts IH] using Tree_rect_Forall.
  intros Hshape. inversion Hshape as [? ? Hkids Hts]; subst. simpl.
  destruct (decide (x = l)) as [->|Hne].
  - constructor; assumption.
  - constructor.
    + rewrite (Hother x Hne), Hkids, map_map. f_equal.
      apply map_ext. intros t. symmetry. apply root_of_graft.
    + apply List.Forall_forall. intros t' Hin. apply in_map_iff in Hin as (t & <- & Hin).
      rewrite List.Forall_forall in IH, Hts. apply IH; auto.
Qed.

(** X16.  Over a tree of records, a click on a node whose record has no
    array in [data] and hidden children in [_data] shows what was
    hidden: the new node list is the pre-order of the tree with the
    hidden trees hung below the record, so the children and what they
    show follow their parent, one level deeper, and the rest of the list
    keeps its order.  The children move back to [data], [_data] becomes
    null, and no other record changes either slot. *)
Theorem click_expands_subtree (fuel : nat) (st : State) (t : Tree) (ts' : list Tree)
    (node : Node)
    (Hsource : serieSource st = Some (root_of t))
    (Hshape : shape (heap (store st)) t)
    (Hcollapsed : truthy (SerieGantt.data
                    (deref (heap (store st)) (SerieGanttNode.data node))) = false)
    (Hhidden : SerieGantt._data (deref (heap (store st)) (SerieGanttNode.data node))
               = Array (map root_of ts'))
    (Hsub : Forall (shape (heap (store st))) ts')
    (Hapart : forall t', In t' ts' -> ~ In (SerieGanttNode.data node) (records t'))
    (Htree : List.NoDup (records (graft (SerieGanttNode.data node) ts' t)))
    (Hroot : SerieGantt.key (deref (heap (store st)) (root_of t)) = rootKEY st)
    (Hkeys : forall l, In l (records (graft (SerieGanttNode.data node) ts' t)) ->
               l <> root_of t ->
               SerieGantt.key (deref (heap (store st)) l) <> rootKEY st)
    (Hfuel : (levels (graft (SerieGanttNode.data node) ts' t) <= fuel)%nat) :
  exists st1,
    click fuel node st = Some st1 /\
    map located (seriesNodes st1)
    = tail (preorder 0 (graft (SerieGanttNode.data node) ts' t)) /\
    SerieGantt.data (deref (heap (store st1)) (SerieGanttNode.data node))
    = Array (map root_of ts') /\
    SerieGantt._data (deref (heap (store st1)) (SerieGanttNode.data node)) = Null /\
    (forall l, l <> SerieGanttNode.data node ->
       SerieGantt.data (deref (heap (store st1)) l)
       = SerieGantt.data (deref (heap (store st)) l) /\
       SerieGantt._data (deref (heap (store st1)) l)
       = SerieGantt._data (deref (heap (store st)) l)).
Proof.
  set (l := SerieGanttNode.data node) in *.
  set (h := heap (store st)) in *.
  assert (Hr : exists r, h !! l = Some r).
  { destruct (h !! l) as [r|] eqn:Hl; [eauto|].
    unfold deref in Hhidden. rewrite Hl in Hhidden. discriminate. }
  destruct Hr as [r Hr].
  assert (Hderef : deref h l = r) by (apply deref_Some; exact Hr).
  rewrite Hderef in Hcollapsed, Hhidden.
  set (s1 := click_store node (store st)).
  assert (Htoggle : toggle r = set__data Null (set_data (SerieGantt._data r) r)).
  { unfold toggle. rewrite Hcollapsed. reflexivity. }
  assert (Hl1 : kids (heap s1) l = Some (map root_of ts')).
  { unfold s1. rewrite click_store_kids. fold l h.
    destruct (decide (l = l)) as [_|Hne]; [|contradiction].
    rewrite Hr. simpl. rewrite Htoggle. simpl. rewrite Hhidden. reflexivity. }
  assert (Hother : forall x, x <> l -> kids (heap s1) x = kids h x).
  { intros x Hx. unfold s1. rewrite click_store_kids. fold l h.
    destruct (decide (l = x)) as [Heq|_]; [congruence | reflexivity]. }
  assert (Hkey1 : forall x, SerieGantt.key (deref (heap s1) x) = SerieGantt.key (deref h x)).
  { intros x. exact (proj2 (proj2 (proj2 (click_store_fields node (store st) x)))). }
  assert (Hsub1 : Forall (shape (heap s1)) ts').
  { apply List.Forall_forall. intros t' Ht'. rewrite List.Forall_forall in Hsub.
    apply (shape_frame h); [exact (Hsub t' Ht')|].
    intros x Hx. apply Hother. intros ->. exact (Hapart t' Ht' Hx). }
  destruct (pass_tree fuel (rootKEY st) s1 (graft l ts' t)) as (nodes & Hpass & Hloc).
  - apply (graft_shape h); assumption.
  - exact Htree.
  - rewrite root_of_graft, Hkey1. exact Hroot.
  - intros x Hx Hne. rewrite root_of_graft in Hne. rewrite Hkey1. apply Hkeys; auto.
  - exact Hfuel.
  - rewrite root_of_graft in Hpass.
    destruct (click_pass fuel node st (root_of t) nodes _ Hsource Hpass)
      as (st1 & Hclick & Hstore & Hnodes & _).
    exists st1. split; [exact Hclick|]. rewrite Hnodes. split; [exact Hloc|].
    assert (Hslots : forall x,
      SerieGantt.data (deref (heap (store st1)) x) = SerieGantt.data (deref (heap s1) x) /\
      SerieGantt._data (deref (heap (store st1)) x) = SerieGantt._data (deref (heap s1) x)).
    { intros x. rewrite Hstore.
      destruct (pass_fields _ _ _ _ _ _ Hpass x) as (_ & Hd & Hh & _). auto. }
    assert (Hl : deref (heap s1) l = toggle r).
    { unfold s1, click_store. simpl. fold l h. rewrite deref_update_eq by eauto.
      rewrite Hderef. reflexivity. }
    split; [|split].
    + rewrite (proj1 (Hslots l)), Hl, Htoggle. simpl. exact Hhidden.
    + rewrite (proj2 (Hslots l)), Hl, Htoggle. reflexivity.
    + intros x Hx. destruct (Hslots x) as [-> ->].
      unfold s1, click_store. simpl. fold l h.
      rewrite deref_update_ne by congruence. auto.
Qed.

Lemma click_expands_subtree_witness :
  exists st1,
    map located (seriesNodes two_nodes_collapsed) = [(3%nat, 1%nat)] /\
    click 3 node_A two_nodes_collapsed = Some st1 /\
    map located (seriesNodes st1) = [(3%nat, 1%nat); (2%nat, 2%nat)].
Proof.
  assert (Hdata : SerieGanttNode.data node_A = 3%nat) by (vm_compute; reflexivity).
  destruct (click_expands_subtree 3 two_nodes_collapsed (T 4%nat [T 3%nat []])
              [T 2%nat []] node_A) as (st1 & Hclick & Hloc & _).
  - vm_compute. reflexivity.
  - repeat (constructor; [vm_compute; reflexivity|]); repeat constructor.
  - rewrite Hdata. vm_compute. reflexivity.
  - rewrite Hdata. vm_compute. reflexivity.
  - repeat (constructor; [vm_compute; reflexivity|]); repeat constructor.
  - rewrite Hdata. intros t' [<-|[]]. simpl. intuition discriminate.
  - rewrite Hdata. vm_compute. repeat constructor; simpl; intuition discriminate.
  - vm_compute. reflexivity.
  - rewrite Hdata. intros l Hl Hne. vm_compute in Hl.
    destruct Hl as [<-|[<-|[<-|[]]]];
      [exfalso; apply Hne; reflexivity | vm_compute; discriminate | vm_compute; discriminate].
  - rewrite Hdata. vm_compute. lia.
  - exists st1. split; [vm_compute; reflexivity|]. split; [exact Hclick|].
    rewrite Hloc, Hdata. reflexivity.
Defined.

End expand_tree.

(** ** The state a render leaves *)

Section rendering.

Import Gantt GanttSpec.

(** X17.  From a flattened state in which no record is listed twice and
    the elements of the layer are distinct, [go] returns a rendered
    state: the records and the node list are as before, and the layer
    holds distinct elements, one bound to each node of the list.  This
    is the state the first draw leaves and every click finds. *)
Theorem go_renders (fuel : nat) (st : State)
    (Hflat : flattened fuel st)
    (Htree : List.NoDup (map SerieGanttNode.data (seriesNodes st)))
    (Hdistinct : List.NoDup (map eid (ganttLayer (dom st))))
    (Hcreated : forall r, In r (ganttLayer (dom st)) -> (eid r < created (dom st))%nat) :
  exists st1,
    go st = Some st1 /\
    rendered fuel st1 /\
    store st1 = store st /\ seriesNodes st1 = seriesNodes st /\
    (created (dom st) <= created (dom st1))%nat.
Proof.
  destruct (go_frame st) as (st1 & Hgo & Hstore & Hnodes & _).
  exists st1. split; [exact Hgo|].
  pose proof (go_flattened fuel st st1 Hflat Hgo) as Hflat1.
  destruct (go_render st st1 Hgo) as (ste & Hst1 & _ & Hne & Hle & Hce).
  assert (Hnde : List.NoDup (map eid (ganttLayer (dom ste)))) by (rewrite Hle; exact Hdistinct).
  assert (Hlt : forall r, In r (ganttLayer (dom ste)) -> (eid r < created (dom ste))%nat)
    by (rewrite Hle, Hce; exact Hcreated).
  destruct (renderGantt_bars ste Hnde Hlt) as (_ & Hnd & Hlive & _).
  pose proof (renderGantt_bound ste Hnde Hlt) as Hperm.
  destruct (renderGantt_layer ste) as (_ & Hnew & _).
  rewrite enter_all_created in Hnew.
  rewrite <- Hst1 in Hnd, Hlive, Hperm, Hnew. rewrite Hne in Hperm. rewrite Hce in Hnew.
  split; [|split; [exact Hstore | split; [exact Hnodes | lia]]].
  split; [exact Hflat1|]. rewrite Hnodes.
  split; [exact Htree|]. split; [exact Hnd|]. split; [exact Hlive | exact Hperm].
Qed.

Lemma go_renders_witness :
  go two_nodes_state = Some two_nodes_drawn /\ rendered 3 two_nodes_drawn.
Proof.
  assert (Hflat : flattened 3 two_nodes_state).
  { apply (set_series_flattened 3 [1%nat] (init caller_world) two_nodes_state);
      [vm_compute; reflexivity | apply init_drawn]. }
  destruct (go_renders 3 two_nodes_state Hflat) as (st1 & Hgo & Hrendered & _).
  - vm_compute. repeat constructor; simpl; intuition discriminate.
  - vm_compute. constructor.
  - intros r Hr. vm_compute in Hr. destruct Hr.
  - assert (Hst : st1 = two_nodes_drawn).
    { unfold two_nodes_drawn, ngAfterViewInit. rewrite Hgo. reflexivity. }
    subst st1. split; [exact Hgo | exact Hrendered].
Defined.

End rendering.

(** ** The line under a zoom event *)

Section line_zoom.

Lemma price_scale_affine (dom : option number * option number) (r0 r1 : Q) (n : bool)
    (t : d3.Transform) (v : number) :
  match TimeChart.price_scale (d3.mkScale dom (r0, r1) n) v,
        TimeChart.price_scale (d3.mkScale dom (d3.applyY t r0, d3.applyY t r1) n) v with
  | Some y, Some y' => y' == d3.applyY t y
  | None, None => True
  | _, _ => False
  end.
Proof.
  unfold TimeChart.price_scale. cbn [d3.domain d3.range].
  destruct dom as [[a|] [b|]]; try exact I.
  destruct (finite a) as [d0|]; [|exact I]. destruct (finite b) as [d1|]; [|exact I].
  destruct (finite v) as [x|]; [|exact I].
  cbn [mbind option_bind]. unfold d3.applyY. ring.
Qed.



End line_zoom.
